(** * FastScribe: the parallel chunk-orchestration engine

    A shallow embedding of [scripts/transcribe_parallel.py]: chunk planning,
    the splitter, the chunk worker with its staggered-start gate, the
    progress monitor, result aggregation and cleanup, the file-level
    executor of [VideoTranscriber.run], the configuration dialogue of
    [main]; and of the launcher [transcribe.py].

    Conventions.
    - Python [int] is [Z]; Python [float] is IEEE binary64, taken from the
      standard library's [SpecFloat] (precision 53, emax 1024).
    - A [Path] is its list of components; the filesystem is a finite map
      from paths to nodes.
    - A Python [str] is held as its UTF-8 encoding, a file as the text it
      holds: files are read and written in UTF-8, and the line separator
      of the platform is the line feed.
    - What is printed is kept as a list of lines; lines that format a float
      keep the float.
    - The external tools (ffprobe, ffmpeg, Whisper) are oracles: records
      that say what each invocation returns, raises and writes.
    - Concurrent activities (chunk workers, jobs of the outer executor) are
      step functions driven by an explicit schedule; a write to a progress
      record takes two steps (the file is opened and truncated, then the
      record is dumped), every other statement one.  Once the file is
      open the dump does not fail.
    - [whisper.load_model] writes to the filesystem in [__init__] (the
      cache of the library); in a worker it finds the checkpoint there.
    - [KeyboardInterrupt]: [process_video] is the run of the method in
      which none is raised while it waits for its workers;
      [process_video_interrupted] is the run in which one is, in its own
      thread or in worker processes, whose futures pass it on.
    - Not modelled: the redirection of the standard streams and the
      patching of [tqdm] in a worker (the calls Whisper makes on the
      progress bar are part of its oracle), the rendering of the bars, and
      the parsing of the command line ([main] starts from the parsed
      arguments; text typed at the terminal is ASCII). *)

From Stdlib Require Import ZArith Lia List Bool.
From Stdlib Require Import SpecFloat.
From stdpp Require Import base tactics option list gmap strings pretty fin_maps sorting.

Open Scope Z_scope.

(** ** Python values *)

Module Py.

(** An exception: its class name and [str(e)]. *)
Inductive exn := Exn (cls : string) (msg : string).

Definition exn_str (e : exn) : string := let 'Exn _ m := e in m.

Inductive result (A : Type) :=
| Ok (a : A)
| Raise (e : exn).
Arguments Ok {A} a.
Arguments Raise {A} e.

#[global] Instance result_ret : MRet result := fun _ a => Ok a.
#[global] Instance result_bind : MBind result := fun _ _ k r =>
  match r with
  | Ok a => k a
  | Raise e => Raise e
  end.

(** A list comprehension whose body may raise: stops at the first raise. *)
Fixpoint mapR {A B} (f : A -> result B) (l : list A) : result (list B) :=
  match l with
  | [] => Ok []
  | a :: l' => b ← f a; bs ← mapR f l'; Ok (b :: bs)
  end.

(** [range(a, b)] *)
Definition range (a b : Z) : list Z := seqZ a (b - a).

(** *** Floats *)

Abbreviation float := spec_float.
Definition prec : Z := 53.
Definition emax : Z := 1024.

Definition fdiv : float -> float -> float := SFdiv prec emax.
Definition fmul : float -> float -> float := SFmul prec emax.
Definition fltb : float -> float -> bool := SFltb.
Definition fzero : float := S754_zero false.

(** The nearest double of an integer (round to nearest, ties to even). *)
Definition nearest (n : Z) : float := binary_normalize prec emax n 0 false.

(** Integers of magnitude [2^1024 - 2^970] and above round past the largest
    double: CPython raises instead of converting. *)
Definition float_int_limit : Z := 2 ^ 1024 - 2 ^ 970.

Definition OverflowError_int : exn :=
  Exn "OverflowError" "int too large to convert to float".
Definition ZeroDivisionError_float : exn :=
  Exn "ZeroDivisionError" "float division by zero".

(** [float(n)] for an [int] operand of a float operation. *)
Definition float_of_int (n : Z) : result float :=
  if Z.abs n <? float_int_limit then Ok (nearest n) else Raise OverflowError_int.

(** [x / n] with [x] a float and [n] an int. *)
Definition truediv_float_int (x : float) (n : Z) : result float :=
  y ← float_of_int n;
  if n =? 0 then Raise ZeroDivisionError_float else Ok (fdiv x y).

(** [n * x] with [n] an int and [x] a float. *)
Definition mul_int_float (n : Z) (x : float) : result float :=
  y ← float_of_int n; Ok (fmul y x).

(** [a / b] on two ints: the correctly rounded quotient. *)
Definition int_as_float (n : Z) : float :=
  match n with
  | Z0 => S754_zero false
  | Zpos p => S754_finite false p 0
  | Zneg p => S754_finite true p 0
  end.

Definition truediv_int_int (a b : Z) : result float :=
  if b =? 0 then Raise (Exn "ZeroDivisionError" "division by zero")
  else match fdiv (int_as_float a) (int_as_float b) with
       | S754_infinity _ =>
           Raise (Exn "OverflowError" "integer division result too large for a float")
       | q => Ok q
       end.

(** [int(x)]: truncation towards zero. *)
Definition int_of_float (x : float) : result Z :=
  match x with
  | S754_zero _ => Ok 0
  | S754_finite s m e =>
      let a := match e with
               | Zneg k => Z.shiftr (Zpos m) (Zpos k)
               | _ => Z.shiftl (Zpos m) e
               end in
      Ok (if s then - a else a)
  | S754_infinity _ =>
      Raise (Exn "OverflowError" "cannot convert float infinity to integer")
  | S754_nan => Raise (Exn "ValueError" "cannot convert float NaN to integer")
  end.

(** Truthiness of a float: [0.0] and [-0.0] are falsy. *)
Definition float_truthy (x : float) : bool :=
  match x with
  | S754_zero _ => false
  | _ => true
  end.

End Py.
Export Py.

(** ** Paths and the filesystem *)

Module FS.

(** A [pathlib.Path], as its components from the root. *)
Abbreviation Path := (list string).

(** [p / name] *)
Definition joinpath (p : Path) (name : string) : Path := p ++ [name].
Infix "/:" := joinpath (at level 40, left associativity).

Definition parent (p : Path) : Path := removelast p.

(** JSON values found in a progress record. *)
Inductive jval :=
| JInt (n : Z)
| JStr (s : string).

(** A JSON object, keys in insertion order as in a Python [dict]. *)
Abbreviation jdict := (list (string * jval)).

(** [d.get(key, default)] *)
Fixpoint dict_get (d : jdict) (key : string) (default : jval) : jval :=
  match d with
  | [] => default
  | (k, v) :: d' => if String.eqb k key then v else dict_get d' key default
  end.

Definition dquote : string := String (Ascii.ascii_of_nat 34) EmptyString.
Definition backslash : Ascii.ascii := Ascii.ascii_of_nat 92.

Fixpoint json_escape (s : string) : string :=
  match s with
  | EmptyString => EmptyString
  | String c s' =>
      if (Ascii.eqb c (Ascii.ascii_of_nat 34) || Ascii.eqb c backslash)%bool
      then String backslash (String c (json_escape s'))
      else String c (json_escape s')
  end.

Definition json_dumps_val (v : jval) : string :=
  match v with
  | JInt n => pretty n
  | JStr s => dquote +:+ json_escape s +:+ dquote
  end.

Fixpoint json_dumps_items (d : jdict) : string :=
  match d with
  | [] => ""
  | [(k, v)] => dquote +:+ json_escape k +:+ dquote +:+ ": " +:+ json_dumps_val v
  | (k, v) :: d' =>
      dquote +:+ json_escape k +:+ dquote +:+ ": " +:+ json_dumps_val v
      +:+ ", " +:+ json_dumps_items d'
  end.

(** The text [json.dump] writes for an object of ints and plain strings. *)
Definition json_dumps (d : jdict) : string := "{" +:+ json_dumps_items d +:+ "}".

(** What a regular file holds.  [Json d] is a text file holding the
    document [json_dumps d]; [Text s] is any other text, never a JSON
    document (the empty file left by [open(..., 'w')] is [Text ""]);
    [Media d] is a media file for which ffprobe reports the duration [d]
    ([None]: nothing that parses as a number). *)
Inductive content :=
| Text (s : string)
| Json (d : jdict)
| Media (d : option float).

Inductive node :=
| Dir
| File (c : content).

Abbreviation filesystem := (gmap Path node).

(** [p.exists()] *)
Definition exists_ (fs : filesystem) (p : Path) : bool :=
  match fs !! p with
  | Some _ => true
  | None => false
  end.

Definition is_dir (fs : filesystem) (p : Path) : bool :=
  match p, fs !! p with
  | [], _ => true
  | _, Some Dir => true
  | _, _ => false
  end.

(** [shutil.rmtree(p)]: removes the directory [p] and everything below
    it; raises when [p] is not a directory. *)
Definition rmtree (fs : filesystem) (p : Path) : result filesystem :=
  match fs !! p with
  | Some Dir => Ok (filter (fun kv => ¬ p `prefix_of` kv.1) fs)
  | Some (File _) => Raise (Exn "NotADirectoryError" "rmtree")
  | None => Raise (Exn "FileNotFoundError" "rmtree")
  end.

(** [p.mkdir(parents=True, exist_ok=True)] *)
Fixpoint mkdir_from (fs : filesystem) (base : Path) (rest : list string)
  : result filesystem :=
  match rest with
  | [] => Ok fs
  | name :: rest' =>
      let q := base /: name in
      match fs !! q with
      | None => mkdir_from (<[q := Dir]> fs) q rest'
      | Some Dir => mkdir_from fs q rest'
      | Some (File _) =>
          Raise (Exn (match rest' with
                      | [] => "FileExistsError"
                      | _ => "NotADirectoryError"
                      end) "mkdir")
      end
  end.

Definition mkdir_parents (fs : filesystem) (p : Path) : result filesystem :=
  mkdir_from fs [] p.

(** [open(p, 'w')]: creates or truncates the file. *)
Definition open_w (fs : filesystem) (p : Path) : result filesystem :=
  match fs !! p with
  | Some Dir => Raise (Exn "IsADirectoryError" "open")
  | _ => if is_dir fs (parent p) then Ok (<[p := File (Text "")]> fs)
         else Raise (Exn "FileNotFoundError" "open")
  end.

(** [open(p, 'w')] succeeds. *)
Definition can_open (fs : filesystem) (p : Path) : bool :=
  match open_w fs p with
  | Ok _ => true
  | Raise _ => false
  end.

(** What has been written through a handle obtained from [open_w] is in
    the file once the handle is closed; a file unlinked in between stays
    unlinked. *)
Definition flush (fs : filesystem) (p : Path) (c : content) : filesystem :=
  match fs !! p with
  | Some (File _) => <[p := File c]> fs
  | _ => fs
  end.

(** Text mode reads with universal newlines: a carriage return, alone or
    followed by a line feed, is read as a line feed. *)
Definition CR : Ascii.ascii := Ascii.ascii_of_nat 13.
Definition LF : Ascii.ascii := Ascii.ascii_of_nat 10.

Fixpoint universal_newlines (s : string) : string :=
  match s with
  | EmptyString => EmptyString
  | String c s' =>
      if Ascii.eqb c CR then
        String LF match s' with
                  | String c' s'' =>
                      if Ascii.eqb c' LF then universal_newlines s''
                      else universal_newlines s'
                  | EmptyString => EmptyString
                  end
      else String c (universal_newlines s')
  end.

(** [open(p, 'r')] then [read()] / [json.load] *)
Definition read_text (fs : filesystem) (p : Path) : result string :=
  match fs !! p with
  | Some (File (Text s)) => Ok (universal_newlines s)
  | Some (File (Json d)) => Ok (json_dumps d)
  | Some (File (Media _)) => Raise (Exn "UnicodeDecodeError" "read")
  | Some Dir => Raise (Exn "IsADirectoryError" "open")
  | None => Raise (Exn "FileNotFoundError" "open")
  end.

Definition json_load (fs : filesystem) (p : Path) : result jdict :=
  match fs !! p with
  | Some (File (Json d)) => Ok d
  | Some (File (Text _)) => Raise (Exn "JSONDecodeError" "json.load")
  | Some (File (Media _)) => Raise (Exn "UnicodeDecodeError" "json.load")
  | Some Dir => Raise (Exn "IsADirectoryError" "open")
  | None => Raise (Exn "FileNotFoundError" "open")
  end.

End FS.
Export FS.

(** ** The transcriber object, the external tools, chunk planning *)

(** A printed line.  [MsgF pre x post] is a line in which the float [x] is
    formatted with [{:.0f}] between [pre] and [post]. *)
Inductive message :=
| Msg (s : string)
| MsgF (pre : string) (x : float) (post : string).

(** One element of a command line: a literal, [str(x)] of a float, or
    [str(p)] of a path. *)
Inductive arg :=
| AStr (s : string)
| AFloat (x : float)
| APath (p : Path).

(** What one [subprocess.run(cmd, capture_output=True, timeout=300)] of
    ffmpeg does: the exception it raises, if any (tool missing, time-out),
    and what it leaves in its output file, if anything.  A non-zero exit
    status raises nothing ([check] is not set). *)
Record ffmpeg_outcome := {
  ff_raises : option exn;
  ff_writes : option content;
}.

Record tools := {
  (** the exception [subprocess.run] of ffprobe raises, if any *)
  ffprobe_raises : option exn;
  ffmpeg : list arg -> ffmpeg_outcome;
}.

Record transcriber := {
  script_dir : Path;
  max_threads : Z;
  model_size : string;
  lang_code : string;
  cleanup : bool;
}.

(** [VideoTranscriber.__init__] *)
Definition VideoTranscriber (script_dir : Path) (max_threads : Z)
    (model_size lang_code : string) : transcriber :=
  {| script_dir := script_dir; max_threads := max_threads;
     model_size := model_size; lang_code := lang_code; cleanup := true |}.

Definition input_dir (t : transcriber) : Path := script_dir t /: "input".
Definition output_dir (t : transcriber) : Path := script_dir t /: "output".
Definition temp_dir (t : transcriber) : Path := script_dir t /: ".temp_chunks".
Definition num_chunk_threads (t : transcriber) : Z := max_threads t.

(** The names of the transient artifacts of chunk [i]. *)
Definition chunk_file (temp : Path) (i : Z) : Path :=
  temp /: ("chunk_" +:+ pretty i +:+ ".mp4").
Definition progress_file (temp : Path) (i : Z) : Path :=
  temp /: ("progress_chunk_" +:+ pretty i +:+ ".json").
Definition chunk_output_dir (temp : Path) (i : Z) : Path :=
  temp /: ("output_chunk_" +:+ pretty i).
Definition chunk_transcript (temp : Path) (i : Z) : Path :=
  chunk_output_dir temp i /: ("chunk_" +:+ pretty i +:+ ".txt").

(** [get_video_duration]: the duration ffprobe reports, or [None]. *)
Definition get_video_duration (tl : tools) (fs : filesystem) (video_path : Path)
  : option float * list message :=
  match ffprobe_raises tl with
  | Some e => (None, [Msg ("Error getting video duration: " +:+ exn_str e)])
  | None =>
      (match fs !! video_path with
       | Some (File (Media d)) => d
       | _ => None
       end, [])
  end.

(** [chunk_duration = duration / num_chunks] *)
Definition chunk_duration (duration : float) (num_chunks : Z) : result float :=
  truediv_float_int duration num_chunks.

(** The command line [create_chunk] builds for [chunk_index]. *)
Definition chunk_cmd (video_path temp : Path) (chunk_duration : float)
    (num_chunks chunk_index : Z) : result (list arg) :=
  start_time ← mul_int_float (chunk_index - 1) chunk_duration;
  let chunk_output := chunk_file temp chunk_index in
  if chunk_index =? num_chunks then
    (* Last chunk: no duration limit *)
    Ok [AStr "ffmpeg"; AStr "-i"; APath video_path;
        AStr "-ss"; AFloat start_time;
        AStr "-c"; AStr "copy"; AStr "-y";
        APath chunk_output]
  else
    Ok [AStr "ffmpeg"; AStr "-i"; APath video_path;
        AStr "-ss"; AFloat start_time;
        AStr "-t"; AFloat chunk_duration;
        AStr "-c"; AStr "copy"; AStr "-y";
        APath chunk_output].

(** The float that follows the option [flag] on a command line. *)
Fixpoint option_value (flag : string) (cmd : list arg) : option float :=
  match cmd with
  | AStr s :: ((AFloat x :: _) as rest) =>
      if String.eqb s flag then Some x else option_value flag rest
  | _ :: rest => option_value flag rest
  | [] => None
  end.

(** A chunk spec as the splitter tool receives it: the start offset ([-ss])
    and the duration ([-t]), [None] when the tool reads to end of stream. *)
Definition spec_start (cmd : list arg) : option float := option_value "-ss" cmd.
Definition spec_duration (cmd : list arg) : option float := option_value "-t" cmd.

(** The chunk plan of a job: the command lines of
    [create_chunk(i) for i in range(1, num_chunks + 1)]. *)
Definition chunk_plan (video_path temp : Path) (duration : float) (num_chunks : Z)
  : result (list (list arg)) :=
  cd ← chunk_duration duration num_chunks;
  mapR (chunk_cmd video_path temp cd num_chunks) (range 1 (num_chunks + 1)).

(** [create_chunk]: builds the command, runs ffmpeg, reports
    [(chunk_index, success, error)]. *)
Definition create_chunk (tl : tools) (video_path temp : Path) (chunk_duration : float)
    (num_chunks : Z) (fs : filesystem) (chunk_index : Z)
  : filesystem * result (Z * bool * option string) :=
  match chunk_cmd video_path temp chunk_duration num_chunks chunk_index with
  | Raise e => (fs, Raise e)
  | Ok cmd =>
      let o := ffmpeg tl cmd in
      let out := chunk_file temp chunk_index in
      let fs' :=
        match ff_writes o, fs !! out with
        | Some c, (None | Some (File _)) =>
            if is_dir fs (parent out) then <[out := File c]> fs else fs
        | _, _ => fs
        end in
      (fs', Ok match ff_raises o with
               | None => (chunk_index, true, None)
               | Some e => (chunk_index, false, Some (exn_str e))
               end)
  end.

(** ** The splitter *)

(** The [create_chunk] calls of the thread pool, in the order in which they
    finish.  Each leaves its chunk file; the list holds what
    [future.result()] yields for each, in that order. *)
Fixpoint run_create_chunks (tl : tools) (video_path temp : Path) (cd : float)
    (num_chunks : Z) (completion : list Z) (fs : filesystem)
  : filesystem * list (result (Z * bool * option string)) :=
  match completion with
  | [] => (fs, [])
  | i :: rest =>
      let '(fs1, r) := create_chunk tl video_path temp cd num_chunks fs i in
      let '(fs2, rs) := run_create_chunks tl video_path temp cd num_chunks rest fs1 in
      (fs2, r :: rs)
  end.

(** The loop over [as_completed(futures)]: [Ok true] when every chunk
    reported success, [Ok false] (with the error line) at the first that
    did not, and the exception of a call that raised. *)
Fixpoint collect_chunk_results (rs : list (result (Z * bool * option string)))
  : list message * result bool :=
  match rs with
  | [] => ([], Ok true)
  | Raise e :: _ => ([], Raise e)
  | Ok (chunk_num, success, error) :: rest =>
      if negb success then
        ([Msg ("Error creating chunk " +:+ pretty chunk_num +:+ ": "
               +:+ default "None" error)], Ok false)
      else collect_chunk_results rest
  end.

(** The verification loop: a chunk file that exists is probed and
    reported either way; a chunk file that is missing ends the split. *)
Fixpoint verify_chunks (tl : tools) (temp : Path) (fs : filesystem) (indices : list Z)
  : list message * bool :=
  match indices with
  | [] => ([], true)
  | i :: rest =>
      let chunk_file := chunk_file temp i in
      if exists_ fs chunk_file then
        let '(chunk_dur, err) := get_video_duration tl fs chunk_file in
        let line :=
          match chunk_dur with
          | Some d =>
              if float_truthy d
              then MsgF ("  ✓ Chunk " +:+ pretty i +:+ " created: ") d " seconds"
              else Msg ("  ✗ Chunk " +:+ pretty i +:+ " duration unknown")
          | None => Msg ("  ✗ Chunk " +:+ pretty i +:+ " duration unknown")
          end in
        let '(out, ok) := verify_chunks tl temp fs rest in
        (err ++ line :: out, ok)
      else
        ([Msg ("  ✗ Chunk " +:+ pretty i +:+ " missing!")], false)
  end.

Record split_outcome := {
  split_fs : filesystem;
  split_out : list message;
  split_result : result bool;
}.

(** [split_video_into_chunks].  [completion] is the order in which the
    [create_chunk] futures complete. *)
Definition split_video_into_chunks (tl : tools) (t : transcriber) (fs : filesystem)
    (video_path : Path) (num_chunks : Z) (completion : list Z) : split_outcome :=
  let '(duration, err) := get_video_duration tl fs video_path in
  match duration with
  | None =>
      {| split_fs := fs;
         split_out := err ++ [Msg "Error: Could not determine video duration. Make sure FFmpeg is installed."];
         split_result := Ok false |}
  | Some duration =>
      match chunk_duration duration num_chunks with
      | Raise e => {| split_fs := fs; split_out := err; split_result := Raise e |}
      | Ok cd =>
          let out1 := err ++ [MsgF "Video Duration: " duration " seconds";
                              MsgF "Chunk Duration: " cd " seconds"; Msg ""] in
          (* Clean and create temp directory *)
          match (if exists_ fs (temp_dir t) then rmtree fs (temp_dir t) else Ok fs) with
          | Raise e => {| split_fs := fs; split_out := out1; split_result := Raise e |}
          | Ok fs1 =>
              match mkdir_parents fs1 (temp_dir t) with
              | Raise e => {| split_fs := fs1; split_out := out1; split_result := Raise e |}
              | Ok fs2 =>
                  let out2 := out1 ++ [Msg ("Splitting video into " +:+ pretty num_chunks
                                            +:+ " chunks...")] in
                  if num_chunks <=? 0 then
                    {| split_fs := fs2; split_out := out2;
                       split_result :=
                         Raise (Exn "ValueError" "max_workers must be greater than 0") |}
                  else
                    let '(fs3, rs) :=
                      run_create_chunks tl video_path (temp_dir t) cd num_chunks completion
                        fs2 in
                    match collect_chunk_results rs with
                    | (out3, Ok true) =>
                        let '(out4, ok) :=
                          verify_chunks tl (temp_dir t) fs3 (range 1 (num_chunks + 1)) in
                        {| split_fs := fs3;
                           split_out :=
                             out2 ++ out3 ++ Msg "Verifying chunks..." :: out4
                             ++ (if ok then [Msg "✓ Video splitting complete"; Msg ""]
                                 else []);
                           split_result := Ok ok |}
                    | (out3, r) =>
                        {| split_fs := fs3; split_out := out2 ++ out3; split_result := r |}
                    end
              end
          end
      end
  end.

(** ** The chunk worker: [transcribe_chunk] *)

(** The characters [str.strip()] removes, by code point: those for which
    [str.isspace] holds (U+0009 to U+000D, U+001C to U+0020, U+0085,
    U+00A0, U+1680, U+2000 to U+200A, U+2028, U+2029, U+202F, U+205F and
    U+3000). *)
Definition whitespace_chars : list Z :=
  [9; 10; 11; 12; 13; 28; 29; 30; 31; 32; 133; 160; 5760;
   8192; 8193; 8194; 8195; 8196; 8197; 8198; 8199; 8200; 8201; 8202;
   8232; 8233; 8239; 8287; 12288].

Definition byte_of (n : Z) : Ascii.ascii := Ascii.ascii_of_N (Z.to_N n).

(** The UTF-8 encoding of a code point. *)
Definition utf8 (c : Z) : list Ascii.ascii :=
  if c <? 128 then [byte_of c]
  else if c <? 2048 then [byte_of (192 + c / 64); byte_of (128 + c mod 64)]
  else if c <? 65536 then
    [byte_of (224 + c / 4096); byte_of (128 + (c / 64) mod 64); byte_of (128 + c mod 64)]
  else
    [byte_of (240 + c / 262144); byte_of (128 + (c / 4096) mod 64);
     byte_of (128 + (c / 64) mod 64); byte_of (128 + c mod 64)].

Definition whitespace : list (list Ascii.ascii) := utf8 <$> whitespace_chars.

(** [l] without its prefix [w], if it has that prefix. *)
Fixpoint drop_prefix (w l : list Ascii.ascii) : option (list Ascii.ascii) :=
  match w, l with
  | [], _ => Some l
  | a :: w', b :: l' => if Ascii.eqb a b then drop_prefix w' l' else None
  | _ :: _, [] => None
  end.

(** [l] without the first of the [spaces] it starts with, if any. *)
Definition drop_space (spaces : list (list Ascii.ascii)) (l : list Ascii.ascii)
  : option (list Ascii.ascii) :=
  foldr (fun w r => match drop_prefix w l with
                    | Some l' => Some l'
                    | None => r
                    end) None spaces.

(** [l] without the [spaces] it starts with; each round removes one. *)
Fixpoint lstrip_from (spaces : list (list Ascii.ascii)) (rounds : nat)
    (l : list Ascii.ascii) : list Ascii.ascii :=
  match rounds with
  | O => l
  | S n =>
      match drop_space spaces l with
      | Some l' => lstrip_from spaces n l'
      | None => l
      end
  end.

Definition lstrip (s : string) : string :=
  let l := String.list_ascii_of_string s in
  String.string_of_list_ascii (lstrip_from whitespace (length l) l).

Definition rstrip (s : string) : string :=
  let l := reverse (String.list_ascii_of_string s) in
  String.string_of_list_ascii
    (reverse (lstrip_from (reverse <$> whitespace) (length l) l)).

(** [s.strip()] *)
Definition strip (s : string) : string := rstrip (lstrip s).

Definition newline : string := String (Ascii.ascii_of_nat 10) EmptyString.

(** A call Whisper makes on the progress bar it asks [tqdm] for. *)
Inductive hook_call :=
| TqdmInit (total : Z)
| TqdmUpdate (n : Z)
| TqdmClose.

(** What Whisper does in one worker process: whether [load_model] raises,
    the progress-bar calls [model.transcribe] makes before it returns or
    raises, the texts of the segments it returns, and how many lines the
    disk takes before a write raises ([None]: all of them). *)
Record whisper := {
  load_raises : option exn;
  transcribe_calls : list hook_call;
  transcribe_result : result (list string);
  write_budget : option nat;
}.

(** Where a worker is in [transcribe_chunk]: the statement it executes
    next. *)
Inductive wpc :=
| WStart                                  (* write_progress(0, 1, "starting") *)
| WGate                                   (* the gate's [while True] *)
| WLoading                                (* write_progress(0, 1, "loading_model") *)
| WLoadModel                              (* whisper.load_model(model_size) *)
| WModelLoaded                            (* write_progress(0, 1, "model_loaded") *)
| WTranscribe (bar : option (Z * Z)) (calls : list hook_call)
                                          (* inside model.transcribe; the bar's (n, total) *)
| WTranscribed (segments : list string)   (* write_progress(1, 1, "transcribed") *)
| WMkdir (segments : list string)         (* output_dir.mkdir(parents=True, exist_ok=True) *)
| WOpen (segments : list string)          (* open(output_file, 'w') *)
| WWrite (segments : list string)         (* the loop over the segments, then close *)
| WComplete                               (* write_progress(1, 1, "complete") *)
| WReturn (r : Z * bool * option string). (* the value of the future *)

Record worker := {
  w_chunk : Z;
  w_chunk_file : Path;
  w_output_dir : Path;
  w_temp_dir : option Path;
  w_engine : whisper;
  w_pc : wpc;
  (** a progress record whose file is open and truncated, not yet dumped *)
  w_pending : option jdict;
}.

Inductive event :=
| EvSpawn (chunk : Z)                      (* executor.submit(transcribe_chunk, chunk, ...) *)
| EvSleep (chunk : Z) (seconds : float)    (* time.sleep in the gate of the worker *)
| EvLoadModel (chunk : Z)                  (* the worker calls whisper.load_model *)
| EvResult (r : Z * bool * option string). (* the future of a worker completes *)

(** The float [0.5]. *)
Definition half : float := S754_finite false 4503599627370496 (-53).

(** [int((current / total * 100) if total > 0 else 0)] *)
Definition percent_of (current total : Z) : result Z :=
  if 0 <? total then
    q ← truediv_int_int current total;
    int_of_float (fmul q (nearest 100))
  else Ok 0.

Definition progress_data (chunk current total percent : Z) (status : string) : jdict :=
  [("chunk", JInt chunk); ("current", JInt current); ("total", JInt total);
   ("percent", JInt percent); ("status", JStr status)].

Definition w_progress_file (w : worker) : option Path :=
  temp ← w_temp_dir w; Some (progress_file temp (w_chunk w)).

Definition set_pc (w : worker) (pc : wpc) : worker :=
  {| w_chunk := w_chunk w; w_chunk_file := w_chunk_file w;
     w_output_dir := w_output_dir w; w_temp_dir := w_temp_dir w;
     w_engine := w_engine w; w_pc := pc; w_pending := w_pending w |}.

Definition set_pending (w : worker) (d : option jdict) : worker :=
  {| w_chunk := w_chunk w; w_chunk_file := w_chunk_file w;
     w_output_dir := w_output_dir w; w_temp_dir := w_temp_dir w;
     w_engine := w_engine w; w_pc := w_pc w; w_pending := d |}.

(** The [except Exception as e] of [transcribe_chunk]. *)
Definition fail (w : worker) (e : exn) : worker :=
  set_pc w (WReturn (w_chunk w, false, Some (exn_str e))).

(** The common part of [write_progress] and
    [TqdmProgressCapture._write_progress]: computes the record, opens the
    progress file (an exception there is swallowed) and goes on to [next];
    the record reaches the file at the worker's next step. *)
Definition write_progress (w : worker) (fs : filesystem)
    (current total : Z) (status : string) (next : wpc) : filesystem * worker :=
  match w_progress_file w with
  | None => (fs, set_pc w next)
  | Some pf =>
      match percent_of current total with
      | Raise e => (fs, fail w e)
      | Ok p =>
          match open_w fs pf with
          | Raise _ => (fs, set_pc w next)
          | Ok fs' =>
              (fs', set_pending (set_pc w next)
                      (Some (progress_data (w_chunk w) current total p status)))
          end
      end
  end.

(** What the gate reads in the record of the previous chunk. *)
Definition gate_open (fs : filesystem) (previous_chunk_progress : Path) : bool :=
  if exists_ fs previous_chunk_progress then
    match json_load fs previous_chunk_progress with
    | Ok prev_data =>
        match dict_get prev_data "percent" (JInt 0) with
        | JInt prev_percent => 2 <=? prev_percent
        | JStr _ => false          (* TypeError, swallowed *)
        end
    | Raise _ => false
    end
  else false.

(** The text the loop over the segments writes. *)
Definition fragment_lines (segments : list string) : list string :=
  filter (fun text => text ≠ "") (strip <$> segments).

Definition fragment_text (lines : list string) : string :=
  foldr (fun text acc => text +:+ newline +:+ acc) "" lines.

Definition ENOSPC : exn := Exn "OSError" "[Errno 28] No space left on device".

(** [TqdmProgressCapture._write_progress] for a bar at [(n, total)]. *)
Definition tqdm_write_progress (w : worker) (fs : filesystem) (n total : Z)
    (next : wpc) : filesystem * worker :=
  if total =? 0 then (fs, set_pc w next)
  else write_progress w fs n total "transcribing" next.

(** A worker has returned: the future has its value. *)
Definition finished (w : worker) : bool :=
  match w_pc w, w_pending w with
  | WReturn _, None => true
  | _, _ => false
  end.

(** One step of a worker on the shared filesystem. *)
Definition worker_step (fs : filesystem) (w : worker)
  : filesystem * worker * list event :=
  match w_pending w with
  | Some d =>
      (* json.dump(progress_data, f) and the end of the [with] *)
      (match w_progress_file w with
       | Some pf => flush fs pf (Json d)
       | None => fs
       end, set_pending w None, [])
  | None =>
      match w_pc w with
      | WStart =>
          let next :=
            if (1 <? w_chunk w) && bool_decide (is_Some (w_temp_dir w))
            then WGate else WLoading in
          (write_progress w fs 0 1 "starting" next, [])
      | WGate =>
          match w_temp_dir w with
          | Some temp =>
              if gate_open fs (progress_file temp (w_chunk w - 1))
              then (fs, set_pc w WLoading, [])
              else (fs, w, [EvSleep (w_chunk w) half])
          | None => (fs, set_pc w WLoading, [])
          end
      | WLoading => (write_progress w fs 0 1 "loading_model" WLoadModel, [])
      | WLoadModel =>
          (fs,
           match load_raises (w_engine w) with
           | Some e => fail w e
           | None => set_pc w WModelLoaded
           end, [EvLoadModel (w_chunk w)])
      | WModelLoaded =>
          (write_progress w fs 0 1 "model_loaded"
             (WTranscribe None (transcribe_calls (w_engine w))), [])
      | WTranscribe bar calls =>
          match calls, bar with
          | [], _ =>
              (fs,
               match transcribe_result (w_engine w) with
               | Raise e => fail w e
               | Ok segments => set_pc w (WTranscribed segments)
               end, [])
          | TqdmInit total :: calls', _ =>
              (tqdm_write_progress w fs 0 total (WTranscribe (Some (0, total)) calls'), [])
          | TqdmUpdate k :: calls', Some (n, total) =>
              let n' := if total =? 0 then n + k else Z.min (n + k) total in
              (tqdm_write_progress w fs n' total (WTranscribe (Some (n', total)) calls'), [])
          | TqdmClose :: calls', Some (n, total) =>
              (tqdm_write_progress w fs n total (WTranscribe bar calls'), [])
          | _ :: calls', None => (fs, set_pc w (WTranscribe bar calls'), [])
          end
      | WTranscribed segments =>
          (write_progress w fs 1 1 "transcribed" (WMkdir segments), [])
      | WMkdir segments =>
          match mkdir_parents fs (w_output_dir w) with
          | Raise e => (fs, fail w e, [])
          | Ok fs' => (fs', set_pc w (WOpen segments), [])
          end
      | WOpen segments =>
          match open_w fs (w_output_dir w /: ("chunk_" +:+ pretty (w_chunk w) +:+ ".txt")) with
          | Raise e => (fs, fail w e, [])
          | Ok fs' => (fs', set_pc w (WWrite segments), [])
          end
      | WWrite segments =>
          let output_file := w_output_dir w /: ("chunk_" +:+ pretty (w_chunk w) +:+ ".txt") in
          let lines := fragment_lines segments in
          match write_budget (w_engine w) with
          | Some k =>
              if (k <? length lines)%nat then
                (flush fs output_file (Text (fragment_text (take k lines))),
                 fail w ENOSPC, [])
              else
                (flush fs output_file (Text (fragment_text lines)), set_pc w WComplete, [])
          | None =>
              (flush fs output_file (Text (fragment_text lines)), set_pc w WComplete, [])
          end
      | WComplete =>
          (write_progress w fs 1 1 "complete" (WReturn (w_chunk w, true, None)), [])
      | WReturn _ => (fs, w, [])
      end
  end.

(** ** The process pool of one job *)

Record pool := {
  p_fs : filesystem;
  p_workers : list worker;
  p_log : list event;
}.

(** The worker process of chunk [i] takes a step (chunk [i] is at position
    [i - 1]); the future completes when the worker has returned. *)
Definition pool_step (st : pool) (i : Z) : pool :=
  if i <? 1 then st else
  match p_workers st !! Z.to_nat (i - 1) with
  | None => st
  | Some w =>
      if finished w then st else
      let '(fs', w', evs) := worker_step (p_fs st) w in
      {| p_fs := fs';
         p_workers := <[Z.to_nat (i - 1) := w']> (p_workers st);
         p_log := p_log st ++ evs
                  ++ (if finished w' then
                        match w_pc w' with WReturn r => [EvResult r] | _ => [] end
                      else []) |}
  end.

(** A schedule names, step by step, the worker that runs. *)
Definition pool_run (st : pool) (sched : list Z) : pool := foldl pool_step st sched.

Definition pool_done (st : pool) : bool := forallb finished (p_workers st).

(** The worker [executor.submit(transcribe_chunk, i, chunk_file, output_dir,
    model_size, lang_code, temp_dir)] starts. *)
Definition spawn (temp : Path) (engine : Z -> whisper) (i : Z) : worker :=
  {| w_chunk := i;
     w_chunk_file := chunk_file temp i;
     w_output_dir := chunk_output_dir temp i;
     w_temp_dir := Some temp;
     w_engine := engine i;
     w_pc := WStart;
     w_pending := None |}.

Definition spawn_all (temp : Path) (engine : Z -> whisper) (num_chunks : Z)
    (fs : filesystem) : pool :=
  {| p_fs := fs;
     p_workers := spawn temp engine <$> range 1 (num_chunks + 1);
     p_log := EvSpawn <$> range 1 (num_chunks + 1) |}.

(** ** The progress monitor: [monitor_progress] *)

Record monitor := {
  last_percent : gmap Z Z;
  (** [progress_bars[i].n]: what the bar of chunk [i] displays, out of 100 *)
  progress_bars : gmap Z Z;
}.

(** The state before the first poll: bars at 0, [last_percent] at 0. *)
Definition monitor_init (num_chunks : Z) : monitor :=
  {| last_percent := list_to_map ((fun i => (i, 0)) <$> range 1 (num_chunks + 1));
     progress_bars := list_to_map ((fun i => (i, 0)) <$> range 1 (num_chunks + 1)) |}.

Definition displayed (m : monitor) (i : Z) : Z := default 0 (progress_bars m !! i).

(** The body of the [for] of one poll, for chunk [i], on the filesystem as
    it is when the monitor reads that chunk's record. *)
Definition monitor_read (temp : Path) (fs : filesystem) (i : Z)
    (m : monitor) (all_done : bool) : monitor * bool :=
  let progress_file := progress_file temp i in
  if exists_ fs progress_file then
    match json_load fs progress_file with
    | Ok data =>
        let percent := dict_get data "percent" (JInt 0) in
        let status := dict_get data "status" (JStr "running") in
        match percent with
        | JInt percent =>
            let last := default 0 (last_percent m !! i) in
            let m' :=
              if last <? percent then
                let delta := percent - last in
                {| last_percent := <[i := percent]> (last_percent m);
                   progress_bars := <[i := displayed m i + delta]> (progress_bars m) |}
              else m in
            (m', match status with
                 | JStr "complete" => all_done
                 | _ => false
                 end)
        | JStr _ => (m, all_done)       (* TypeError, swallowed with the rest of the body *)
        end
    | Raise _ => (m, all_done)          (* except: pass *)
    end
  else (m, false).

(** One poll: the filesystem as the monitor finds it when it reads the
    record of each chunk, and whether [stop_monitor] is set when the poll
    ends. *)
Record poll := {
  snapshot : Z -> filesystem;
  stop_is_set : bool;
}.

(** One iteration of the [while True]: the new state, and whether the loop
    breaks. *)
Definition monitor_iteration (temp : Path) (num_chunks : Z) (m : monitor) (pl : poll)
  : monitor * bool :=
  let '(m', all_done) :=
    foldl (fun '(m, all_done) i => monitor_read temp (snapshot pl i) i m all_done)
          (m, true) (range 1 (num_chunks + 1)) in
  (* Exit only when stop_monitor is set AND all chunks are complete *)
  (m', stop_is_set pl && all_done).

(** The loop over as many polls as are given: the states after each
    iteration, and whether the loop has broken. *)
Fixpoint monitor_loop (temp : Path) (num_chunks : Z) (m : monitor) (polls : list poll)
  : list monitor * bool :=
  match polls with
  | [] => ([], false)
  | pl :: rest =>
      let '(m', exit) := monitor_iteration temp num_chunks m pl in
      if exit then ([m'], true)
      else let '(ms, exited) := monitor_loop temp num_chunks m' rest in
           (m' :: ms, exited)
  end.

Definition monitor_progress (temp : Path) (num_chunks : Z) (polls : list poll)
  : list monitor * bool :=
  monitor_loop temp num_chunks (monitor_init num_chunks) polls.

(** ** One job: [process_video] *)

Definition DOT : Ascii.ascii := Ascii.ascii_of_nat 46.

(** [video_path.name] and [video_path.stem] *)
Definition path_name (p : Path) : string := List.last p "".

Fixpoint after_last_dot (r : list Ascii.ascii) : option (list Ascii.ascii) :=
  match r with
  | [] => None
  | c :: r' => if Ascii.eqb c DOT then Some r' else after_last_dot r'
  end.

Definition name_stem (name : string) : string :=
  let r := rev (String.list_ascii_of_string name) in
  match r with
  | [] => name
  | c :: _ =>
      if Ascii.eqb c DOT then name
      else match after_last_dot r with
           | Some ((_ :: _) as pre) => String.string_of_list_ascii (rev pre)
           | _ => name
           end
  end.

Definition path_stem (p : Path) : string := name_stem (path_name p).

(** [str(p)] *)
Definition path_str (p : Path) : string :=
  foldr (fun name acc => "/" +:+ name +:+ acc) "" p.

Definition upper_char (c : Ascii.ascii) : Ascii.ascii :=
  let n := Ascii.nat_of_ascii c in
  if ((97 <=? n)%nat && (n <=? 122)%nat) then Ascii.ascii_of_nat (n - 32) else c.

Fixpoint upper (s : string) : string :=
  match s with
  | EmptyString => EmptyString
  | String c s' => String (upper_char c) (upper s')
  end.

(** [self.language] *)
Definition language (t : transcriber) : string :=
  match lang_code t with
  | "en" => "English"
  | "hi" => "Hindi"
  | "auto" => "Auto-detect"
  | code => upper code
  end.

Definition rule50 : string := "==================================================".

(** [results[chunk_num] = (success, error)]: a dict, in insertion order. *)
Fixpoint dict_set {V} (d : list (Z * V)) (k : Z) (v : V) : list (Z * V) :=
  match d with
  | [] => [(k, v)]
  | (k', v') :: d' => if k' =? k then (k, v) :: d' else (k', v') :: dict_set d' k v
  end.

Definition collect_results (arrived : list (Z * bool * option string))
  : list (Z * (bool * option string)) :=
  foldl (fun results '(chunk_num, success, error) =>
           dict_set results chunk_num (success, error)) [] arrived.

(** The results of the futures in the order [as_completed] yields them. *)
Definition arrivals (log : list event) : list (Z * bool * option string) :=
  omap (fun ev => match ev with EvResult r => Some r | _ => None end) log.

Definition final_transcript (t : transcriber) (video_path : Path) : Path :=
  output_dir t /: (path_stem video_path +:+ ".txt").

(** The loop that combines the transcripts: what is written to the final
    transcript, the warnings printed, and the exception that ends the
    loop, if any. *)
Fixpoint combine_transcripts (temp : Path) (fs : filesystem) (indices : list Z)
  : string * list message * option exn :=
  match indices with
  | [] => ("", [], None)
  | i :: rest =>
      let chunk_transcript := chunk_transcript temp i in
      if exists_ fs chunk_transcript then
        match read_text fs chunk_transcript with
        | Raise e => ("", [], Some e)
        | Ok text =>
            let '(written, out, r) := combine_transcripts temp fs rest in
            (text +:+ written, out, r)
        end
      else
        let '(written, out, r) := combine_transcripts temp fs rest in
        (written,
         Msg ("Warning: Transcript for chunk " +:+ pretty i +:+ " not found") :: out, r)
  end.

Inductive pv_status :=
| PVReturned (b : bool)
| PVRaised (e : exn)
| PVWaiting.        (* still in the loop over [as_completed(futures)] *)

Record pv_outcome := {
  pv_fs : filesystem;
  pv_out : list message;
  pv_log : list event;
  pv_status_of : pv_status;
}.

(** The lines printed for the chunks that failed, if any. *)
Definition report_failed (results : list (Z * (bool * option string))) : list message :=
  let failed := filter (fun '(n, (s, e)) => s = false) results in
  match failed with
  | [] => []
  | _ => [Msg ""; Msg "⚠️  Some chunks failed:"]
         ++ ((fun '(chunk_num, (_, error)) =>
                Msg ("  Chunk " +:+ pretty chunk_num +:+ ": " +:+ default "None" error))
             <$> failed)
         ++ [Msg ""]
  end.

(** The final step: the temporary directory is removed, or kept and
    pointed at; the exception [rmtree] raises, if any. *)
Definition cleanup_temp (t : transcriber) (fs : filesystem)
  : filesystem * list message * option exn :=
  if cleanup t then
    match (if exists_ fs (temp_dir t) then rmtree fs (temp_dir t) else Ok fs) with
    | Ok fs' =>
        (fs', [Msg "Cleaning up temporary chunks..."; Msg "✓ Cleanup complete"; Msg ""],
         None)
    | Raise e => (fs, [Msg "Cleaning up temporary chunks..."], Some e)
    end
  else
    (fs,
     [Msg ("Note: Temporary chunks saved in: " +:+ path_str (temp_dir t));
      Msg ("To clean up later, run: rm -rf " +:+ dquote
           +:+ path_str (temp_dir t) +:+ dquote); Msg ""], None).

(** [process_video] from the point where every future has completed:
    the failed chunks are listed, the transcripts combined, the temporary
    directory cleaned up. *)
Definition finish_video (t : transcriber) (fs : filesystem) (video_path : Path)
    (num_chunks : Z) (arrived : list (Z * bool * option string))
  : filesystem * list message * pv_status :=
  let results := collect_results arrived in
  (* Check for errors *)
  let out1 := report_failed results ++ [Msg ""; Msg "Combining transcripts..."] in
  (* Combine transcripts *)
  let final_transcript := final_transcript t video_path in
  match open_w fs final_transcript with
  | Raise e => (fs, out1, PVRaised e)
  | Ok fs1 =>
      let '(written, warnings, r) :=
        combine_transcripts (temp_dir t) fs1 (range 1 (num_chunks + 1)) in
      let fs2 := flush fs1 final_transcript (Text written) in
      match r with
      | Some e => (fs2, out1 ++ warnings, PVRaised e)
      | None =>
          let out2 := out1 ++ warnings
                      ++ [Msg "✓ Transcription complete!";
                          Msg ("Output: " +:+ path_str final_transcript); Msg ""] in
          (* Cleanup *)
          let '(fs3, out3, r) := cleanup_temp t fs2 in
          (fs3, out2 ++ out3,
           match r with
           | None => PVReturned true
           | Some e => PVRaised e
           end)
      end
  end.

(** [process_video] up to the point where it waits for its futures: the
    job is over (the split failed or raised), or its workers have been
    submitted. *)
Inductive started :=
| Over (fs : filesystem) (out : list message) (s : pv_status)
| Submitted (p : pool) (out : list message).

(** [completion] is the order in which the splitter's futures complete. *)
Definition begin_video (tl : tools) (engine : Z -> whisper) (t : transcriber)
    (fs : filesystem) (video_path : Path) (current total : Z)
    (completion : list Z) : started :=
  let video_name := path_name video_path in
  let num_chunks := num_chunk_threads t in
  let out0 :=
    [Msg rule50;
     Msg ("File " +:+ pretty current +:+ "/" +:+ pretty total +:+ ": " +:+ video_name);
     Msg ("Language: " +:+ language t);
     Msg ("Processing with " +:+ pretty num_chunks +:+ " parallel jobs");
     Msg rule50; Msg ""] in
  (* Split video *)
  let sp := split_video_into_chunks tl t fs video_path num_chunks completion in
  match split_result sp with
  | Raise e => Over (split_fs sp) (out0 ++ split_out sp) (PVRaised e)
  | Ok false =>
      Over (split_fs sp)
           (out0 ++ split_out sp ++ [Msg ("Failed to split video: " +:+ video_name)])
           (PVReturned false)
  | Ok true =>
      (* Transcribe chunks in parallel *)
      Submitted (spawn_all (temp_dir t) engine num_chunks (split_fs sp))
                (out0 ++ split_out sp
                 ++ [Msg ("Starting parallel transcription of " +:+ pretty num_chunks
                          +:+ " chunks..."); Msg ""])
  end.

(** [process_video] in a run in which no [KeyboardInterrupt] is raised
    while it waits for its workers, in its own thread or in a worker.
    [sched] is the schedule of the worker processes while the job waits
    for them; the job is still waiting if they have not all returned by
    its end. *)
Definition process_video (tl : tools) (engine : Z -> whisper) (t : transcriber)
    (fs : filesystem) (video_path : Path) (current total : Z)
    (completion : list Z) (sched : list Z) : pv_outcome :=
  match begin_video tl engine t fs video_path current total completion with
  | Over fs' out status =>
      {| pv_fs := fs'; pv_out := out; pv_log := []; pv_status_of := status |}
  | Submitted p out1 =>
      let st := pool_run p sched in
      if pool_done st then
        let '(fs', out2, status) :=
          finish_video t (p_fs st) video_path (num_chunk_threads t) (arrivals (p_log st)) in
        {| pv_fs := fs'; pv_out := out1 ++ out2; pv_log := p_log st;
           pv_status_of := status |}
      else
        {| pv_fs := p_fs st; pv_out := out1; pv_log := p_log st;
           pv_status_of := PVWaiting |}
  end.

(** The workers of a pool have ended: each has returned, or is one of
    the [killed], in which [KeyboardInterrupt] was raised and left
    [transcribe_chunk]. *)
Definition pool_ended (killed : list Z) (st : pool) : bool :=
  forallb (fun w => finished w || bool_decide (w_chunk w ∈ killed)) (p_workers st).

(** [process_video] in a run in which [KeyboardInterrupt] reaches its
    [except KeyboardInterrupt] clause while it waits for its futures,
    after the workers have run [before]: it is raised in the thread of
    [process_video] itself, or in the worker processes [killed], whose
    futures pass it on to [future.result()].  The handler removes the
    temporary directory; the [finally] clause then waits for the workers
    that are still running (there are as many processes as chunks, so
    none is cancelled), which go on as [after] says; then [False] is
    returned. *)
Definition process_video_interrupted (tl : tools) (engine : Z -> whisper)
    (t : transcriber) (fs : filesystem) (video_path : Path) (current total : Z)
    (completion : list Z) (before killed after : list Z) : pv_outcome :=
  match begin_video tl engine t fs video_path current total completion with
  | Over fs' out status =>
      {| pv_fs := fs'; pv_out := out; pv_log := []; pv_status_of := status |}
  | Submitted p out1 =>
      let st1 := pool_run p before in
      let out2 := [Msg ""; Msg ""; Msg "⚠️  Transcription interrupted by user (Ctrl+C)";
                   Msg "Cleaning up processes..."] in
      (* Clean up temp chunks directory *)
      let '(fs2, out3, r) :=
        if exists_ (p_fs st1) (temp_dir t) then
          match rmtree (p_fs st1) (temp_dir t) with
          | Ok fs' => (fs', [Msg "Removing temporary files..."; Msg "✓ Cleanup complete"],
                       None)
          | Raise e => (p_fs st1, [Msg "Removing temporary files..."], Some e)
          end
        else (p_fs st1, [Msg "✓ Cleanup complete"], None) in
      let st2 := pool_run {| p_fs := fs2; p_workers := p_workers st1;
                             p_log := p_log st1 |}
                          (filter (fun i => i ∉ killed) after) in
      {| pv_fs := p_fs st2;
         pv_out := out1 ++ out2 ++ out3;
         pv_log := p_log st2;
         pv_status_of :=
           if pool_ended killed st2 then
             match r with
             | None => PVReturned false
             | Some e => PVRaised e
             end
           else PVWaiting |}
  end.

(** ** All jobs: [run] *)

(** [sorted(self.input_dir.glob("*.mp4"))] *)
Fixpoint ends_with_rev (suffix_rev name_rev : list Ascii.ascii) : bool :=
  match suffix_rev, name_rev with
  | [], _ => true
  | c :: s', d :: n' => Ascii.eqb c d && ends_with_rev s' n'
  | _ :: _, [] => false
  end.

Definition ends_with (suffix name : string) : bool :=
  ends_with_rev (rev (String.list_ascii_of_string suffix))
                (rev (String.list_ascii_of_string name)).

Definition glob_mp4 (fs : filesystem) (dir : Path) : list Path :=
  filter (fun p => parent p = dir ∧ p ≠ [] ∧ ends_with ".mp4" (path_name p) = true)
         (fst <$> map_to_list fs).

Definition name_le (p q : Path) : Prop :=
  String.leb (path_name p) (path_name q) = true.

#[global] Instance name_le_dec p q : Decision (name_le p q).
Proof. unfold name_le. apply _. Defined.

Definition sorted_paths (l : list Path) : list Path := merge_sort name_le l.

(** Where a job is: not yet taken by a thread of the executor; in
    [process_video] before the split; waiting for its chunk workers; or
    over. *)
Inductive phase :=
| Queued
| Splitting
| Transcribing (workers : list worker) (log : list event)
| Finished (s : pv_status).

Record job := {
  j_video : Path;
  j_current : Z;
  j_phase : phase;
}.

Record run_state := {
  r_fs : filesystem;
  r_jobs : list job;
  r_out : list message;
}.

Definition in_flight (j : job) : bool :=
  match j_phase j with
  | Splitting | Transcribing _ _ => true
  | _ => false
  end.

Definition queued (j : job) : bool :=
  match j_phase j with
  | Queued => true
  | _ => false
  end.

Definition set_phase (j : job) (ph : phase) : job :=
  {| j_video := j_video j; j_current := j_current j; j_phase := ph |}.

(** A step of the run: a thread of the executor takes the job at the head
    of the queue; the thread of job [j] runs [process_video] up to the
    point where it waits for its workers, or from there to the end once
    they have all returned; the worker of chunk [i] of job [j] takes a
    step. Jobs are numbered from 1, as [enumerate(video_files, 1)] does. *)
Inductive sched_item :=
| Start (j : Z)
| Main (j : Z) (completion : list Z)
| Work (j : Z) (i : Z).

Definition job_at (st : run_state) (j : Z) : option job :=
  if j <? 1 then None else r_jobs st !! Z.to_nat (j - 1).

Definition set_job (st : run_state) (j : Z) (jb : job) (fs : filesystem)
    (out : list message) : run_state :=
  {| r_fs := fs;
     r_jobs := <[Z.to_nat (j - 1) := jb]> (r_jobs st);
     r_out := r_out st ++ out |}.

Definition run_step (tl : tools) (engine : Path -> Z -> whisper) (t : transcriber)
    (st : run_state) (it : sched_item) : run_state :=
  match it with
  | Start j =>
      match job_at st j with
      | Some jb =>
          if queued jb
             && forallb (fun jb' => negb (queued jb')) (take (Z.to_nat (j - 1)) (r_jobs st))
             && (Z.of_nat (length (filter (fun jb' => in_flight jb' = true) (r_jobs st)))
                 <? max_threads t)
          then set_job st j (set_phase jb Splitting) (r_fs st) []
          else st
      | None => st
      end
  | Main j completion =>
      match job_at st j with
      | Some jb =>
          let num_chunks := num_chunk_threads t in
          match j_phase jb with
          | Splitting =>
              match begin_video tl (engine (j_video jb)) t (r_fs st) (j_video jb)
                      (j_current jb) (Z.of_nat (length (r_jobs st))) completion with
              | Over fs' out status =>
                  set_job st j (set_phase jb (Finished status)) fs'
                    (out ++ match status with
                            | PVRaised e =>
                                [Msg ("Error processing video " +:+ pretty j +:+ ": "
                                      +:+ exn_str e)]
                            | _ => []
                            end)
              | Submitted p out =>
                  set_job st j (set_phase jb (Transcribing (p_workers p) (p_log p)))
                    (p_fs p) out
              end
          | Transcribing workers log =>
              if forallb finished workers then
                let '(fs', out, status) :=
                  finish_video t (r_fs st) (j_video jb) num_chunks (arrivals log) in
                set_job st j (set_phase jb (Finished status)) fs'
                  (out ++ match status with
                          | PVRaised e =>
                              [Msg ("Error processing video " +:+ pretty j +:+ ": "
                                    +:+ exn_str e)]
                          | _ => []
                          end)
              else st
          | _ => st
          end
      | None => st
      end
  | Work j i =>
      match job_at st j with
      | Some jb =>
          match j_phase jb with
          | Transcribing workers log =>
              let p := pool_step {| p_fs := r_fs st; p_workers := workers; p_log := log |} i in
              set_job st j (set_phase jb (Transcribing (p_workers p) (p_log p))) (p_fs p) []
          | _ => st
          end
      | None => st
      end
  end.

(** [run] up to the point where the jobs have been submitted: the videos
    found, in sorted order, are queued.  With no video, or with an executor
    that cannot be built, there is no job. *)
Definition run_submit (t : transcriber) (fs : filesystem) : result run_state :=
  let out0 :=
    [Msg rule50; Msg "Parallel Transcription Script (Python)";
     Msg ("Background Threads: " +:+ pretty (max_threads t));
     Msg ("Whisper Model: " +:+ model_size t);
     Msg ("Language: " +:+ language t);
     Msg rule50; Msg ""; Msg "Cleanup: Auto-cleanup enabled"; Msg ""] in
  (* Find video files *)
  let video_files := sorted_paths (glob_mp4 fs (input_dir t)) in
  match video_files with
  | [] =>
      Ok {| r_fs := fs; r_jobs := [];
            r_out := out0 ++ [Msg ("No video files found in " +:+ path_str (input_dir t))] |}
  | _ =>
      if max_threads t <=? 0 then
        Raise (Exn "ValueError" "max_workers must be greater than 0")
      else
        Ok {| r_fs := fs;
              r_jobs := (fun '(k, video_path) =>
                           {| j_video := video_path; j_current := Z.of_nat k + 1;
                              j_phase := Queued |})
                        <$> imap (fun k v => (k, v)) video_files;
              r_out := out0
                       ++ [Msg ("Found " +:+ pretty (Z.of_nat (length video_files))
                                +:+ " video files");
                           Msg ("Starting background transcription ("
                                +:+ pretty (max_threads t) +:+ " thread"
                                +:+ (if 1 <? max_threads t then "s" else "") +:+ ")...");
                           Msg ""] |}
  end.

Definition run_from (tl : tools) (engine : Path -> Z -> whisper) (t : transcriber)
    (st : run_state) (sched : list sched_item) : run_state :=
  foldl (run_step tl engine t) st sched.

(** The transient locations a job uses for chunk [i]: the chunk file, the
    progress record, the fragment. *)
Definition job_locations (t : transcriber) (video_path : Path) (i : Z) : list Path :=
  [chunk_file (temp_dir t) i; progress_file (temp_dir t) i;
   chunk_transcript (temp_dir t) i].

(** ** Scenarios *)

(** An installation with one 300-second video, as [__init__] leaves it:
    the output directory exists. *)
Definition demo_dir : Path := ["srv"; "fastscribe"].
Definition demo_video : Path := demo_dir /: "input" /: "talk.mp4".

Definition demo_fs : filesystem :=
  <[demo_video := File (Media (Some (nearest 300)))]>
  (<[demo_dir /: "input" := Dir]>
   (<[demo_dir /: "output" := Dir]>
    (<[demo_dir := Dir]> (<[["srv"] := Dir]> ∅)))).

(** ffprobe and ffmpeg work; every chunk ffmpeg cuts is 100 seconds long. *)
Definition tools_ok : tools :=
  {| ffprobe_raises := None;
     ffmpeg := fun _ =>
       {| ff_raises := None; ff_writes := Some (Media (Some (nearest 100))) |} |}.

(** Whisper transcribes a chunk in two progress updates and returns two
    segments. *)
Definition whisper_ok : whisper :=
  {| load_raises := None;
     transcribe_calls := [TqdmInit 10; TqdmUpdate 5; TqdmUpdate 5; TqdmClose];
     transcribe_result := Ok [" hello "; "world"];
     write_budget := None |}.

(** [load_model] raises. *)
Definition whisper_no_model : whisper :=
  {| load_raises := Some (Exn "RuntimeError" "out of memory");
     transcribe_calls := [];
     transcribe_result := Ok [];
     write_budget := None |}.

(** The disk is full when the fragment is written. *)
Definition whisper_disk_full : whisper :=
  {| load_raises := None;
     transcribe_calls := [TqdmInit 10; TqdmUpdate 10; TqdmClose];
     transcribe_result := Ok ["hello"];
     write_budget := Some 0%nat |}.

(** A round-robin schedule of [rounds] rounds over the workers [1..n]. *)
Definition round_robin (n : Z) (rounds : nat) : list Z :=
  mjoin (replicate rounds (range 1 (n + 1))).

(** Two chunks per job, and two jobs in flight. *)
Definition two_chunks : transcriber := VideoTranscriber demo_dir 2 "base" "en".

(** ffmpeg leaves nothing for the last chunk (the one without [-t]). *)
Definition tools_last_chunk_missing : tools :=
  {| ffprobe_raises := None;
     ffmpeg := fun cmd =>
       {| ff_raises := None;
          ff_writes := match spec_duration cmd with
                       | Some _ => Some (Media (Some (nearest 150)))
                       | None => None
                       end |} |}.

(** ffmpeg leaves empty chunk files: ffprobe finds a duration of 0. *)
Definition tools_empty_chunks : tools :=
  {| ffprobe_raises := None;
     ffmpeg := fun _ => {| ff_raises := None; ff_writes := Some (Media (Some fzero)) |} |}.

(** [load_model] raises in the worker of chunk 1. *)
Definition first_model_fails (i : Z) : whisper :=
  if i =? 1 then whisper_no_model else whisper_ok.

(** The states of the monitor over time: before the first poll, then after
    each iteration of the loop. *)
Definition monitor_trace (temp : Path) (num_chunks : Z) (polls : list poll) : list monitor :=
  monitor_init num_chunks :: (monitor_progress temp num_chunks polls).1.

(** A poll in which every record that exists can be read, with an integer
    [percent]. *)
Definition readable (temp : Path) (num_chunks : Z) (pl : poll) : Prop :=
  forall i, 1 <= i <= num_chunks ->
    exists_ (snapshot pl i) (progress_file temp i) = true ->
    exists d p, json_load (snapshot pl i) (progress_file temp i) = Ok d
                /\ dict_get d "percent" (JInt 0) = JInt p.

(** A poll finds the record of chunk [i] with status [complete]. *)
Definition complete_in (temp : Path) (pl : poll) (i : Z) : Prop :=
  exists d, json_load (snapshot pl i) (progress_file temp i) = Ok d
            /\ dict_get d "status" (JStr "running") = JStr "complete".

(** A poll that finds the same filesystem for every chunk. *)
Definition poll_of (fs : filesystem) (stop : bool) : poll :=
  {| snapshot := fun _ => fs; stop_is_set := stop |}.

(** One chunk per job; the filesystem once the split of [demo_video] into
    one chunk has succeeded; the pool of a job whose only worker finds the
    disk full when it writes its fragment. *)
Definition one_chunk : transcriber := VideoTranscriber demo_dir 1 "base" "en".

Definition demo_split_fs : filesystem :=
  split_fs (split_video_into_chunks tools_ok one_chunk demo_fs demo_video 1 [1]).

Definition disk_full_pool : pool :=
  spawn_all (temp_dir one_chunk) (fun _ => whisper_disk_full) 1 demo_split_fs.

(** The pool of a job whose only worker cannot load the model. *)
Definition no_model_pool : pool :=
  spawn_all (temp_dir one_chunk) (fun _ => whisper_no_model) 1 demo_split_fs.

(** The pool of a job of two chunks whose workers both succeed, and the
    filesystem they leave once both have returned. *)
Definition demo_split_fs2 : filesystem :=
  split_fs (split_video_into_chunks tools_ok two_chunks demo_fs demo_video 2 [2; 1]).

Definition ok_pool : pool :=
  spawn_all (temp_dir two_chunks) (fun _ => whisper_ok) 2 demo_split_fs2.

Definition transcribed_fs : filesystem := p_fs (pool_run ok_pool (round_robin 2 40)).

(** Two videos to transcribe, two threads.  ffmpeg cuts 11-second chunks
    from [a.mp4] and 22-second chunks from [b.mp4]. *)
Definition video_a : Path := demo_dir /: "input" /: "a.mp4".
Definition video_b : Path := demo_dir /: "input" /: "b.mp4".

Definition two_videos_fs : filesystem :=
  <[video_a := File (Media (Some (nearest 60)))]>
  (<[video_b := File (Media (Some (nearest 90)))]>
   (<[demo_dir /: "input" := Dir]>
    (<[demo_dir /: "output" := Dir]>
     (<[demo_dir := Dir]> (<[["srv"] := Dir]> ∅))))).

Definition tools_by_source : tools :=
  {| ffprobe_raises := None;
     ffmpeg := fun cmd =>
       {| ff_raises := None;
          ff_writes :=
            match cmd with
            | _ :: _ :: APath source :: _ =>
                if String.eqb (path_name source) "a.mp4"
                then Some (Media (Some (nearest 11)))
                else Some (Media (Some (nearest 22)))
            | _ => None
            end |} |}.

(** Both jobs are taken by a thread; the first splits its video, then the
    second splits its own. *)
Definition two_jobs_schedule : list sched_item :=
  [Start 1; Start 2; Main 1 [1; 2]; Main 2 [1; 2]].

(** The chunk files the workers of a job have been given. *)
Definition job_chunk_files (j : job) : list Path :=
  match j_phase j with
  | Transcribing workers _ => w_chunk_file <$> workers
  | _ => []
  end.

(** The pool of one worker that succeeds. *)
Definition ok_pool1 : pool :=
  spawn_all (temp_dir one_chunk) (fun _ => whisper_ok) 1 demo_split_fs.

(** ** The configuration dialogue: [main] *)

(** *** What is typed at the terminal *)

Definition is_digit (c : Ascii.ascii) : bool :=
  let n := Ascii.nat_of_ascii c in (48 <=? n)%nat && (n <=? 57)%nat.

Definition digit_value (c : Ascii.ascii) : Z := Z.of_nat (Ascii.nat_of_ascii c) - 48.

Definition UNDERSCORE : Ascii.ascii := Ascii.ascii_of_nat 95.
Definition PLUS : Ascii.ascii := Ascii.ascii_of_nat 43.
Definition MINUS : Ascii.ascii := Ascii.ascii_of_nat 45.

(** The digits of a decimal literal, where a single underscore may stand
    between two digits: the value read so far and the number of digits;
    [None] when the literal is malformed. *)
Fixpoint int_digits (s : list Ascii.ascii) (acc : Z) (count : nat) (after_digit : bool)
  : option (Z * nat) :=
  match s with
  | [] => if after_digit then Some (acc, count) else None
  | c :: s' =>
      if is_digit c then int_digits s' (10 * acc + digit_value c) (S count) true
      else if Ascii.eqb c UNDERSCORE && after_digit then int_digits s' acc count false
      else None
  end.

(** The longest literal [int] converts ([sys.int_info.default_max_str_digits]). *)
Definition max_str_digits : nat := 4300.

(** [int(s)] for ASCII text: surrounding whitespace, a sign, decimal
    digits.  [None] stands for [ValueError]. *)
Definition int_of_str (s : string) : option Z :=
  let body := String.list_ascii_of_string (strip s) in
  let '(negative, digits) :=
    match body with
    | c :: rest =>
        if Ascii.eqb c MINUS then (true, rest)
        else if Ascii.eqb c PLUS then (false, rest)
        else (false, body)
    | [] => (false, [])
    end in
  match int_digits digits 0 0 false with
  | Some (n, count) =>
      if (max_str_digits <? count)%nat then None
      else Some (if negative then - n else n)
  | None => None
  end.

Definition lower_char (c : Ascii.ascii) : Ascii.ascii :=
  let n := Ascii.nat_of_ascii c in
  if ((65 <=? n)%nat && (n <=? 90)%nat) then Ascii.ascii_of_nat (n + 32) else c.

Fixpoint lower (s : string) : string :=
  match s with
  | EmptyString => EmptyString
  | String c s' => String (lower_char c) (lower s')
  end.

(** [s.capitalize()] *)
Definition capitalize (s : string) : string :=
  match s with
  | EmptyString => EmptyString
  | String c s' => String (upper_char c) (lower s')
  end.

Fixpoint spaces (n : nat) : string :=
  match n with
  | O => EmptyString
  | S n' => String (Ascii.ascii_of_nat 32) (spaces n')
  end.

(** [f"{s:8}"]: [s] padded with spaces on the right to [width]. *)
Definition ljust (width : nat) (s : string) : string :=
  s +:+ spaces (width - String.length s).

(** *** The dialogue *)

(** What [main] writes to the terminal: a printed line, or the prompt of
    an [input] call, after which a line is read. *)
Inductive console :=
| Say (m : message)
| Ask (prompt : string).

Definition Line (s : string) : console := Say (Msg s).

(** The command line, as [parser.parse_args()] returns it. *)
Record args := {
  arg_default : bool;
  arg_threads : Z;
  arg_model : Z;
  arg_lang : string;
}.

Definition valid_models : list string := ["tiny"; "base"; "small"; "medium"; "large"].

Definition model_info : list (string * string) :=
  [("tiny", "Fastest (low accuracy) - ~39M parameters");
   ("base", "Fast (good accuracy) - ~74M parameters [DEFAULT]");
   ("small", "Balanced (high accuracy) - ~244M parameters");
   ("medium", "Accurate (very high accuracy) - ~769M parameters");
   ("large", "Most accurate (slowest) - ~1.5B parameters")].

Definition EOFError : exn := Exn "EOFError" "EOF when reading a line".

(** The language loop.  [stdin] holds the lines still to be read; the
    result is the language code and the lines left. *)
Fixpoint select_language (stdin : list string)
  : list console * result (string * list string) :=
  let ask := Ask "Select language (1-3, default: 1): " in
  match stdin with
  | [] => ([ask], Raise EOFError)
  | line :: rest =>
      let lang_choice := strip line in
      if String.eqb lang_choice "" then ([ask], Ok ("en", rest))
      else
        match int_of_str lang_choice with
        | Some lang_idx =>
            if lang_idx =? 1 then ([ask], Ok ("en", rest))
            else if lang_idx =? 2 then ([ask], Ok ("hi", rest))
            else if lang_idx =? 3 then ([ask], Ok ("auto", rest))
            else
              let '(out, r) := select_language rest in
              (ask :: Line "Error: Please enter 1, 2, or 3" :: out, r)
        | None =>
            let '(out, r) := select_language rest in
            (ask :: Line "Error: Please enter a valid number" :: out, r)
        end
  end.

(** The thread loop. *)
Fixpoint select_threads (stdin : list string) : list console * result (Z * list string) :=
  let ask := Ask "Number of parallel threads (default: 1): " in
  match stdin with
  | [] => ([ask], Raise EOFError)
  | line :: rest =>
      let threads_input := strip line in
      if String.eqb threads_input "" then ([ask], Ok (1, rest))
      else
        match int_of_str threads_input with
        | Some max_threads =>
            if max_threads <? 1 then
              let '(out, r) := select_threads rest in
              (ask :: Line "Error: Thread count must be >= 1" :: out, r)
            else ([ask], Ok (max_threads, rest))
        | None =>
            let '(out, r) := select_threads rest in
            (ask :: Line "Error: Please enter a valid number" :: out, r)
        end
  end.

(** The model loop. *)
Fixpoint select_model (stdin : list string) : list console * result (string * list string) :=
  let ask := Ask "Select model (1-5, default: 2): " in
  match stdin with
  | [] => ([ask], Raise EOFError)
  | line :: rest =>
      let model_choice := strip line in
      if String.eqb model_choice "" then ([ask], Ok ("base", rest))
      else
        match int_of_str model_choice with
        | Some n =>
            let choice_idx := n - 1 in
            if (0 <=? choice_idx) && (choice_idx <? Z.of_nat (length valid_models)) then
              match valid_models !! Z.to_nat choice_idx with
              | Some model_size => ([ask], Ok (model_size, rest))
              | None => ([ask], Raise (Exn "IndexError" "list index out of range"))
              end
            else
              let '(out, r) := select_model rest in
              (ask :: Line "Error: Please enter a number between 1 and 5" :: out, r)
        | None =>
            let '(out, r) := select_model rest in
            (ask :: Line "Error: Please enter a valid number" :: out, r)
        end
  end.

(** [main] up to the construction of the transcriber: what is written to
    the terminal, and the configuration [(max_threads, model_size,
    lang_code)]. *)
Definition main_config (a : args) (stdin : list string)
  : list console * result (Z * string * string) :=
  let out0 := [Line rule50; Line "Parallel Video Transcriber Configuration";
               Line rule50; Line ""] in
  if arg_default a then
    (* Use defaults: English, base model, 2 threads *)
    (out0 ++ [Line "Using default settings: English, Model: base, Threads: 2"; Line ""],
     Ok (2, "base", "en"))
  else
    (* Interactive language selection (asked first) *)
    let out1 := out0 ++ [Line "Available languages:"; Line "1) English [DEFAULT]";
                         Line "2) Hindi"; Line "3) Auto-detect"; Line ""] in
    let '(out2, r) := select_language stdin in
    match r with
    | Raise e => (out1 ++ out2, Raise e)
    | Ok (lang_code, stdin1) =>
        (* Interactive thread selection *)
        let '(out3, r) := select_threads stdin1 in
        match r with
        | Raise e => (out1 ++ out2 ++ [Line ""] ++ out3, Raise e)
        | Ok (max_threads, stdin2) =>
            (* Interactive model selection *)
            let out4 :=
              [Line ""; Line "Available Whisper models:"]
              ++ imap (fun i '(model, info) =>
                         Line (pretty (Z.of_nat i + 1) +:+ ") "
                               +:+ ljust 8 (capitalize model) +:+ " - " +:+ info))
                      model_info
              ++ [Line ""] in
            let '(out5, r) := select_model stdin2 in
            match r with
            | Raise e => (out1 ++ out2 ++ [Line ""] ++ out3 ++ out4 ++ out5, Raise e)
            | Ok (model_size, _) =>
                (out1 ++ out2 ++ [Line ""] ++ out3 ++ out4 ++ out5 ++ [Line ""],
                 Ok (max_threads, model_size, lang_code))
            end
        end
    end.

(** What [whisper.load_model(model_size)] does in the main process: the
    filesystem it leaves (the library makes its cache directory and
    downloads the checkpoint when it is not there) and the exception it
    raises, if any. *)
Abbreviation loader := (string -> filesystem -> filesystem * option exn).

(** [VideoTranscriber.__init__] with what it does besides filling the
    fields: the model is loaded, and the output directory is made.  The
    result holds the filesystem also when an exception is raised. *)
Definition VideoTranscriber_init (load : loader) (script_dir : Path) (max_threads : Z)
    (model_size lang_code : string) (fs : filesystem)
  : list message * filesystem * result transcriber :=
  let self := VideoTranscriber script_dir max_threads model_size lang_code in
  let out1 := [Msg ("Loading Whisper model: " +:+ model_size +:+ "...")] in
  let '(fs1, raised) := load model_size fs in
  match raised with
  | Some e => (out1, fs1, Raise e)
  | None =>
      let out2 := out1 ++ [Msg "✓ Model loaded successfully"; Msg ""] in
      (* Ensure output directory exists *)
      match mkdir_parents fs1 (output_dir self) with
      | Raise e => (out2, fs1, Raise e)
      | Ok fs' => (out2, fs', Ok self)
      end
  end.

(** [main] up to the point where [run] has queued its jobs. *)
Definition main (a : args) (stdin : list string) (load : loader) (script_dir : Path)
    (fs : filesystem) : list console * result run_state :=
  let '(out1, r) := main_config a stdin in
  match r with
  | Raise e => (out1, Raise e)
  | Ok (max_threads, model_size, lang_code) =>
      let '(out2, fs', r) :=
        VideoTranscriber_init load script_dir max_threads model_size lang_code fs in
      match r with
      | Raise e => (out1 ++ (Say <$> out2), Raise e)
      | Ok transcriber =>
          match run_submit transcriber fs' with
          | Raise e => (out1 ++ (Say <$> out2), Raise e)
          | Ok st => (out1 ++ (Say <$> out2) ++ (Say <$> r_out st), Ok st)
          end
      end
  end.

(** ** The launcher: [transcribe.py] *)

Module Launcher.

(** How the child process ends: it returns an exit status; the user
    interrupts the launcher while it waits; [subprocess.run] raises. *)
Inductive child :=
| Returned (returncode : Z)
| Interrupted
| Failed (e : exn).

(** [main]: what is printed, the command that was run, if any, and the
    argument of the [sys.exit] that ends it.  [argv] is [sys.argv], and
    [run] says how the child started with a command ends. *)
Definition main (platform : string) (project_root : Path) (fs : filesystem)
    (argv : list string) (run : list arg -> child)
  : list message * option (list arg) * Z :=
  let venv_dir := project_root /: ".venv" in
  (* Determine platform-specific Python executable *)
  let python_exe :=
    if String.eqb platform "win32" then venv_dir /: "Scripts" /: "python.exe"
    else venv_dir /: "bin" /: "python" in
  (* Check if venv exists *)
  if negb (exists_ fs venv_dir) then
    ([Msg "Virtual environment not found!";
      Msg "Run setup first: python3 scripts/setup_local.py"], None, 1)
  else
    let transcriber_script := project_root /: "scripts" /: "transcribe_parallel.py" in
    let cmd := [APath python_exe; AStr "-u"; APath transcriber_script]
               ++ (AStr <$> tail argv) in
    match run cmd with
    | Returned returncode => ([], Some cmd, returncode)
    | Interrupted => ([Msg ""; Msg "Interrupted by user"], Some cmd, 1)
    | Failed e => ([Msg ("Error running transcriber: " +:+ exn_str e)], Some cmd, 1)
    end.

End Launcher.

(** ** Predicates of the proofs *)

Definition same_static (w w' : worker) : Prop :=
  w_chunk w' = w_chunk w /\ w_temp_dir w' = w_temp_dir w
  /\ w_output_dir w' = w_output_dir w /\ w_engine w' = w_engine w
  /\ w_chunk_file w' = w_chunk_file w.

(** The paths a worker writes: its progress record, its fragment, and the
    directories on the way to its output directory. *)
Definition touches (w : worker) (q : Path) : Prop :=
  w_progress_file w = Some q
  \/ q = w_output_dir w /: ("chunk_" +:+ pretty (w_chunk w) +:+ ".txt")
  \/ q `prefix_of` w_output_dir w.

(** What [spawn_all] fixes for the worker at each position. *)
Definition wf_pool (temp : Path) (engine : Z -> whisper) (st : pool) : Prop :=
  forall k w, p_workers st !! k = Some w ->
    w_chunk w = Z.of_nat k + 1 /\ w_temp_dir w = Some temp
    /\ w_output_dir w = chunk_output_dir temp (w_chunk w)
    /\ w_engine w = engine (w_chunk w).

Definition before_loading (w : worker) : Prop := w_pc w = WStart \/ w_pc w = WGate.

Definition gate_inv (st : pool) : Prop :=
  forall k w, p_workers st !! k = Some w -> w_pc w = WGate -> 1 < w_chunk w.

Definition load_inv (st : pool) : Prop :=
  forall i, EvLoadModel i ∈ p_log st ->
    1 <= i /\ exists w, p_workers st !! Z.to_nat (i - 1) = Some w /\ ¬ before_loading w.

Definition sleep_inv (st : pool) : Prop :=
  forall c s, EvSleep c s ∈ p_log st -> 1 < c /\ s = half.

(** The states of a worker up to the call of [load_model], with at most a
    record of [percent] 0 on its way to the file. *)
Definition not_yet_loaded (w : worker) : Prop :=
  match w_pc w with
  | WStart | WGate | WLoading | WLoadModel | WReturn _ => True
  | _ => False
  end
  /\ forall d, w_pending w = Some d -> dict_get d "percent" (JInt 0) = JInt 0.

Definition blocked_inv (temp : Path) (k : Z) (st : pool) : Prop :=
  gate_open (p_fs st) (progress_file temp k) = false
  /\ forall w, p_workers st !! Z.to_nat (k - 1) = Some w -> not_yet_loaded w.

(** The bar and [last_percent] move together. *)
Definition synced (m : monitor) : Prop :=
  forall j, displayed m j = default 0 (last_percent m !! j).

(** The [for] loop of a poll over a list of chunks. *)
Definition reads (temp : Path) (pl : poll) (m : monitor) (ad : bool) (l : list Z)
  : monitor * bool :=
  foldl (fun '(m, all_done) i => monitor_read temp (snapshot pl i) i m all_done) (m, ad) l.

(** Whisper returns one segment, with a carriage return in its text. *)
Definition whisper_cr : whisper :=
  {| load_raises := None;
     transcribe_calls := [];
     transcribe_result := Ok ["a" +:+ String CR "b"];
     write_budget := None |}.

(** The whitespace characters, as strings. *)
Definition space_strings : list string := String.string_of_list_ascii <$> whitespace.

(** A text of whitespace characters only. *)
Inductive blank : string -> Prop :=
| blank_nil : blank ""
| blank_cons w s : w ∈ space_strings -> blank s -> blank (w +:+ s).

(** A text that neither begins nor ends with a whitespace character. *)
Definition clean (s : string) : Prop :=
  forall w t, w ∈ space_strings -> s <> w +:+ t /\ s <> t +:+ w.

(** The lines that go with the texts of the segments: a text of
    whitespace only gives no line; any other gives the line that is left
    when the whitespace at both ends is taken away. *)
Inductive lines_of : list string -> list string -> Prop :=
| lines_nil : lines_of [] []
| lines_skip seg segs lines :
    blank seg -> lines_of segs lines -> lines_of (seg :: segs) lines
| lines_keep l line r segs lines :
    blank l -> blank r -> line <> "" -> clean line -> lines_of segs lines ->
    lines_of ((l +:+ line +:+ r) :: segs) (line :: lines).

(** The same on lists of bytes, for any list of separators. *)
Inductive blank_of (ws : list (list Ascii.ascii)) : list Ascii.ascii -> Prop :=
| blank_of_nil : blank_of ws []
| blank_of_cons w l : w ∈ ws -> blank_of ws l -> blank_of ws (w ++ l).

(** A filesystem in which every entry lies in a directory. *)
Definition well_formed (fs : filesystem) : Prop :=
  map_Forall (fun q _ => is_dir fs (parent q) = true) fs.

(** The value of a worker: its own chunk number, and an error message
    exactly when it did not succeed. *)
Definition well_reported (w : worker) : Prop :=
  forall c s e, w_pc w = WReturn (c, s, e) -> c = w_chunk w /\ (s = true <-> e = None).

(** The results that have arrived are those of the workers that have
    returned, one for each. *)
Definition results_inv (st : pool) : Prop :=
  (forall r, EvResult r ∈ p_log st
             <-> exists k w, p_workers st !! k = Some w /\ finished w = true
                             /\ w_pc w = WReturn r)
  /\ NoDup ((arrivals (p_log st)).*1.*1)
  /\ forall k w, p_workers st !! k = Some w -> well_reported w.

(** The worker has written its fragment: the stripped, non-empty texts of
    the segments Whisper returned, one per line. *)
Definition fragment_written (temp : Path) (fs : filesystem) (w : worker) : Prop :=
  exists segs, transcribe_result (w_engine w) = Ok segs
    /\ fs !! chunk_transcript temp (w_chunk w)
       = Some (File (Text (fragment_text (fragment_lines segs)))).

(** What holds of the fragment of a worker that is at [pc]. *)
Definition frag_at (temp : Path) (fs : filesystem) (w : worker) (pc : wpc) : Prop :=
  match pc with
  | WTranscribed segs | WMkdir segs | WOpen segs =>
      transcribe_result (w_engine w) = Ok segs
  | WWrite segs =>
      transcribe_result (w_engine w) = Ok segs
      /\ exists c, fs !! chunk_transcript temp (w_chunk w) = Some (File c)
  | WComplete | WReturn (_, true, _) => fragment_written temp fs w
  | _ => True
  end.

Definition frag_inv (temp : Path) (fs : filesystem) (w : worker) : Prop :=
  frag_at temp fs w (w_pc w).

Definition frag_pool_inv (temp : Path) (st : pool) : Prop :=
  forall k w, p_workers st !! k = Some w -> frag_inv temp (p_fs st) w.

(** The texts of the segments Whisper returns for a chunk. *)
Definition transcribed (e : whisper) : list string :=
  match transcribe_result e with
  | Ok segments => segments
  | Raise _ => []
  end.

(** The fragment of a chunk, as it is read back. *)
Definition fragment_of (e : whisper) : string :=
  universal_newlines (fragment_text (fragment_lines (transcribed e))).

(** The last record of a worker that succeeds. *)
Definition complete_record (chunk : Z) : jdict := progress_data chunk 1 1 100 "complete".

(** The progress record of a worker, as far as the gate of the next
    worker and the monitor depend on it: a record on its way to the file
    finds the file open, and a worker that returns success has dumped, or
    is about to dump, its last record. *)
Definition record_ok (temp : Path) (fs : filesystem) (w : worker) : Prop :=
  (forall d, w_pending w = Some d ->
     exists c, fs !! progress_file temp (w_chunk w) = Some (File c))
  /\ (forall c e, w_pc w = WReturn (c, true, e) ->
        match w_pending w with
        | Some d => d = complete_record (w_chunk w)
        | None => fs !! progress_file temp (w_chunk w)
                  = Some (File (Json (complete_record (w_chunk w))))
        end).

(** A bound on the steps a worker at [pc] takes before it returns, the
    polls of a closed gate apart. *)
Definition rank (w : worker) (pc : wpc) : nat :=
  let calls := length (transcribe_calls (w_engine w)) in
  match pc with
  | WStart => 16 + 2 * calls
  | WGate => 14 + 2 * calls
  | WLoading => 13 + 2 * calls
  | WLoadModel => 11 + 2 * calls
  | WModelLoaded => 10 + 2 * calls
  | WTranscribe _ rest => 8 + 2 * length rest
  | WTranscribed _ => 7
  | WMkdir _ => 5
  | WOpen _ => 4
  | WWrite _ => 3
  | WComplete => 2
  | WReturn _ => 0
  end.

Definition steps_left (w : worker) : nat :=
  (rank w (w_pc w) + match w_pending w with Some _ => 1 | None => 0 end)%nat.

(** What the gates and the monitor rely on: the temporary directory is
    there, no progress record is a directory, and the records of the
    workers are as [record_ok] says. *)
Definition live_inv (temp : Path) (st : pool) : Prop :=
  p_fs st !! temp = Some Dir
  /\ (forall i, p_fs st !! progress_file temp i <> Some Dir)
  /\ forall k w, p_workers st !! k = Some w -> record_ok temp (p_fs st) w.

(** All that holds of a pool in the course of a job. *)
Definition pool_inv (temp : Path) (engine : Z -> whisper) (st : pool) : Prop :=
  wf_pool temp engine st /\ results_inv st /\ live_inv temp st /\ gate_inv st.

(** A worker that has a successor has returned and left a record that
    does not open the gate of the successor. *)
Definition blocks (temp : Path) (fs : filesystem) (num_chunks : nat) (w : worker) : bool :=
  finished w && (w_chunk w <? Z.of_nat num_chunks)
  && negb (gate_open fs (progress_file temp (w_chunk w))).

Definition blocked (temp : Path) (st : pool) : bool :=
  existsb (blocks temp (p_fs st) (length (p_workers st))) (p_workers st).

(** The steps the workers of a pool still take. *)
Definition pool_steps_left (st : pool) : nat := sum_list_with steps_left (p_workers st).

(** The first worker that has not returned is at position [k]. *)
Definition first_unfinished (st : pool) (k : nat) : Prop :=
  (exists w, p_workers st !! k = Some w /\ finished w = false)
  /\ forall k' w', (k' < k)%nat -> p_workers st !! k' = Some w' -> finished w' = true.

(** The workers have all returned, or one of them blocks its successor. *)
Definition settled (temp : Path) (st : pool) : bool := pool_done st || blocked temp st.

(** The steps the workers of a job of [num_chunks] chunks take at most,
    the polls of closed gates apart. *)
Definition steps_bound (engine : Z -> whisper) (num_chunks : Z) : nat :=
  sum_list_with (fun i => 16 + 2 * length (transcribe_calls (engine i)))%nat
                (range 1 (num_chunks + 1)).

(** The percent the monitor finds in the record of chunk [i], if it finds
    one. *)
Definition percent_read (temp : Path) (fs : filesystem) (i : Z) : option Z :=
  if exists_ fs (progress_file temp i) then
    match json_load fs (progress_file temp i) with
    | Ok d => match dict_get d "percent" (JInt 0) with
              | JInt p => Some p
              | JStr _ => None
              end
    | Raise _ => None
    end
  else None.

(** The highest percent found for chunk [i] in a series of polls, and 0
    when none is above. *)
Definition highest_read (temp : Path) (i : Z) (polls : list poll) : Z :=
  foldl (fun acc pl => Z.max acc (default 0 (percent_read temp (snapshot pl i) i))) 0 polls.

(** The job list [run] builds from the videos it has found. *)
Definition jobs_of (video_files : list Path) : list job :=
  (fun '(k, video_path) =>
     {| j_video := video_path; j_current := Z.of_nat k + 1; j_phase := Queued |})
  <$> imap (fun k v => (k, v)) video_files.

(** The jobs a thread of the executor is running. *)
Definition in_flight_count (jobs : list job) : nat :=
  length (filter (fun jb => in_flight jb = true) jobs).

(** The jobs still in the queue are the last ones. *)
Definition queue_is_suffix (jobs : list job) : Prop :=
  forall k k' j j', (k <= k')%nat -> jobs !! k = Some j -> jobs !! k' = Some j' ->
    queued j = true -> queued j' = true.

(** What the executor keeps: no more jobs in flight than it has threads,
    the jobs taken in queue order, and the videos of the jobs as they
    were queued. *)
Definition run_inv (t : transcriber) (videos : list Path) (st : run_state) : Prop :=
  Z.of_nat (in_flight_count (r_jobs st)) <= Z.max 0 (max_threads t)
  /\ queue_is_suffix (r_jobs st)
  /\ j_video <$> r_jobs st = videos.

(** What the thread loop makes of one answer: the thread count it
    accepts, if it accepts the answer. *)
Definition accepts_threads (line : string) : option Z :=
  if String.eqb (strip line) "" then Some 1
  else match int_of_str (strip line) with
       | Some n => if n <? 1 then None else Some n
       | None => None
       end.

(** Five answers: a blank for the language, three for the thread count of
    which the first two are turned down, a blank for the model. *)
Definition five_answers : list string := [""; "0"; "four"; " 3 "; ""].

(** A command line without [--default] that asks for 8 threads. *)
Definition eight_threads : args :=
  {| arg_default := false; arg_threads := 8; arg_model := 5; arg_lang := "hi" |}.

(** A loader that finds no checkpoint and caches one. *)
Definition caching_loader : loader :=
  fun model_size fs =>
    (<[["cache"; "whisper"; model_size +:+ ".pt"] := File (Media None)]>
       (<[["cache"; "whisper"] := Dir]> (<[["cache"] := Dir]> fs)), None).

(** A no-break space (U+00A0), an ideographic space (U+3000). *)
Definition NBSP : string :=
  String (Ascii.ascii_of_nat 194) (String (Ascii.ascii_of_nat 160) "").
Definition IDEOGRAPHIC_SPACE : string :=
  String (Ascii.ascii_of_nat 227) (String (Ascii.ascii_of_nat 128)
    (String (Ascii.ascii_of_nat 128) "")).

(** A record of chunk [i], as [write_progress] and
    [TqdmProgressCapture._write_progress] compute it. *)
Definition record_of (i : Z) (d : jdict) : Prop :=
  exists current total percent status,
    d = progress_data i current total percent status
    /\ percent_of current total = Ok percent
    /\ (status ∈ ["starting"; "loading_model"; "model_loaded"]
          /\ current = 0 /\ total = 1 /\ percent = 0
        \/ status = "transcribing" /\ total <> 0 /\ (0 < total -> current <= total)
        \/ status ∈ ["transcribed"; "complete"]
          /\ current = 1 /\ total = 1 /\ percent = 100).

(** What the progress file of chunk [i] holds in [fs], when it held
    [fs0 !! progress_file temp i] before the workers started. *)
Definition file_ok (temp : Path) (fs0 fs : filesystem) (i : Z) : Prop :=
  fs !! progress_file temp i = fs0 !! progress_file temp i
  \/ fs !! progress_file temp i = Some (File (Text ""))
  \/ exists d, fs !! progress_file temp i = Some (File (Json d)) /\ record_of i d.

(** The position of Whisper's bar never passes a positive total. *)
Definition bar_ok (w : worker) : Prop :=
  forall n total calls, w_pc w = WTranscribe (Some (n, total)) calls ->
    0 < total -> n <= total.

Definition pending_ok (w : worker) : Prop :=
  forall d, w_pending w = Some d -> record_of (w_chunk w) d.

Definition records_inv (temp : Path) (fs0 : filesystem) (st : pool) : Prop :=
  (forall i, file_ok temp fs0 (p_fs st) i)
  /\ forall k w, p_workers st !! k = Some w -> bar_ok w /\ pending_ok w.

(** The line printed for a result that reports failure. *)
Definition failure_line (r : Z * bool * option string) : message :=
  Msg ("  Chunk " +:+ pretty r.1.1 +:+ ": " +:+ default "None" r.2).

(** A result as the entry of [results] it becomes. *)
Definition result_item (r : Z * bool * option string) : Z * (bool * option string) :=
  (r.1.1, (r.1.2, r.2)).

(** * Proofs *)

(** * Chunk planning *)

(** The limit of [float_of_int] is where rounding to nearest leaves the
    doubles: just below it an integer rounds to the largest double, at it
    to infinity. *)
Example float_int_limit_exact :
  nearest (float_int_limit - 1) = SFmax_float prec emax
  /\ nearest float_int_limit = S754_infinity false.
Proof. vm_compute. split; reflexivity. Qed.

Example percent_truncates : percent_of 29 100 = Ok 28.
Proof. vm_compute. reflexivity. Qed.

Lemma float_of_int_ok n :
  Z.abs n < float_int_limit -> float_of_int n = Ok (nearest n).
Proof.
  intros H. unfold float_of_int.
  destruct (Z.ltb_spec (Z.abs n) float_int_limit); [done | lia].
Qed.

Lemma chunk_duration_ok T N :
  1 <= N -> N < float_int_limit -> chunk_duration T N = Ok (fdiv T (nearest N)).
Proof.
  intros H1 H2. unfold chunk_duration, truediv_float_int.
  rewrite float_of_int_ok by lia. simpl.
  destruct (Z.eqb_spec N 0); [lia | done].
Qed.

Lemma chunk_cmd_ok video temp cd N i :
  1 <= i <= N -> N < float_int_limit ->
  exists cmd,
    chunk_cmd video temp cd N i = Ok cmd
    /\ spec_start cmd = Some (fmul (nearest (i - 1)) cd)
    /\ spec_duration cmd = (if i <? N then Some cd else None).
Proof.
  intros Hi HN. unfold chunk_cmd, mul_int_float.
  rewrite float_of_int_ok by lia. simpl.
  destruct (Z.eqb_spec i N) as [->|Hne].
  - eexists. split; [done|]. split; [done|].
    rewrite Z.ltb_irrefl. done.
  - eexists. split; [done|]. split; [done|].
    destruct (Z.ltb_spec i N); [done | lia].
Qed.

Lemma mapR_ok {A B} (f : A -> result B) (g : A -> B) l :
  (forall a, a ∈ l -> f a = Ok (g a)) -> mapR f l = Ok (g <$> l).
Proof.
  induction l as [|a l IH]; intros H; simpl; [done|].
  rewrite (H a) by set_solver. simpl.
  rewrite IH by (intros; apply H; set_solver). done.
Qed.

Lemma mapR_lookup {A B} (f : A -> result B) l bs :
  mapR f l = Ok bs ->
  length bs = length l /\ forall k a, l !! k = Some a -> exists b, bs !! k = Some b /\ f a = Ok b.
Proof.
  revert bs. induction l as [|a l IH]; intros bs; simpl.
  - intros [= <-]. split; [done|]. intros k a0 H. done.
  - destruct (f a) as [b|e] eqn:Hf; simpl; [|done].
    destruct (mapR f l) as [bs'|e] eqn:Hm; simpl; [|done].
    intros [= <-]. destruct (IH bs' eq_refl) as [Hlen Hk].
    split; [simpl; lia|]. intros [|k] a0 H; simpl in *.
    + injection H as <-. eauto.
    + eauto.
Qed.

Lemma range_lookup a b (k : nat) :
  a + Z.of_nat k < b -> range a b !! k = Some (a + Z.of_nat k).
Proof. intros H. unfold range. apply lookup_seqZ. lia. Qed.

Lemma range_length a b : length (range a b) = Z.to_nat (b - a).
Proof. unfold range. apply length_seqZ. Qed.

Lemma elem_of_range a b i : i ∈ range a b <-> a <= i < b.
Proof. unfold range. rewrite elem_of_seqZ. lia. Qed.

Lemma mapR_total {A B} (f : A -> result B) l :
  (forall a, a ∈ l -> exists b, f a = Ok b) -> exists bs, mapR f l = Ok bs.
Proof.
  induction l as [|a l IH]; intros H; simpl; [eauto|].
  destruct (H a) as [b ->]; [set_solver|]. simpl.
  destruct IH as [bs ->]; [intros; apply H; set_solver|].
  simpl. eauto.
Qed.

(** C1 (as amended): for every duration [T > 0] and chunk count [N >= 1]
    that converts to a float ([N < 2^1024 - 2^970]), the chunk plan has
    exactly [N] specs; spec [i] starts at [(i-1) * (T/N)], has duration
    [T/N] for [i < N] and no duration limit (reads to end of stream) for
    [i = N]. *)
Theorem chunk_plan_spec video temp T N :
  fltb fzero T = true -> 1 <= N -> N < float_int_limit ->
  exists cd plan,
    cd = fdiv T (nearest N)
    /\ chunk_duration T N = Ok cd
    /\ chunk_plan video temp T N = Ok plan
    /\ Z.of_nat (length plan) = N
    /\ forall i, 1 <= i <= N ->
         exists cmd, plan !! Z.to_nat (i - 1) = Some cmd
           /\ spec_start cmd = Some (fmul (nearest (i - 1)) cd)
           /\ spec_duration cmd = (if i <? N then Some cd else None).
Proof.
  intros _ H1 H2.
  exists (fdiv T (nearest N)).
  unfold chunk_plan. rewrite chunk_duration_ok by done. simpl.
  set (cd := fdiv T (nearest N)).
  destruct (mapR_total (chunk_cmd video temp cd N) (range 1 (N + 1))) as [plan Hm].
  { intros i Hi%elem_of_range.
    destruct (chunk_cmd_ok video temp cd N i) as (cmd & -> & _); [lia | done | eauto]. }
  exists plan. destruct (mapR_lookup _ _ _ Hm) as [Hlen Hk].
  repeat split; try done.
  - rewrite Hlen, range_length. lia.
  - intros i Hi.
    destruct (Hk (Z.to_nat (i - 1)) i) as (cmd & Hcmd & Hf).
    { rewrite range_lookup by lia. f_equal. lia. }
    destruct (chunk_cmd_ok video temp cd N i Hi H2) as (cmd' & Hc & Hs & Hd).
    rewrite Hc in Hf. injection Hf as <-. eauto.
Qed.

(** The scenario of the specification: [T = 300], [N = 3] gives the specs
    (0, 100), (100, 100), (200, unbounded). *)
Lemma chunk_plan_spec_witness :
  exists plan,
    chunk_plan ["in"; "a.mp4"] ["tmp"] (nearest 300) 3 = Ok plan
    /\ spec_start <$> plan = [Some (nearest 0); Some (nearest 100); Some (nearest 200)]
    /\ spec_duration <$> plan = [Some (nearest 100); Some (nearest 100); None].
Proof.
  destruct (chunk_plan_spec ["in"; "a.mp4"] ["tmp"] (nearest 300) 3)
    as (cd & plan & -> & _ & Hplan & Hlen & Hspec).
  - vm_compute. reflexivity.
  - lia.
  - vm_compute. reflexivity.
  - exists plan. split; [exact Hplan|].
    destruct (Hspec 1) as (c1 & H1 & S1 & D1); [lia|].
    destruct (Hspec 2) as (c2 & H2 & S2 & D2); [lia|].
    destruct (Hspec 3) as (c3 & H3 & S3 & D3); [lia|].
    destruct plan as [|p1 [|p2 [|p3 [|p4 plan]]]]; simpl in Hlen; try lia.
    simpl in H1, H2, H3.
    injection H1 as ->. injection H2 as ->. injection H3 as ->.
    simpl. rewrite S1, S2, S3, D1, D2, D3.
    vm_compute. split; reflexivity.
Defined.

(** C1 as stated fails for a chunk count that does not convert to a
    float: [duration / num_chunks] raises and there is no plan. *)
Lemma chunk_plan_overflow :
  fltb fzero (nearest 300) = true
  /\ 1 <= 2 ^ 1024
  /\ chunk_duration (nearest 300) (2 ^ 1024) = Raise OverflowError_int
  /\ ¬ exists plan, chunk_plan ["in"; "a.mp4"] ["tmp"] (nearest 300) (2 ^ 1024) = Ok plan.
Proof.
  split; [vm_compute; reflexivity|]. split; [vm_compute; discriminate|].
  split; [vm_compute; reflexivity|].
  intros [plan H]. vm_compute in H. discriminate H.
Qed.

(** * The filesystem *)

Lemma open_w_lookup fs fs' p q :
  open_w fs p = Ok fs' -> q <> p -> fs' !! q = fs !! q.
Proof.
  unfold open_w. intros H Hne.
  destruct (fs !! p) as [[|c]|]; try done;
    destruct (is_dir fs (parent p)); try done;
    injection H as <-; by rewrite lookup_insert_ne.
Qed.

Lemma open_w_at fs fs' p :
  open_w fs p = Ok fs' -> fs' !! p = Some (File (Text "")).
Proof.
  unfold open_w. intros H.
  destruct (fs !! p) as [[|c]|]; try done;
    destruct (is_dir fs (parent p)); try done;
    injection H as <-; by rewrite lookup_insert_eq.
Qed.

Lemma flush_lookup fs p c q : q <> p -> flush fs p c !! q = fs !! q.
Proof.
  unfold flush. intros Hne.
  destruct (fs !! p) as [[|c']|]; try done. by rewrite lookup_insert_ne.
Qed.

Lemma flush_at fs p c c' :
  fs !! p = Some (File c') -> flush fs p c !! p = Some (File c).
Proof. unfold flush. intros ->. by rewrite lookup_insert_eq. Qed.

Lemma flush_at_cases fs p c :
  flush fs p c !! p = fs !! p \/ flush fs p c !! p = Some (File c).
Proof.
  unfold flush. destruct (fs !! p) as [[|c']|] eqn:E; auto.
  right. by rewrite lookup_insert_eq.
Qed.

(** [mkdir] only fills absent directories on the way to its target. *)
Lemma mkdir_from_lookup rest : forall fs base fs' q,
  mkdir_from fs base rest = Ok fs' ->
  fs' !! q = fs !! q
  \/ (fs !! q = None /\ fs' !! q = Some Dir /\ q `prefix_of` base ++ rest
      /\ (length base < length q)%nat).
Proof.
  induction rest as [|name rest IH]; intros fs base fs' q; simpl.
  - intros [= <-]. by left.
  - destruct (fs !! (base /: name)) as [[|c]|] eqn:E; [| done |].
    + intros H. destruct (IH _ _ _ q H) as [Heq|(Hn & Hd & Hp & Hl)]; [by left|].
      right. unfold joinpath in Hp, Hl. rewrite <- app_assoc in Hp.
      rewrite length_app in Hl. simpl in *. repeat split; try done. lia.
    + intros H. destruct (IH _ _ _ q H) as [Heq|(Hn & Hd & Hp & Hl)].
      * destruct (decide (q = base /: name)) as [->|Hne].
        -- right. rewrite Heq, lookup_insert_eq. repeat split; try done.
           ++ unfold joinpath. apply prefix_app, prefix_cons, prefix_nil.
           ++ unfold joinpath. rewrite length_app. simpl. lia.
        -- left. rewrite Heq. by rewrite lookup_insert_ne.
      * destruct (decide (q = base /: name)) as [->|Hne].
        { rewrite lookup_insert_eq in Hn. done. }
        rewrite lookup_insert_ne in Hn by done.
        right. unfold joinpath in Hp, Hl. rewrite <- app_assoc in Hp.
        rewrite length_app in Hl. simpl in *. repeat split; try done. lia.
Qed.

Lemma mkdir_parents_lookup fs p fs' q :
  mkdir_parents fs p = Ok fs' ->
  fs' !! q = fs !! q \/ (fs !! q = None /\ fs' !! q = Some Dir /\ q `prefix_of` p).
Proof.
  intros H. destruct (mkdir_from_lookup _ _ _ _ q H) as [?|(?&?&?&?)]; auto.
Qed.

Lemma rmtree_lookup_below fs p fs' q :
  rmtree fs p = Ok fs' -> p `prefix_of` q -> fs' !! q = None.
Proof.
  unfold rmtree. destruct (fs !! p) as [[|c]|]; [|done..]. intros [= <-] H.
  apply map_lookup_filter_None. right. intros x _. simpl. auto.
Qed.

Lemma rmtree_lookup_other fs p fs' q :
  rmtree fs p = Ok fs' -> ¬ p `prefix_of` q -> fs' !! q = fs !! q.
Proof.
  unfold rmtree. destruct (fs !! p) as [[|c]|]; [|done..]. intros [= <-] H.
  destruct (fs !! q) as [x|] eqn:E.
  - apply map_lookup_filter_Some. split; done.
  - apply map_lookup_filter_None. by left.
Qed.

Lemma rmtree_dir fs p : fs !! p = Some Dir -> exists fs', rmtree fs p = Ok fs'.
Proof. unfold rmtree. intros ->. eauto. Qed.

(** [if p.exists(): shutil.rmtree(p)] when it does not raise. *)
Lemma clear_lookup fs p fs1 :
  (if exists_ fs p then rmtree fs p else Ok fs) = Ok fs1 ->
  (forall q, ¬ p `prefix_of` q -> fs1 !! q = fs !! q)
  /\ (forall q, p `prefix_of` q -> fs1 !! q = None \/ fs1 !! q = fs !! q)
  /\ (exists_ fs p = true -> forall q, p `prefix_of` q -> fs1 !! q = None).
Proof.
  destruct (exists_ fs p).
  - intros H. split; [|split].
    + intros q Hq. by eapply rmtree_lookup_other.
    + intros q Hq. left. by eapply rmtree_lookup_below.
    + intros _ q Hq. by eapply rmtree_lookup_below.
  - intros [= <-]. split; [done|]. split; [by right|done].
Qed.

(** * The names of the transient artifacts *)

Lemma joinpath_inj p q a b : p /: a = q /: b -> p = q /\ a = b.
Proof. unfold joinpath. intros H. apply app_inj_tail in H. done. Qed.

Lemma joinpath_length p a : length (p /: a) = S (length p).
Proof. unfold joinpath. rewrite length_app. simpl. lia. Qed.

Lemma list_ascii_of_string_app s t :
  String.list_ascii_of_string (s +:+ t)
  = String.list_ascii_of_string s ++ String.list_ascii_of_string t.
Proof.
  induction s as [|c s IH]; [done|].
  change (String c s +:+ t) with (String c (s +:+ t)).
  simpl. by rewrite IH.
Qed.

Lemma string_app_inj_r s1 s2 t : s1 +:+ t = s2 +:+ t -> s1 = s2.
Proof.
  intros H. apply (f_equal String.list_ascii_of_string) in H.
  rewrite !list_ascii_of_string_app in H. apply app_inv_tail in H.
  apply (f_equal String.string_of_list_ascii) in H.
  by rewrite !String.string_of_list_ascii_of_string in H.
Qed.

Lemma numbered_name_inj pre post (i j : Z) :
  pre +:+ pretty i +:+ post = pre +:+ pretty j +:+ post -> i = j.
Proof.
  intros H. apply String.app_inj in H. apply string_app_inj_r in H.
  by apply (inj pretty) in H.
Qed.

(** Two names that differ in their first character. *)
Ltac first_char H :=
  apply (f_equal (String.get 0)) in H; vm_compute in H; discriminate H.

Lemma progress_file_inj temp i j : progress_file temp i = progress_file temp j -> i = j.
Proof. intros [_ H]%joinpath_inj. by apply numbered_name_inj in H. Qed.

Lemma chunk_file_inj temp i j : chunk_file temp i = chunk_file temp j -> i = j.
Proof. intros [_ H]%joinpath_inj. by apply numbered_name_inj in H. Qed.

Lemma chunk_output_dir_inj temp i j :
  chunk_output_dir temp i = chunk_output_dir temp j -> i = j.
Proof.
  intros [_ H]%joinpath_inj. apply String.app_inj in H. by apply (inj pretty) in H.
Qed.

Lemma chunk_transcript_inj temp i j :
  chunk_transcript temp i = chunk_transcript temp j -> i = j.
Proof. intros [_ H]%joinpath_inj. by apply numbered_name_inj in H. Qed.

Lemma progress_file_not_chunk_file temp i j : progress_file temp i <> chunk_file temp j.
Proof. intros [_ H]%joinpath_inj. first_char H. Qed.

Lemma progress_file_not_output_dir temp i j :
  progress_file temp i <> chunk_output_dir temp j.
Proof. intros [_ H]%joinpath_inj. first_char H. Qed.


Lemma chunk_transcript_length temp i :
  length (chunk_transcript temp i) = S (S (length temp)).
Proof. unfold chunk_transcript, chunk_output_dir. by rewrite !joinpath_length. Qed.

Lemma progress_file_length temp i : length (progress_file temp i) = S (length temp).
Proof. unfold progress_file. by rewrite joinpath_length. Qed.

Lemma chunk_file_length temp i : length (chunk_file temp i) = S (length temp).
Proof. unfold chunk_file. by rewrite joinpath_length. Qed.

Lemma chunk_output_dir_length temp i : length (chunk_output_dir temp i) = S (length temp).
Proof. unfold chunk_output_dir. by rewrite joinpath_length. Qed.

Lemma prefix_same_length {A} (p q : list A) : p `prefix_of` q -> length p = length q -> p = q.
Proof.
  intros [k ->] H. rewrite length_app in H.
  destruct k; [by rewrite app_nil_r | simpl in H; lia].
Qed.

Lemma prefix_snoc_cases {A} (q l : list A) x :
  q `prefix_of` l ++ [x] -> q = l ++ [x] \/ q `prefix_of` l.
Proof.
  intros [k Hk]. destruct k as [|y k _] using rev_ind.
  - left. by rewrite app_nil_r in Hk.
  - right. rewrite app_assoc in Hk. apply app_inj_tail in Hk as [-> _].
    by apply prefix_app_r.
Qed.

Lemma below_temp temp name : temp `prefix_of` temp /: name.
Proof. unfold joinpath. by apply prefix_app_r. Qed.

(** * The worker *)

Lemma set_pc_static w pc :
  w_chunk (set_pc w pc) = w_chunk w /\ w_temp_dir (set_pc w pc) = w_temp_dir w
  /\ w_output_dir (set_pc w pc) = w_output_dir w /\ w_engine (set_pc w pc) = w_engine w.
Proof. done. Qed.

Lemma write_progress_static w fs c t s next :
  same_static w (write_progress w fs c t s next).2.
Proof.
  unfold write_progress. destruct (w_progress_file w); [|done].
  destruct (percent_of c t); [|done]. destruct (open_w fs l); done.
Qed.

Lemma tqdm_write_progress_static w fs n t next :
  same_static w (tqdm_write_progress w fs n t next).2.
Proof.
  unfold tqdm_write_progress. destruct (t =? 0); [done|]. apply write_progress_static.
Qed.

Lemma worker_step_static fs w : same_static w (worker_step fs w).1.2.
Proof.
  unfold worker_step. destruct (w_pending w); [done|].
  destruct (w_pc w) as [| | | | |bar calls|segs|segs|segs|segs| |r]; simpl;
    try apply write_progress_static; try done.
  - destruct (w_temp_dir w); [|done]. destruct (gate_open _ _); done.
  - destruct (load_raises _); done.
  - destruct calls as [|[t|k|] calls]; simpl.
    + destruct (transcribe_result _); done.
    + apply tqdm_write_progress_static.
    + destruct bar as [[n t]|]; [apply tqdm_write_progress_static | done].
    + destruct bar as [[n t]|]; [apply tqdm_write_progress_static | done].
  - destruct (mkdir_parents _ _); done.
  - destruct (open_w _ _); done.
  - destruct (write_budget _); [destruct (_ <? _)%nat|]; done.
Qed.

Lemma write_progress_frame w fs c t s next q :
  ¬ touches w q -> (write_progress w fs c t s next).1 !! q = fs !! q.
Proof.
  intros Hq. unfold write_progress. destruct (w_progress_file w) as [pf|] eqn:E; [|done].
  destruct (percent_of c t); [|done]. destruct (open_w fs pf) eqn:Ho; [|done].
  simpl. eapply open_w_lookup; [done|]. intros ->. apply Hq. by left.
Qed.

Lemma tqdm_write_progress_frame w fs n t next q :
  ¬ touches w q -> (tqdm_write_progress w fs n t next).1 !! q = fs !! q.
Proof.
  intros Hq. unfold tqdm_write_progress. destruct (t =? 0); [done|].
  by apply write_progress_frame.
Qed.

Lemma worker_step_frame fs w q :
  ¬ touches w q -> (worker_step fs w).1.1 !! q = fs !! q.
Proof.
  intros Hq. unfold worker_step. destruct (w_pending w).
  { simpl. destruct (w_progress_file w) as [pf|] eqn:E; [|done].
    apply flush_lookup. intros ->. apply Hq. by left. }
  destruct (w_pc w) as [| | | | |bar calls|segs|segs|segs|segs| |r]; simpl;
    try (by apply write_progress_frame); try done.
  - destruct (w_temp_dir w); [|done]. destruct (gate_open _ _); done.
  - destruct calls as [|[t|k|] calls]; simpl; [done | | |].
    + by apply tqdm_write_progress_frame.
    + destruct bar as [[n t]|]; [by apply tqdm_write_progress_frame | done].
    + destruct bar as [[n t]|]; [by apply tqdm_write_progress_frame | done].
  - destruct (mkdir_parents _ _) as [fs'|] eqn:E; [|done]. simpl.
    destruct (mkdir_parents_lookup _ _ _ q E) as [?|(_ & _ & Hp)]; [done|].
    exfalso. apply Hq. right; by right.
  - destruct (open_w _ _) as [fs'|] eqn:E; [|done]. simpl.
    eapply open_w_lookup; [done|]. intros ->. apply Hq. right; by left.
  - assert (q <> w_output_dir w /: ("chunk_" +:+ pretty (w_chunk w) +:+ ".txt")).
    { intros ->. apply Hq. right; by left. }
    destruct (write_budget _); [destruct (_ <? _)%nat|]; simpl; by apply flush_lookup.
Qed.

(** * The pool *)

Lemma before_loading_dec w : before_loading w \/ ¬ before_loading w.
Proof.
  unfold before_loading. destruct (w_pc w); auto; right; intros [?|?]; done.
Qed.

Lemma pool_run_snoc st sched i :
  pool_run st (sched ++ [i]) = pool_step (pool_run st sched) i.
Proof. unfold pool_run. by rewrite foldl_app. Qed.

Lemma pool_run_app st s1 s2 :
  pool_run st (s1 ++ s2) = pool_run (pool_run st s1) s2.
Proof. unfold pool_run. by rewrite foldl_app. Qed.

(** A step of the pool is a step of one unfinished worker, or nothing. *)
Lemma pool_step_cases st i :
  pool_step st i = st
  \/ exists w, 1 <= i /\ p_workers st !! Z.to_nat (i - 1) = Some w /\ finished w = false
       /\ p_fs (pool_step st i) = (worker_step (p_fs st) w).1.1
       /\ p_workers (pool_step st i)
          = <[Z.to_nat (i - 1) := (worker_step (p_fs st) w).1.2]> (p_workers st)
       /\ exists tail,
            p_log (pool_step st i) = p_log st ++ (worker_step (p_fs st) w).2 ++ tail
            /\ forall ev, ev ∈ tail -> exists r, ev = EvResult r.
Proof.
  unfold pool_step. destruct (Z.ltb_spec i 1); [by left|].
  destruct (p_workers st !! Z.to_nat (i - 1)) as [w|] eqn:E; [|by left].
  destruct (finished w) eqn:F; [by left|]. right. exists w.
  destruct (worker_step (p_fs st) w) as [[fs' w'] evs] eqn:S. simpl.
  split; [done|]. split; [done|]. split; [done|]. split; [done|]. split; [done|].
  eexists. split; [done|].
  intros ev. destruct (finished w'); [|set_solver].
  destruct (w_pc w'); set_solver.
Qed.

Lemma pool_step_worker st i k w' :
  p_workers (pool_step st i) !! k = Some w' ->
  p_workers st !! k = Some w'
  \/ exists w, 1 <= i /\ k = Z.to_nat (i - 1) /\ p_workers st !! k = Some w
       /\ finished w = false /\ w' = (worker_step (p_fs st) w).1.2
       /\ p_fs (pool_step st i) = (worker_step (p_fs st) w).1.1.
Proof.
  destruct (pool_step_cases st i) as [->|(w & Hi & Hw & Hf & Hfs & Hws & _)]; [by left|].
  rewrite Hws. intros H.
  destruct (decide (k = Z.to_nat (i - 1))) as [->|Hne].
  - right. exists w. rewrite list_lookup_insert_eq in H by (by eapply lookup_lt_Some).
    injection H as <-. done.
  - left. by rewrite list_lookup_insert_ne in H.
Qed.

Lemma pool_step_worker_back st i k w :
  p_workers st !! k = Some w -> exists w', p_workers (pool_step st i) !! k = Some w'.
Proof.
  intros H. destruct (pool_step_cases st i) as [->|(w0 & Hi & Hw & Hf & Hfs & Hws & _)]; [eauto|].
  rewrite Hws. apply lookup_lt_is_Some. rewrite length_insert. by eapply lookup_lt_Some.
Qed.

Lemma spawn_all_wf temp engine N fs : wf_pool temp engine (spawn_all temp engine N fs).
Proof.
  intros k w. unfold spawn_all. simpl. rewrite list_lookup_fmap.
  destruct (range 1 (N + 1) !! k) as [i|] eqn:E; [|done]. simpl. intros [= <-]. simpl.
  unfold range in E. apply lookup_seqZ in E as [-> _]. repeat split; try done; lia.
Qed.

Lemma pool_step_wf temp engine st i :
  wf_pool temp engine st -> wf_pool temp engine (pool_step st i).
Proof.
  intros Hwf k w' H. apply pool_step_worker in H as [H|(w & _ & _ & H & _ & -> & _)].
  - by apply Hwf.
  - destruct (Hwf _ _ H) as (H1 & H2 & H3 & H4).
    destruct (worker_step_static (p_fs st) w) as (S1 & S2 & S3 & S4 & _).
    rewrite S1, S2, S3, S4. done.
Qed.

Lemma pool_run_wf temp engine st sched :
  wf_pool temp engine st -> wf_pool temp engine (pool_run st sched).
Proof.
  intros H. induction sched as [|i sched IH] using rev_ind; [done|].
  rewrite pool_run_snoc. by apply pool_step_wf.
Qed.

Lemma percent_of_0_1 : percent_of 0 1 = Ok 0.
Proof. vm_compute. reflexivity. Qed.

Lemma percent_of_1_1 : percent_of 1 1 = Ok 100.
Proof. vm_compute. reflexivity. Qed.

Lemma write_progress_pc w fs c t s next :
  w_pc (write_progress w fs c t s next).2 = next
  \/ exists e, percent_of c t = Raise e
       /\ w_pc (write_progress w fs c t s next).2 = WReturn (w_chunk w, false, Some (exn_str e)).
Proof.
  unfold write_progress. destruct (w_progress_file w); [|by left].
  destruct (percent_of c t) as [p|e]; [|right; eauto].
  destruct (open_w fs l); by left.
Qed.

(** The two outcomes of a progress write: the worker goes on, or the
    computation of the percent raised. *)
Ltac write_cases :=
  match goal with
  | |- context [write_progress ?w ?fs ?c ?t ?s ?n] =>
      destruct (write_progress_pc w fs c t s n) as [-> | (? & _ & ->)]
  end.

(** Once past the gate, a worker stays past it. *)
Lemma worker_step_past_gate fs w :
  ¬ before_loading w -> ¬ before_loading (worker_step fs w).1.2.
Proof.
  unfold before_loading, worker_step. intros Hb.
  destruct (w_pending w); [done|].
  destruct (w_pc w) as [| | | | |bar calls|segs|segs|segs|segs| |r] eqn:Hpc; simpl;
    try tauto;
    try (write_cases; intros [?|?]; done).
  - destruct (load_raises _); simpl; intros [?|?]; done.
  - destruct calls as [|[t|k|] calls]; simpl.
    + destruct (transcribe_result _); simpl; intros [?|?]; done.
    + unfold tqdm_write_progress. destruct (t =? 0); simpl; [intros [?|?]; done|].
      write_cases; intros [?|?]; done.
    + destruct bar as [[n t]|]; simpl; [|intros [?|?]; done].
      unfold tqdm_write_progress. destruct (t =? 0); simpl; [intros [?|?]; done|].
      write_cases; intros [?|?]; done.
    + destruct bar as [[n t]|]; simpl; [|intros [?|?]; done].
      unfold tqdm_write_progress. destruct (t =? 0); simpl; [intros [?|?]; done|].
      write_cases; intros [?|?]; done.
  - destruct (mkdir_parents _ _); simpl; intros [?|?]; done.
  - destruct (open_w _ _); simpl; intros [?|?]; done.
  - destruct (write_budget _); [destruct (_ <? _)%nat|]; simpl; intros [?|?]; done.
  - rewrite Hpc. intros [?|?]; done.
Qed.

(** A worker leaves the gate only on an open gate. *)
Lemma worker_step_leaves_gate fs w temp :
  w_temp_dir w = Some temp -> 1 < w_chunk w ->
  before_loading w -> ¬ before_loading (worker_step fs w).1.2 ->
  w_pc w = WGate /\ w_pending w = None
  /\ gate_open fs (progress_file temp (w_chunk w - 1)) = true.
Proof.
  unfold before_loading, worker_step. intros Ht Hc Hb Ha.
  destruct (w_pending w) eqn:Hp; [done|].
  destruct Hb as [Hpc|Hpc]; rewrite Hpc in Ha |- *; simpl in Ha.
  - exfalso. apply Ha. rewrite Ht. simpl.
    destruct (Z.ltb_spec 1 (w_chunk w)); [|lia]. simpl.
    destruct (write_progress_pc w fs 0 1 "starting" WGate) as [-> | (e & He & _)]; [by right|].
    by rewrite percent_of_0_1 in He.
  - rewrite Ht in Ha. destruct (gate_open _ _); [done|].
    exfalso. apply Ha. simpl. by right.
Qed.

(** A gate stands only before a chunk after the first. *)
Lemma worker_step_gate fs w :
  (w_pc w = WGate -> 1 < w_chunk w) ->
  w_pc (worker_step fs w).1.2 = WGate -> 1 < w_chunk w.
Proof.
  unfold worker_step. intros Hinv.
  destruct (w_pending w); [done|].
  destruct (w_pc w) as [| | | | |bar calls|segs|segs|segs|segs| |r] eqn:Hpc; simpl;
    try (write_cases; try done).
  - destruct (Z.ltb_spec 1 (w_chunk w)); [done|]. simpl. done.
  - destruct (w_temp_dir w); [|done]. destruct (gate_open _ _); simpl; [done|]. auto.
  - destruct (load_raises _); done.
  - destruct calls as [|[t|k|] calls]; simpl.
    + destruct (transcribe_result _); done.
    + unfold tqdm_write_progress. destruct (t =? 0); simpl; [done|].
      write_cases; done.
    + destruct bar as [[n t]|]; simpl; [|done].
      unfold tqdm_write_progress. destruct (t =? 0); simpl; [done|].
      write_cases; done.
    + destruct bar as [[n t]|]; simpl; [|done].
      unfold tqdm_write_progress. destruct (t =? 0); simpl; [done|].
      write_cases; done.
  - destruct (mkdir_parents _ _); done.
  - destruct (open_w _ _); done.
  - destruct (write_budget _); [destruct (_ <? _)%nat|]; done.
  - by rewrite Hpc.
Qed.

Lemma worker_step_events fs w ev :
  ev ∈ (worker_step fs w).2 ->
  (ev = EvLoadModel (w_chunk w) /\ w_pc w = WLoadModel /\ w_pending w = None)
  \/ (ev = EvSleep (w_chunk w) half /\ w_pc w = WGate /\ w_pending w = None).
Proof.
  unfold worker_step. destruct (w_pending w); [set_solver|].
  destruct (w_pc w) as [| | | | |bar calls|segs|segs|segs|segs| |r]; simpl;
    try (intros H; by apply elem_of_nil in H).
  - destruct (w_temp_dir w); [destruct (gate_open _ _)|]; simpl;
      try (intros H; by apply elem_of_nil in H).
    intros ->%list_elem_of_singleton. by right.
  - intros ->%list_elem_of_singleton. by left.
  - destruct calls as [|[t|k|] calls]; [| |destruct bar as [[??]|]..]; simpl;
      intros H; by apply elem_of_nil in H.
  - destruct (mkdir_parents _ _); simpl; intros H; by apply elem_of_nil in H.
  - destruct (open_w _ _); simpl; intros H; by apply elem_of_nil in H.
  - destruct (write_budget _); [destruct (_ <? _)%nat|]; simpl;
      intros H; by apply elem_of_nil in H.
Qed.

Lemma worker_step_load_model fs w :
  w_pc w = WLoadModel -> w_pending w = None -> ¬ before_loading (worker_step fs w).1.2.
Proof.
  intros Hpc Hp. apply worker_step_past_gate. unfold before_loading. rewrite Hpc.
  intros [?|?]; done.
Qed.

Lemma gate_inv_step st i : gate_inv st -> gate_inv (pool_step st i).
Proof.
  intros Hinv k w' H. apply pool_step_worker in H as [H|(w & _ & _ & H & _ & -> & _)].
  - by eapply Hinv.
  - intros Hg. destruct (worker_step_static (p_fs st) w) as (-> & _).
    eapply worker_step_gate; [|done]. by eapply Hinv.
Qed.

Lemma load_inv_step temp engine st i :
  wf_pool temp engine st -> load_inv st -> load_inv (pool_step st i).
Proof.
  intros Hwf Hinv j Hj.
  destruct (pool_step_cases st i) as [E|(w & Hi & Hw & Hf & Hfs & Hws & tail & Hlog & Htail)].
  { rewrite E in *. by apply Hinv. }
  rewrite Hlog in Hj. rewrite !elem_of_app in Hj.
  destruct (Hwf _ _ Hw) as (Hc & _).
  assert (Hlen : (Z.to_nat (i - 1) < length (p_workers st))%nat) by (by eapply lookup_lt_Some).
  destruct Hj as [Hj|[Hj|Hj]].
  - destruct (Hinv j Hj) as (H1 & wj & Hwj & Hb). split; [done|].
    rewrite Hws. destruct (decide (Z.to_nat (j - 1) = Z.to_nat (i - 1))) as [E|E].
    + rewrite E, list_lookup_insert_eq by done. eexists. split; [done|].
      rewrite E in Hwj. rewrite Hw in Hwj. injection Hwj as <-.
      by apply worker_step_past_gate.
    + rewrite list_lookup_insert_ne by done. eauto.
  - apply worker_step_events in Hj as [(Hev & Hpc & Hp)|(Hev & _)]; [|done].
    injection Hev as ->. rewrite Hc. split; [lia|].
    rewrite Hws. replace (Z.to_nat (Z.of_nat (Z.to_nat (i - 1)) + 1 - 1)) with (Z.to_nat (i - 1)) by lia.
    rewrite list_lookup_insert_eq by done. eexists. split; [done|].
    by apply worker_step_load_model.
  - destruct (Htail _ Hj) as [r Hr]. done.
Qed.

(** The gate is open exactly when the record of the previous chunk can be
    read and holds an integer [percent] of at least 2. *)
Lemma gate_open_spec fs p :
  gate_open fs p = true
  <-> exists prev_data prev_percent,
        json_load fs p = Ok prev_data
        /\ dict_get prev_data "percent" (JInt 0) = JInt prev_percent
        /\ 2 <= prev_percent.
Proof.
  unfold gate_open, exists_, json_load.
  destruct (fs !! p) as [[|[s|d|m]]|]; try (split; [done|by intros (? & ? & ? & _)]).
  destruct (dict_get d "percent" (JInt 0)) as [n|s] eqn:E.
  - rewrite Z.leb_le. split.
    + intros H. exists d, n. done.
    + intros (d' & n' & [= <-] & Hn & H). rewrite E in Hn. by injection Hn as ->.
  - split; [done|]. intros (d' & n' & [= <-] & Hn & _). by rewrite E in Hn.
Qed.

(** ** The pool [spawn_all] starts, under every schedule *)

Section Spawned.
Context (temp : Path) (engine : Z -> whisper) (N : Z) (fs : filesystem).

Local Notation st0 := (spawn_all temp engine N fs).

Lemma spawn_all_gate_inv : gate_inv st0.
Proof.
  intros k w. unfold spawn_all. simpl. rewrite list_lookup_fmap.
  destruct (range 1 (N + 1) !! k); [|done]. simpl. intros [= <-]. done.
Qed.

Lemma spawn_all_load_inv : load_inv st0.
Proof.
  intros i. unfold spawn_all. simpl. intros H. apply list_elem_of_fmap in H as (j & Hj & _). done.
Qed.

Lemma pool_run_gate_inv sched :
  gate_inv (pool_run st0 sched).
Proof.
  induction sched as [|i sched IH] using rev_ind; [apply spawn_all_gate_inv|].
  rewrite pool_run_snoc. by apply gate_inv_step.
Qed.

Lemma pool_run_load_inv sched :
  load_inv (pool_run st0 sched).
Proof.
  induction sched as [|i sched IH] using rev_ind; [apply spawn_all_load_inv|].
  rewrite pool_run_snoc. eapply load_inv_step; [|done].
  apply pool_run_wf, spawn_all_wf.
Qed.

(** A worker past the gate went through it when it stood open. *)
Lemma gate_passed sched i w :
  1 < i ->
  p_workers (pool_run st0 sched) !! Z.to_nat (i - 1) = Some w ->
  ¬ before_loading w ->
  exists s1 s2 w1,
    sched = s1 ++ s2
    /\ gate_open (p_fs (pool_run st0 s1))
                 (progress_file temp (i - 1)) = true
    /\ p_workers (pool_run st0 s1) !! Z.to_nat (i - 1) = Some w1
    /\ w_pc w1 = WGate.
Proof.
  intros Hi. revert w. induction sched as [|j sched IH] using rev_ind; intros w Hw Hb.
  - exfalso. apply Hb. unfold spawn_all in Hw. simpl in Hw.
    rewrite list_lookup_fmap in Hw. destruct (range 1 (N + 1) !! _); [|done].
    injection Hw as <-. by left.
  - rewrite pool_run_snoc in Hw.
    set (st := pool_run st0 sched) in *.
    assert (Hwf : wf_pool temp engine st) by apply pool_run_wf, spawn_all_wf.
    apply pool_step_worker in Hw as [Hw|(w0 & Hj & Hk & Hw0 & Hf & -> & Hfs)].
    + destruct (IH w Hw Hb) as (s1 & s2 & w1 & -> & ?).
      exists s1, (s2 ++ [j]), w1. by rewrite app_assoc.
    + destruct (before_loading_dec w0) as [Hb0|Hb0].
      * destruct (Hwf _ _ Hw0) as (Hc & Ht & _).
        destruct (worker_step_leaves_gate (p_fs st) w0 temp Ht) as (Hpc & Hp & Hg);
          [lia | done | done |].
        exists sched, [j], w0. split; [done|]. split; [|done].
        replace (i - 1) with (w_chunk w0 - 1) by lia. done.
      * destruct (IH w0 Hw0 Hb0) as (s1 & s2 & w1 & -> & ?).
        exists s1, (s2 ++ [j]), w1. by rewrite app_assoc.
Qed.

Lemma sleep_inv_step st i : gate_inv st -> sleep_inv st -> sleep_inv (pool_step st i).
Proof.
  intros Hg Hinv c s Hc.
  destruct (pool_step_cases st i) as [E|(w & Hi & Hw & Hf & Hfs & Hws & tail & Hlog & Htail)].
  { rewrite E in *. by apply Hinv. }
  rewrite Hlog in Hc. rewrite !elem_of_app in Hc. destruct Hc as [Hc|[Hc|Hc]].
  - by apply Hinv.
  - apply worker_step_events in Hc as [(Hev & _)|(Hev & Hpc & _)]; [done|].
    injection Hev as -> ->. split; [|done]. by eapply Hg.
  - destruct (Htail _ Hc) as [r Hr]. done.
Qed.

Lemma pool_run_sleep_inv sched :
  sleep_inv (pool_run st0 sched).
Proof.
  induction sched as [|i sched IH] using rev_ind.
  - intros c s. unfold spawn_all. simpl. intros H.
    apply list_elem_of_fmap in H as (j & Hj & _). done.
  - rewrite pool_run_snoc. apply sleep_inv_step; [apply pool_run_gate_inv | done].
Qed.

(** C4: in the pool of a job, the worker of a chunk [i > 1] calls
    [whisper.load_model] only after a moment at which the progress record
    of chunk [i - 1] could be read and held [percent >= 2]; as long as
    that record is absent, cannot be read, or holds a percent that is
    below 2 or is no integer, each check of the gate is followed by a
    sleep of 0.5 seconds and the worker stays at the gate; worker 1 never
    stands at the gate and never sleeps. *)
Theorem staggered_start sched i :
  1 < i ->
  let st := pool_run st0 sched in
  let previous_chunk_progress := progress_file temp (i - 1) in
  (EvLoadModel i ∈ p_log st ->
     exists s1 s2 prev_data prev_percent,
       sched = s1 ++ s2
       /\ json_load (p_fs (pool_run st0 s1)) previous_chunk_progress = Ok prev_data
       /\ dict_get prev_data "percent" (JInt 0) = JInt prev_percent
       /\ 2 <= prev_percent
       /\ EvLoadModel i ∉ p_log (pool_run st0 s1))
  /\ (forall w,
        p_workers st !! Z.to_nat (i - 1) = Some w ->
        w_pc w = WGate -> w_pending w = None ->
        (forall prev_data prev_percent,
           json_load (p_fs st) previous_chunk_progress = Ok prev_data ->
           dict_get prev_data "percent" (JInt 0) = JInt prev_percent ->
           prev_percent < 2) ->
        pool_step st i
        = {| p_fs := p_fs st; p_workers := p_workers st;
             p_log := p_log st ++ [EvSleep i half] |})
  /\ half = fdiv (nearest 1) (nearest 2)
  /\ (forall fs' p,
        exists_ fs' p = false \/ (exists e, json_load fs' p = Raise e) ->
        gate_open fs' p = false)
  /\ (forall w, p_workers st !! 0%nat = Some w -> w_pc w <> WGate)
  /\ (forall s, EvSleep 1 s ∉ p_log st).
Proof.
  intros Hi st previous.
  assert (Hwf : wf_pool temp engine st) by apply pool_run_wf, spawn_all_wf.
  split; [|split; [|split; [|split; [|split]]]].
  - intros Hload.
    destruct (pool_run_load_inv sched i Hload) as (_ & w & Hw & Hb).
    destruct (gate_passed sched i w Hi Hw Hb)
      as (s1 & s2 & w1 & -> & Hopen & Hw1 & Hpc).
    apply gate_open_spec in Hopen as (d & p & Hd & Hp & Hge).
    exists s1, s2, d, p. split; [done|]. split; [done|]. split; [done|]. split; [done|].
    intros Hload1.
    destruct (pool_run_load_inv s1 i Hload1) as (_ & w' & Hw' & Hb').
    rewrite Hw1 in Hw'. injection Hw' as <-. apply Hb'. by right.
  - intros w Hw Hpc Hp Hlow.
    assert (Hclosed : gate_open (p_fs st) previous = false).
    { destruct (gate_open (p_fs st) previous) eqn:Hg; [|done].
      apply gate_open_spec in Hg as (d & p & Hd & Hpp & Hge).
      specialize (Hlow d p Hd Hpp). lia. }
    destruct (Hwf _ _ Hw) as (Hc & Ht & _).
    assert (Hci : w_chunk w = i) by lia.
    unfold pool_step. destruct (Z.ltb_spec i 1); [lia|]. rewrite Hw.
    unfold finished. rewrite Hpc. unfold worker_step. rewrite Hp, Hpc, Ht, Hci.
    fold previous. rewrite Hclosed.
    rewrite Hpc. simpl. rewrite list_insert_id by done. done.
  - vm_compute. reflexivity.
  - intros fs' p [H|[e H]]; unfold gate_open.
    + by rewrite H.
    + rewrite H. by destruct (exists_ fs' p).
  - intros w Hw Hpc.
    pose proof (pool_run_gate_inv sched _ _ Hw Hpc) as Hg.
    destruct (Hwf _ _ Hw) as (Hc & _). simpl in Hc. lia.
  - intros s Hs. destruct (pool_run_sleep_inv sched _ _ Hs). lia.
Qed.

End Spawned.

Lemma staggered_start_witness :
  exists s1 s2 prev_data prev_percent,
    round_robin 2 40 = s1 ++ s2
    /\ json_load (p_fs (pool_run ok_pool s1)) (progress_file (temp_dir two_chunks) (2 - 1))
       = Ok prev_data
    /\ dict_get prev_data "percent" (JInt 0) = JInt prev_percent
    /\ 2 <= prev_percent
    /\ EvLoadModel 2 ∉ p_log (pool_run ok_pool s1).
Proof.
  destruct (staggered_start (temp_dir two_chunks) (fun _ => whisper_ok) 2 demo_split_fs2
              (round_robin 2 40) 2) as [H _].
  - lia.
  - apply H. apply list_elem_of_In. vm_compute. tauto.
Defined.

(** * A worker that fails while loading the model blocks its successor *)

Lemma gate_open_ext fs fs' p : fs' !! p = fs !! p -> gate_open fs' p = gate_open fs p.
Proof. intros H. unfold gate_open, exists_, json_load. by rewrite H. Qed.

Lemma spawned_not_touches temp engine st k w j :
  wf_pool temp engine st -> p_workers st !! k = Some w -> w_chunk w <> j ->
  ¬ touches w (progress_file temp j).
Proof.
  intros Hwf Hw Hne. destruct (Hwf _ _ Hw) as (Hc & Ht & Ho & _).
  unfold touches, w_progress_file. rewrite Ht, Ho. simpl.
  intros [H|[H|H]].
  - injection H as H. by apply progress_file_inj in H.
  - apply (f_equal length) in H.
    rewrite progress_file_length, joinpath_length, chunk_output_dir_length in H. lia.
  - apply prefix_same_length in H.
    + by apply progress_file_not_output_dir in H.
    + by rewrite progress_file_length, chunk_output_dir_length.
Qed.

Lemma gate_closed_text fs p s : fs !! p = Some (File (Text s)) -> gate_open fs p = false.
Proof. intros H. unfold gate_open, exists_, json_load. by rewrite H. Qed.

Lemma gate_closed_zero fs p d :
  fs !! p = Some (File (Json d)) -> dict_get d "percent" (JInt 0) = JInt 0 ->
  gate_open fs p = false.
Proof. intros H Hd. unfold gate_open, exists_, json_load. by rewrite H, Hd. Qed.

Lemma write_progress_zero w fs temp status next :
  w_temp_dir w = Some temp -> w_pending w = None ->
  let r := write_progress w fs 0 1 status next in
  w_pc r.2 = next
  /\ (forall d, w_pending r.2 = Some d -> dict_get d "percent" (JInt 0) = JInt 0)
  /\ (gate_open fs (progress_file temp (w_chunk w)) = false ->
      gate_open r.1 (progress_file temp (w_chunk w)) = false).
Proof.
  intros Ht Hp. unfold write_progress, w_progress_file. rewrite Ht, percent_of_0_1. simpl.
  destruct (open_w fs _) as [fs'|] eqn:E; simpl.
  - split; [done|]. split.
    + intros d [= <-]. done.
    + intros _. eapply gate_closed_text. by eapply open_w_at.
  - split; [done|]. split; [|done]. rewrite Hp. done.
Qed.

Lemma worker_step_not_yet_loaded fs w temp e :
  w_temp_dir w = Some temp -> load_raises (w_engine w) = Some e ->
  not_yet_loaded w -> gate_open fs (progress_file temp (w_chunk w)) = false ->
  not_yet_loaded (worker_step fs w).1.2
  /\ gate_open (worker_step fs w).1.1 (progress_file temp (w_chunk w)) = false.
Proof.
  intros Ht He [Hpc Hpend] Hclosed. unfold worker_step.
  destruct (w_pending w) as [d|] eqn:Hp.
  { unfold w_progress_file. rewrite Ht. simpl. split.
    - split; [done|]. simpl. done.
    - destruct (flush_at_cases fs (progress_file temp (w_chunk w)) (Json d)) as [H|H].
      + rewrite (gate_open_ext fs) by done. done.
      + eapply gate_closed_zero; [done|]. by apply Hpend. }
  destruct (w_pc w) eqn:Hw; try done; simpl.
  - destruct (write_progress_zero w fs temp "starting"
               (if (1 <? w_chunk w) && bool_decide (is_Some (w_temp_dir w))
                then WGate else WLoading) Ht Hp) as (H1 & H2 & H3).
    split; [|by apply H3]. split; [|done]. rewrite H1.
    by destruct ((1 <? w_chunk w) && _).
  - rewrite Ht. destruct (gate_open fs (progress_file temp (w_chunk w - 1))); simpl.
    + split; [|done]. split; [done|]. simpl. by rewrite Hp.
    + split; [|done]. split; [by rewrite Hw|]. by rewrite Hp.
  - destruct (write_progress_zero w fs temp "loading_model" WLoadModel Ht Hp) as (H1 & H2 & H3).
    split; [|by apply H3]. split; [|done]. by rewrite H1.
  - rewrite He. simpl. split; [|done]. split; [done|]. simpl. by rewrite Hp.
  - split; [|done]. split; [by rewrite Hw|]. by rewrite Hp.
Qed.

Section Blocked.
Context (temp : Path) (engine : Z -> whisper) (N : Z) (fs : filesystem).
Context (k : Z) (e : exn).
Hypothesis Hk : 1 <= k.
Hypothesis He : load_raises (engine k) = Some e.

Local Notation st0 := (spawn_all temp engine N fs).

Lemma blocked_inv_step st i :
  wf_pool temp engine st -> blocked_inv temp k st -> blocked_inv temp k (pool_step st i).
Proof.
  intros Hwf [Hclosed Hearly].
  destruct (pool_step_cases st i) as [E|(w & Hi & Hw & Hf & Hfs & Hws & _)].
  { by rewrite E. }
  destruct (Hwf _ _ Hw) as (Hc & Ht & Ho & Heng).
  assert (Hlen : (Z.to_nat (i - 1) < length (p_workers st))%nat) by (by eapply lookup_lt_Some).
  destruct (decide (i = k)) as [->|Hne].
  - assert (Hck : w_chunk w = k) by lia.
    destruct (worker_step_not_yet_loaded (p_fs st) w temp e Ht) as [H1 H2].
    { by rewrite Heng, Hck. } { by apply Hearly. } { by rewrite Hck. }
    split.
    + rewrite Hfs. by rewrite Hck in H2.
    + rewrite Hws, list_lookup_insert_eq by done. by intros w' [= <-].
  - split.
    + rewrite Hfs. rewrite (gate_open_ext (p_fs st)); [done|].
      apply worker_step_frame. eapply spawned_not_touches; [done..|]. lia.
    + rewrite Hws, list_lookup_insert_ne by lia. done.
Qed.

Lemma gate_never_opens sched :
  gate_open fs (progress_file temp k) = false ->
  gate_open (p_fs (pool_run st0 sched)) (progress_file temp k) = false.
Proof.
  intros H0.
  cut (blocked_inv temp k (pool_run st0 sched)); [by intros [? _]|].
  induction sched as [|i sched IH] using rev_ind.
  - split; [done|]. intros w. unfold spawn_all. simpl. rewrite list_lookup_fmap.
    destruct (range 1 (N + 1) !! _); [|done]. intros [= <-]. done.
  - rewrite pool_run_snoc. apply blocked_inv_step; [|done].
    apply pool_run_wf, spawn_all_wf.
Qed.

(** If [load_model] raises in the worker of chunk [k], the worker of chunk
    [k + 1] waits at its gate under every schedule, and the pool never
    completes. *)
Lemma successor_blocked sched :
  k < N ->
  gate_open fs (progress_file temp k) = false ->
  pool_done (pool_run st0 sched) = false.
Proof.
  intros HkN H0.
  set (st := pool_run st0 sched).
  assert (exists w, p_workers st !! Z.to_nat k = Some w) as [w Hw].
  { assert (exists w0, p_workers st0 !! Z.to_nat k = Some w0) as [w0 Hw0].
    { unfold spawn_all. simpl. rewrite list_lookup_fmap, (range_lookup 1 (N + 1)) by lia. eauto. }
    subst st. clear -Hw0. revert w0 Hw0.
    induction sched as [|i sched IH] using rev_ind; [eauto|].
    intros w0 Hw0. destruct (IH _ Hw0) as [w1 Hw1].
    rewrite pool_run_snoc. by eapply pool_step_worker_back. }
  destruct (before_loading_dec w) as [Hb|Hb].
  - unfold pool_done. apply not_true_is_false. intros H.
    rewrite forallb_forall in H.
    assert (Hin : In w (p_workers st)) by (apply list_elem_of_In; by eapply list_elem_of_lookup_2).
    apply H in Hin. unfold finished in Hin. destruct Hb as [Hb|Hb]; rewrite Hb in Hin; done.
  - exfalso.
    destruct (gate_passed temp engine N fs sched (k + 1) w) as (s1 & s2 & w1 & _ & Hopen & _);
      [lia | by replace (k + 1 - 1) with k by lia | done |].
    replace (k + 1 - 1) with k in Hopen by lia.
    rewrite gate_never_opens in Hopen by done. done.
Qed.

End Blocked.

(** * The phases of [process_video] *)

Lemma process_video_split_failed tl engine t fs video current total completion sched :
  split_result (split_video_into_chunks tl t fs video (num_chunk_threads t) completion)
    <> Ok true ->
  let sp := split_video_into_chunks tl t fs video (num_chunk_threads t) completion in
  let o := process_video tl engine t fs video current total completion sched in
  pv_fs o = split_fs sp /\ pv_log o = []
  /\ (split_result sp = Ok false /\ pv_status_of o = PVReturned false
      \/ exists e, split_result sp = Raise e /\ pv_status_of o = PVRaised e).
Proof.
  intros H sp o. subst o. unfold process_video, begin_video. fold sp. fold sp in H.
  destruct (split_result sp) as [[|]|e]; [done | |]; simpl; eauto 10.
Qed.

Lemma process_video_waiting tl engine t fs video current total completion sched :
  let sp := split_video_into_chunks tl t fs video (num_chunk_threads t) completion in
  split_result sp = Ok true ->
  pool_done (pool_run (spawn_all (temp_dir t) engine (num_chunk_threads t) (split_fs sp))
                      sched) = false ->
  let o := process_video tl engine t fs video current total completion sched in
  pv_status_of o = PVWaiting
  /\ pv_fs o = p_fs (pool_run (spawn_all (temp_dir t) engine (num_chunk_threads t)
                                         (split_fs sp)) sched)
  /\ pv_log o = p_log (pool_run (spawn_all (temp_dir t) engine (num_chunk_threads t)
                                          (split_fs sp)) sched).
Proof.
  intros sp H1 H2. unfold process_video, begin_video. fold sp. rewrite H1, H2. done.
Qed.

(** The workers write below the temporary directory only (and, at most,
    the directories that lead to it). *)
Lemma spawned_touches_below temp engine st k w q :
  wf_pool temp engine st -> p_workers st !! k = Some w -> touches w q ->
  temp `prefix_of` q \/ q `prefix_of` temp.
Proof.
  intros Hwf Hw. destruct (Hwf _ _ Hw) as (Hc & Ht & Ho & _).
  unfold touches, w_progress_file. rewrite Ht, Ho. simpl. intros [H|[H|H]].
  - injection H as <-. left. apply below_temp.
  - subst q. left. etrans; [|apply below_temp]. apply below_temp.
  - unfold chunk_output_dir, joinpath in H.
    destruct (prefix_snoc_cases _ _ _ H) as [->|?]; [|by right].
    left. by apply prefix_app_r.
Qed.

Lemma pool_run_outside temp engine N fs sched q :
  ¬ temp `prefix_of` q -> ¬ q `prefix_of` temp ->
  p_fs (pool_run (spawn_all temp engine N fs) sched) !! q = fs !! q.
Proof.
  intros H1 H2. induction sched as [|i sched IH] using rev_ind; [done|].
  rewrite pool_run_snoc.
  set (st := pool_run (spawn_all temp engine N fs) sched) in *.
  destruct (pool_step_cases st i) as [E|(w & Hi & Hw & Hf & Hfs & _)]; [by rewrite E|].
  rewrite Hfs, worker_step_frame; [done|].
  intros Ht. eapply spawned_touches_below in Ht as [?|?]; try done.
  apply pool_run_wf, spawn_all_wf.
Qed.

Lemma process_video_finished tl engine t fs video current total completion sched :
  let sp := split_video_into_chunks tl t fs video (num_chunk_threads t) completion in
  let st := pool_run (spawn_all (temp_dir t) engine (num_chunk_threads t) (split_fs sp))
                     sched in
  let o := process_video tl engine t fs video current total completion sched in
  split_result sp = Ok true -> pool_done st = true ->
  pv_log o = p_log st
  /\ pv_fs o = (finish_video t (p_fs st) video (num_chunk_threads t) (arrivals (p_log st))).1.1
  /\ pv_status_of o
     = (finish_video t (p_fs st) video (num_chunk_threads t) (arrivals (p_log st))).2.
Proof.
  intros sp st o H1 H2. subst o. unfold process_video, begin_video. fold sp. rewrite H1. fold st.
  rewrite H2. destruct (finish_video _ _ _ _ _) as [[fs' out] status]. done.
Qed.

(** A job of two chunks that goes well: the transcript holds the fragment
    of chunk 1, then that of chunk 2, and the temporary directory is gone. *)
Example two_chunks_transcribed :
  let o := process_video tools_ok (fun _ => whisper_ok) two_chunks demo_fs demo_video 1 1
             [2; 1] (round_robin 2 40) in
  pv_status_of o = PVReturned true
  /\ read_text (pv_fs o) (final_transcript two_chunks demo_video)
     = Ok ("hello" +:+ newline +:+ "world" +:+ newline
           +:+ "hello" +:+ newline +:+ "world" +:+ newline)
  /\ exists_ (pv_fs o) (temp_dir two_chunks) = false
  /\ arrivals (pv_log o) = [(1, true, None); (2, true, None)].
Proof. vm_compute. repeat split; reflexivity. Qed.

(** * A failing worker and the job (C5) *)

(** C5 at the failing input: two chunks, [load_model] raises in the worker
    of chunk 1.  The exception becomes the result [(1, False, message)] of
    that worker, but the worker of chunk 2 then waits at its gate for
    ever: under every schedule of the two workers the job is still
    waiting for its futures, and no final transcript is written. *)
Theorem failed_worker_blocks_job sched :
  let o := process_video tools_ok first_model_fails two_chunks demo_fs demo_video 1 1
             [1; 2] sched in
  pv_status_of o = PVWaiting
  /\ pv_fs o !! final_transcript two_chunks demo_video = None
  /\ EvResult (1, false, Some "out of memory")
     ∈ pv_log (process_video tools_ok first_model_fails two_chunks demo_fs demo_video 1 1
                 [1; 2] (round_robin 2 6)).
Proof.
  set (sp := split_video_into_chunks tools_ok two_chunks demo_fs demo_video
               (num_chunk_threads two_chunks) [1; 2]).
  assert (Hsp : split_result sp = Ok true) by (vm_compute; reflexivity).
  assert (Hfinal : split_fs sp !! final_transcript two_chunks demo_video = None)
    by (vm_compute; reflexivity).
  assert (Hgate : gate_open (split_fs sp) (progress_file (temp_dir two_chunks) 1) = false)
    by (vm_compute; reflexivity).
  intros o.
  destruct (process_video_waiting tools_ok first_model_fails two_chunks demo_fs demo_video
              1 1 [1; 2] sched Hsp) as (Hst & Hfs & Hlog).
  { eapply (successor_blocked _ _ _ _ 1); [lia | reflexivity | done | exact Hgate]. }
  split; [exact Hst|]. split.
  - subst o. rewrite Hfs, pool_run_outside; [exact Hfinal | |].
    + intros [k Hk]. vm_compute in Hk. discriminate Hk.
    + intros [k Hk]. vm_compute in Hk. destruct k; discriminate Hk.
  - vm_compute. apply list_elem_of_In. vm_compute. tauto.
Qed.

(** * The splitter (C3, C9) *)

Lemma verify_chunks_missing tl temp fs indices i :
  i ∈ indices -> exists_ fs (chunk_file temp i) = false ->
  (verify_chunks tl temp fs indices).2 = false.
Proof.
  intros Hi Hmiss. induction indices as [|j indices IH]; [by apply elem_of_nil in Hi|].
  simpl. destruct (exists_ fs (chunk_file temp j)) eqn:E; [|done].
  destruct (get_video_duration tl fs (chunk_file temp j)) as [dur err].
  destruct (verify_chunks tl temp fs indices) as [out ok]. simpl.
  apply elem_of_cons in Hi as [->|Hi]; [congruence|]. by apply IH.
Qed.

Lemma collect_chunk_results_failed rs i err :
  Ok (i, false, err) ∈ rs -> (collect_chunk_results rs).2 <> Ok true.
Proof.
  induction rs as [|r rs IH]; intros H; [by apply elem_of_nil in H|].
  apply elem_of_cons in H as [<-|H]; [done|].
  destruct r as [[[j success] error]|e]; simpl; [|done].
  destruct success; simpl; [by apply IH | done].
Qed.

Lemma run_create_chunks_result tl video temp cd N completion fs i cmd e :
  i ∈ completion ->
  chunk_cmd video temp cd N i = Ok cmd -> ff_raises (ffmpeg tl cmd) = Some e ->
  Ok (i, false, Some (exn_str e)) ∈ (run_create_chunks tl video temp cd N completion fs).2.
Proof.
  intros Hi Hcmd He. revert fs.
  induction completion as [|j completion IH]; intros fs; [by apply elem_of_nil in Hi|].
  simpl. destruct (create_chunk tl video temp cd N fs j) as [fs1 r] eqn:Hc.
  destruct (run_create_chunks tl video temp cd N completion fs1) as [fs2 rs] eqn:Hr.
  simpl. apply elem_of_cons in Hi as [<-|Hi].
  - unfold create_chunk in Hc. rewrite Hcmd, He in Hc. injection Hc as _ <-. by left.
  - right. specialize (IH Hi fs1). by rewrite Hr in IH.
Qed.

Lemma create_chunk_frame tl video temp cd N fs i q :
  q <> chunk_file temp i -> (create_chunk tl video temp cd N fs i).1 !! q = fs !! q.
Proof.
  intros Hq. unfold create_chunk. destruct (chunk_cmd _ _ _ _ _); [|done]. simpl.
  destruct (ff_writes _) as [c0|]; [|done].
  destruct (fs !! chunk_file temp i) as [[|c1]|]; [done| |];
    (destruct (is_dir _ _); [by rewrite lookup_insert_ne | done]).
Qed.

Lemma run_create_chunks_frame tl video temp cd N completion fs q :
  (forall i, q <> chunk_file temp i) ->
  (run_create_chunks tl video temp cd N completion fs).1 !! q = fs !! q.
Proof.
  intros Hq. revert fs. induction completion as [|j completion IH]; intros fs; [done|].
  simpl. destruct (create_chunk tl video temp cd N fs j) as [fs1 r] eqn:Hc.
  specialize (IH fs1).
  destruct (run_create_chunks tl video temp cd N completion fs1) as [fs2 rs].
  simpl in *. rewrite IH. replace fs1 with (create_chunk tl video temp cd N fs j).1
    by (by rewrite Hc). by apply create_chunk_frame.
Qed.

(** The splitter creates no progress record. *)
Lemma split_progress_untouched tl t fs video N completion i :
  let sp := split_video_into_chunks tl t fs video N completion in
  split_fs sp !! progress_file (temp_dir t) i = None
  \/ split_fs sp !! progress_file (temp_dir t) i = fs !! progress_file (temp_dir t) i.
Proof.
  unfold split_video_into_chunks.
  destruct (get_video_duration tl fs video) as [[d|] err]; [|by right].
  destruct (chunk_duration d N) as [cd|e]; [|by right].
  set (pf := progress_file (temp_dir t) i).
  destruct (if exists_ fs (temp_dir t) then rmtree fs (temp_dir t) else Ok fs)
    as [fs1|e] eqn:Hrm; [|by right].
  assert (H1 : fs1 !! pf = None \/ fs1 !! pf = fs !! pf).
  { apply (clear_lookup _ _ _ Hrm), below_temp. }
  destruct (mkdir_parents fs1 (temp_dir t)) as [fs2|e] eqn:Hm; [|done].
  assert (H2 : fs2 !! pf = fs1 !! pf).
  { destruct (mkdir_parents_lookup _ _ _ pf Hm) as [?|(_ & _ & Hp)]; [done|].
    apply prefix_length in Hp. subst pf. rewrite progress_file_length in Hp. lia. }
  destruct (N <=? 0); simpl; [by rewrite H2|].
  destruct (run_create_chunks tl video (temp_dir t) cd N completion fs2) as [fs3 rs] eqn:Hr.
  assert (H3 : fs3 !! pf = fs2 !! pf).
  { replace fs3 with (run_create_chunks tl video (temp_dir t) cd N completion fs2).1
      by (by rewrite Hr).
    apply run_create_chunks_frame. intros j. apply progress_file_not_chunk_file. }
  destruct (collect_chunk_results rs) as [out3 [[|]|e]];
    [destruct (verify_chunks _ _ _ _)|..]; simpl; by rewrite H3, H2.
Qed.

Lemma split_failed tl t fs video N completion :
  let sp := split_video_into_chunks tl t fs video N completion in
  (get_video_duration tl fs video).1 = None
  \/ (exists d cd i cmd e,
        (get_video_duration tl fs video).1 = Some d /\ chunk_duration d N = Ok cd
        /\ i ∈ completion /\ chunk_cmd video (temp_dir t) cd N i = Ok cmd
        /\ ff_raises (ffmpeg tl cmd) = Some e)
  \/ (exists i, 1 <= i <= N /\ exists_ (split_fs sp) (chunk_file (temp_dir t) i) = false) ->
  split_result sp <> Ok true
  /\ ((get_video_duration tl fs video).1 = None -> split_result sp = Ok false).
Proof.
  unfold split_video_into_chunks.
  destruct (get_video_duration tl fs video) as [[d|] err] eqn:Hd; simpl; [|done].
  intros [H|H]; [done|]. split; [|done].
  destruct (chunk_duration d N) as [cd|e0] eqn:Hcd; simpl; [|done].
  destruct (if exists_ fs (temp_dir t) then rmtree fs (temp_dir t) else Ok fs)
    as [fs1|e0]; simpl; [|done].
  destruct (mkdir_parents _ (temp_dir t)) as [fs2|e0]; simpl; [|done].
  destruct (N <=? 0); simpl; [done|].
  destruct (run_create_chunks tl video (temp_dir t) cd N completion fs2) as [fs3 rs] eqn:Hr.
  destruct H as [(d' & cd' & i & cmd & e & Hd' & Hcd' & Hi & Hcmd & He)|(i & Hi & Hmiss)].
  - injection Hd' as <-. rewrite Hcd in Hcd'. injection Hcd' as <-.
    pose proof (run_create_chunks_result tl video (temp_dir t) cd N completion fs2 i cmd e
                  Hi Hcmd He) as Hin.
    rewrite Hr in Hin. apply collect_chunk_results_failed in Hin.
    simpl in Hin. revert Hin. destruct (collect_chunk_results rs) as [out3 [[|]|e1]]; simpl; [|done..].
    intros Hin. by destruct Hin.
  - destruct (collect_chunk_results rs) as [out3 [[|]|e1]] eqn:Hc; simpl in *; try done.
    destruct (verify_chunks tl (temp_dir t) fs3 (range 1 (N + 1))) as [out4 ok] eqn:Hv.
    simpl in *.
    pose proof (verify_chunks_missing tl (temp_dir t) fs3 (range 1 (N + 1)) i) as Hver.
    rewrite Hv in Hver. simpl in Hver. rewrite Hver; [done | | done].
    apply elem_of_range. lia.
Qed.

Lemma collect_chunk_results_false rs :
  (collect_chunk_results rs).2 = Ok false -> exists i err, Ok (i, false, err) ∈ rs.
Proof.
  induction rs as [|r rs IH]; [done|].
  destruct r as [[[j success] error]|e]; simpl; [|done].
  destruct success; simpl.
  - intros (i & err & H)%IH. exists i, err. by right.
  - intros _. exists j, error. by left.
Qed.

Lemma run_create_chunks_failed tl video temp cd N completion i err : forall fs,
  Ok (i, false, err) ∈ (run_create_chunks tl video temp cd N completion fs).2 ->
  exists cmd e, i ∈ completion /\ chunk_cmd video temp cd N i = Ok cmd
                /\ ff_raises (ffmpeg tl cmd) = Some e.
Proof.
  induction completion as [|j completion IH]; intros fs; simpl;
    [intros H; by apply elem_of_nil in H|].
  destruct (create_chunk tl video temp cd N fs j) as [fs1 r] eqn:Hc.
  destruct (run_create_chunks tl video temp cd N completion fs1) as [fs2 rs] eqn:Hr.
  simpl. intros [<-|H]%elem_of_cons.
  - unfold create_chunk in Hc.
    destruct (chunk_cmd video temp cd N j) as [cmd|e0] eqn:Hcmd; [|congruence].
    destruct (ff_raises (ffmpeg tl cmd)) as [e|] eqn:He; [|congruence].
    assert (j = i) as -> by congruence. exists cmd, e. split; [by left|done].
  - specialize (IH fs1). rewrite Hr in IH. destruct (IH H) as (cmd & e & Hi & ?).
    exists cmd, e. split; [by right|done].
Qed.

Lemma verify_chunks_false tl temp fs indices :
  (verify_chunks tl temp fs indices).2 = false ->
  exists i, i ∈ indices /\ exists_ fs (chunk_file temp i) = false.
Proof.
  induction indices as [|j indices IH]; [done|]. simpl.
  destruct (exists_ fs (chunk_file temp j)) eqn:E.
  - destruct (get_video_duration tl fs (chunk_file temp j)) as [dur err].
    destruct (verify_chunks tl temp fs indices) as [out ok]. simpl.
    intros (i & Hi & H)%IH. exists i. split; [by right|done].
  - intros _. exists j. split; [by left|done].
Qed.

(** A chunk whose duration cannot be determined, or is zero, is reported
    as such when the chunks are verified. *)
Lemma verify_chunks_reports tl temp fs indices i :
  (verify_chunks tl temp fs indices).2 = true -> i ∈ indices ->
  (get_video_duration tl fs (chunk_file temp i)).1 = None
  \/ (exists d, (get_video_duration tl fs (chunk_file temp i)).1 = Some d
                /\ float_truthy d = false) ->
  Msg ("  ✗ Chunk " +:+ pretty i +:+ " duration unknown")
    ∈ (verify_chunks tl temp fs indices).1.
Proof.
  intros Hok Hi Hdur. induction indices as [|j indices IH]; [by apply elem_of_nil in Hi|].
  simpl in *. destruct (exists_ fs (chunk_file temp j)) eqn:E; [|done].
  destruct (get_video_duration tl fs (chunk_file temp j)) as [dur err] eqn:Hd.
  destruct (verify_chunks tl temp fs indices) as [out ok]. simpl in *.
  apply elem_of_app. right. apply elem_of_cons in Hi as [->|Hi].
  - rewrite Hd in Hdur. simpl in Hdur.
    destruct Hdur as [->|(d & -> & ->)]; by left.
  - right. by apply IH.
Qed.

(** The split reports failure for one of three reasons only. *)
Lemma split_false_cases tl t fs video N completion :
  let sp := split_video_into_chunks tl t fs video N completion in
  split_result sp = Ok false ->
  (get_video_duration tl fs video).1 = None
  \/ (exists d cd i cmd e,
        (get_video_duration tl fs video).1 = Some d /\ chunk_duration d N = Ok cd
        /\ i ∈ completion /\ chunk_cmd video (temp_dir t) cd N i = Ok cmd
        /\ ff_raises (ffmpeg tl cmd) = Some e)
  \/ (exists i, 1 <= i <= N /\ exists_ (split_fs sp) (chunk_file (temp_dir t) i) = false).
Proof.
  unfold split_video_into_chunks.
  destruct (get_video_duration tl fs video) as [[d|] err] eqn:Hd; simpl; [|by left].
  destruct (chunk_duration d N) as [cd|e0] eqn:Hcd; simpl; [|done].
  destruct (if exists_ fs (temp_dir t) then rmtree fs (temp_dir t) else Ok fs)
    as [fs1|e0]; simpl; [|done].
  destruct (mkdir_parents _ (temp_dir t)) as [fs2|e0]; simpl; [|done].
  destruct (N <=? 0); simpl; [done|].
  destruct (run_create_chunks tl video (temp_dir t) cd N completion fs2) as [fs3 rs] eqn:Hr.
  destruct (collect_chunk_results rs) as [out3 [[|]|e1]] eqn:Hc; simpl; [| |done].
  - destruct (verify_chunks tl (temp_dir t) fs3 (range 1 (N + 1))) as [out4 ok] eqn:Hv.
    simpl. intros [= ->]. right; right.
    destruct (verify_chunks_false tl (temp_dir t) fs3 (range 1 (N + 1))) as (i & Hi & Hm);
      [by rewrite Hv|]. exists i. split; [by apply elem_of_range in Hi; lia|done].
  - intros _. right; left.
    destruct (collect_chunk_results_false rs) as (i & error & Hin); [by rewrite Hc|].
    replace rs with (run_create_chunks tl video (temp_dir t) cd N completion fs2).2 in Hin
      by (by rewrite Hr).
    apply run_create_chunks_failed in Hin as (cmd & e & Hi & Hcmd & He).
    exists d, cd, i, cmd, e. done.
Qed.

Lemma split_reports_unknown tl t fs video N completion i :
  let sp := split_video_into_chunks tl t fs video N completion in
  split_result sp = Ok true -> 1 <= i <= N ->
  (get_video_duration tl (split_fs sp) (chunk_file (temp_dir t) i)).1 = None
  \/ (exists d, (get_video_duration tl (split_fs sp) (chunk_file (temp_dir t) i)).1 = Some d
                /\ float_truthy d = false) ->
  Msg ("  ✗ Chunk " +:+ pretty i +:+ " duration unknown") ∈ split_out sp.
Proof.
  unfold split_video_into_chunks.
  destruct (get_video_duration tl fs video) as [[d|] err] eqn:Hd; simpl; [|done].
  destruct (chunk_duration d N) as [cd|e0] eqn:Hcd; simpl; [|done].
  destruct (if exists_ fs (temp_dir t) then rmtree fs (temp_dir t) else Ok fs)
    as [fs1|e0]; simpl; [|done].
  destruct (mkdir_parents _ (temp_dir t)) as [fs2|e0]; simpl; [|done].
  destruct (N <=? 0); simpl; [done|].
  destruct (run_create_chunks tl video (temp_dir t) cd N completion fs2) as [fs3 rs] eqn:Hr.
  destruct (collect_chunk_results rs) as [out3 [[|]|e1]] eqn:Hc; simpl; [|done..].
  destruct (verify_chunks tl (temp_dir t) fs3 (range 1 (N + 1))) as [out4 ok] eqn:Hv.
  simpl. intros [= ->] Hi Hdur.
  pose proof (verify_chunks_reports tl (temp_dir t) fs3 (range 1 (N + 1)) i) as Hrep.
  rewrite Hv in Hrep. simpl in Hrep.
  rewrite !elem_of_app. right. right. rewrite elem_of_cons. right.
  rewrite elem_of_app. left. apply Hrep; [done| |done]. apply elem_of_range. lia.
Qed.

(** C3 (as amended): if the duration probe of the source fails, or the
    invocation of the split tool raises for some chunk, or a chunk file is
    missing after the parallel phase, the split does not report success:
    [process_video] returns [False] (or passes on an exception raised
    while splitting), no worker is spawned, and no progress record is
    created.  These are the only reasons for which the split reports
    failure: a chunk file that exists but whose duration cannot be
    determined, or is zero, is reported as such by a split that
    succeeds. *)
Theorem split_failure_stops_job tl engine t fs video current total completion sched :
  let N := num_chunk_threads t in
  let sp := split_video_into_chunks tl t fs video N completion in
  let o := process_video tl engine t fs video current total completion sched in
  let probe_fails := (get_video_duration tl fs video).1 = None in
  let invocation_raises :=
    exists d cd i cmd e,
      (get_video_duration tl fs video).1 = Some d /\ chunk_duration d N = Ok cd
      /\ i ∈ completion /\ chunk_cmd video (temp_dir t) cd N i = Ok cmd
      /\ ff_raises (ffmpeg tl cmd) = Some e in
  let chunk_missing :=
    exists i, 1 <= i <= N /\ exists_ (split_fs sp) (chunk_file (temp_dir t) i) = false in
  (probe_fails \/ invocation_raises \/ chunk_missing ->
   (pv_status_of o = PVReturned false \/ exists e, pv_status_of o = PVRaised e)
   /\ (probe_fails -> pv_status_of o = PVReturned false)
   /\ pv_log o = []
   /\ forall i,
        pv_fs o !! progress_file (temp_dir t) i = None
        \/ pv_fs o !! progress_file (temp_dir t) i = fs !! progress_file (temp_dir t) i)
  /\ (split_result sp = Ok false -> probe_fails \/ invocation_raises \/ chunk_missing)
  /\ (split_result sp = Ok true ->
      forall i, 1 <= i <= N ->
        (get_video_duration tl (split_fs sp) (chunk_file (temp_dir t) i)).1 = None
        \/ (exists d,
              (get_video_duration tl (split_fs sp) (chunk_file (temp_dir t) i)).1 = Some d
              /\ float_truthy d = false) ->
        exists_ (split_fs sp) (chunk_file (temp_dir t) i) = true
        /\ Msg ("  ✗ Chunk " +:+ pretty i +:+ " duration unknown") ∈ split_out sp).
Proof.
  intros N sp o probe_fails invocation_raises chunk_missing.
  split; [|split].
  - intros H.
    destruct (split_failed tl t fs video N completion H) as [Hne Hprobe].
    destruct (process_video_split_failed tl engine t fs video current total completion
                sched Hne) as (Hfs & Hlog & Hst).
    fold sp o in Hfs, Hlog, Hst. fold sp in Hprobe.
    split; [|split; [|split]].
    + destruct Hst as [[_ ?]|(e & _ & ?)]; eauto.
    + intros Hp. specialize (Hprobe Hp).
      destruct Hst as [[_ ?]|(e & He & _)]; [done|].
      change (split_result sp = Raise e) in He. rewrite Hprobe in He. done.
    + done.
    + intros i. rewrite Hfs. apply split_progress_untouched.
  - apply split_false_cases.
  - intros Hok i Hi Hdur. split; [|by apply split_reports_unknown].
    destruct (exists_ (split_fs sp) (chunk_file (temp_dir t) i)) eqn:E; [done|].
    destruct (split_failed tl t fs video N completion) as [Hne _]; [|by destruct Hne].
    right; right. exists i. done.
Qed.

Lemma split_failure_stops_job_witness :
  let o := process_video tools_last_chunk_missing (fun _ => whisper_ok) two_chunks
             demo_fs demo_video 1 1 [2; 1] (round_robin 2 3) in
  pv_status_of o = PVReturned false /\ pv_log o = [].
Proof.
  destruct (split_failure_stops_job tools_last_chunk_missing (fun _ => whisper_ok)
              two_chunks demo_fs demo_video 1 1 [2; 1] (round_robin 2 3)) as [H _].
  destruct H as ([Hst|[e Hst]] & _ & Hlog & _).
  - right; right. exists 2. split; [vm_compute; split; discriminate|].
    vm_compute. reflexivity.
  - split; [exact Hst | exact Hlog].
  - vm_compute in Hst. discriminate Hst.
Defined.

(** C3 as stated fails for a chunk file that exists but is empty: its
    duration is 0 (not positive), the split reports it and succeeds, the
    workers are spawned and write their progress records. *)
Lemma empty_chunk_passes_split :
  let sp := split_video_into_chunks tools_empty_chunks two_chunks demo_fs demo_video 2 [1; 2] in
  let o := process_video tools_empty_chunks (fun _ => whisper_ok) two_chunks
             demo_fs demo_video 1 1 [1; 2] [1; 1] in
  exists_ (split_fs sp) (chunk_file (temp_dir two_chunks) 1) = true
  /\ (get_video_duration tools_empty_chunks (split_fs sp)
        (chunk_file (temp_dir two_chunks) 1)).1 = Some fzero
  /\ fltb fzero fzero = false
  /\ Msg "  ✗ Chunk 1 duration unknown" ∈ split_out sp
  /\ split_result sp = Ok true
  /\ pv_log o = [EvSpawn 1; EvSpawn 2]
  /\ pv_fs o !! progress_file (temp_dir two_chunks) 1
     = Some (File (Json (progress_data 1 0 1 0 "starting"))).
Proof.
  vm_compute. repeat split; try reflexivity.
  apply list_elem_of_In. simpl. tauto.
Qed.

(** C9 at the failing input: the split fails (the last chunk file is
    missing), [process_video] returns [False] at once, and the temporary
    directory, with chunk 1 in it, is still there although cleanup is
    enabled. *)
Theorem split_failure_keeps_temp_dir sched :
  let o := process_video tools_last_chunk_missing (fun _ => whisper_ok) two_chunks
             demo_fs demo_video 1 1 [1; 2] sched in
  cleanup two_chunks = true
  /\ pv_status_of o = PVReturned false
  /\ pv_fs o !! temp_dir two_chunks = Some Dir
  /\ pv_fs o !! chunk_file (temp_dir two_chunks) 1
     = Some (File (Media (Some (nearest 150)))).
Proof.
  intros o.
  assert (Hsp : split_result (split_video_into_chunks tools_last_chunk_missing two_chunks
                                demo_fs demo_video (num_chunk_threads two_chunks) [1; 2])
                = Ok false) by (vm_compute; reflexivity).
  destruct (process_video_split_failed tools_last_chunk_missing (fun _ => whisper_ok)
              two_chunks demo_fs demo_video 1 1 [1; 2] sched) as (Hfs & _ & Hst).
  { rewrite Hsp. done. }
  fold o in Hfs, Hst. split; [done|]. split.
  - destruct Hst as [[_ ?]|(e & He & _)]; [done|]. rewrite Hsp in He. done.
  - rewrite Hfs. vm_compute. split; reflexivity.
Qed.

(** * The progress monitor (C6, C8) *)

Lemma displayed_insert m i v j :
  default 0 (<[i := v]> (progress_bars m) !! j)
  = if decide (i = j) then v else displayed m j.
Proof.
  unfold displayed. rewrite lookup_insert. by destruct (decide (i = j)).
Qed.

Lemma monitor_read_cases temp fs i m ad :
  let r := monitor_read temp fs i m ad in
  (r.1 = m /\ (r.2 = true -> ad = true))
  \/ exists d p,
       exists_ fs (progress_file temp i) = true
       /\ json_load fs (progress_file temp i) = Ok d
       /\ dict_get d "percent" (JInt 0) = JInt p
       /\ default 0 (last_percent m !! i) < p
       /\ r.1 = {| last_percent := <[i := p]> (last_percent m);
                   progress_bars :=
                     <[i := displayed m i + (p - default 0 (last_percent m !! i))]>
                       (progress_bars m) |}.
Proof.
  unfold monitor_read. destruct (exists_ fs (progress_file temp i)) eqn:E; [|by left].
  destruct (json_load fs (progress_file temp i)) as [d|e] eqn:J; [|by left].
  destruct (dict_get d "percent" (JInt 0)) as [p|s] eqn:P; [|by left].
  destruct (Z.ltb_spec (default 0 (last_percent m !! i)) p).
  - right. exists d, p. done.
  - left. split; [done|]. simpl. destruct (dict_get d "status" _) as [|s]; [done|].
    destruct (String.eqb_spec s "complete") as [->|]; [done|].
    repeat (destruct s as [|[[] [] [] [] [] [] [] []] s]; try done).
Qed.

Lemma monitor_read_mono temp fs i m ad j :
  displayed m j <= displayed (monitor_read temp fs i m ad).1 j.
Proof.
  destruct (monitor_read_cases temp fs i m ad) as [[-> _]|(d & p & _ & _ & _ & Hlt & ->)];
    [lia|].
  unfold displayed at 2. simpl. rewrite displayed_insert.
  destruct (decide (i = j)) as [->|]; lia.
Qed.

Lemma monitor_read_synced temp fs i m ad :
  synced m -> synced (monitor_read temp fs i m ad).1.
Proof.
  intros Hs.
  destruct (monitor_read_cases temp fs i m ad) as [[-> _]|(d & p & _ & _ & _ & Hlt & ->)];
    [done|].
  intros j. unfold displayed. simpl. rewrite !lookup_insert.
  destruct (decide (i = j)) as [->|]; simpl; [|apply Hs].
  rewrite <- Hs. unfold displayed. lia.
Qed.

Lemma reads_snoc temp pl m ad l i :
  reads temp pl m ad (l ++ [i])
  = monitor_read temp (snapshot pl i) i (reads temp pl m ad l).1 (reads temp pl m ad l).2.
Proof.
  unfold reads. rewrite foldl_app. simpl.
  by destruct (foldl _ (m, ad) l).
Qed.

Lemma reads_mono temp pl m ad l j :
  displayed m j <= displayed (reads temp pl m ad l).1 j.
Proof.
  induction l as [|i l IH] using rev_ind; [simpl; lia|].
  rewrite reads_snoc. etrans; [apply IH|]. apply monitor_read_mono.
Qed.

Lemma reads_synced temp pl m ad l : synced m -> synced (reads temp pl m ad l).1.
Proof.
  intros Hs. induction l as [|i l IH] using rev_ind; [done|].
  rewrite reads_snoc. by apply monitor_read_synced.
Qed.

Lemma monitor_iteration_reads temp N m pl :
  monitor_iteration temp N m pl
  = ((reads temp pl m true (range 1 (N + 1))).1,
     stop_is_set pl && (reads temp pl m true (range 1 (N + 1))).2).
Proof.
  unfold monitor_iteration, reads. by destruct (foldl _ _ _).
Qed.

Lemma monitor_iteration_mono temp N m pl j :
  displayed m j <= displayed (monitor_iteration temp N m pl).1 j.
Proof. rewrite monitor_iteration_reads. apply reads_mono. Qed.

Lemma monitor_iteration_synced temp N m pl :
  synced m -> synced (monitor_iteration temp N m pl).1.
Proof. rewrite monitor_iteration_reads. apply reads_synced. Qed.

Lemma monitor_init_synced N : synced (monitor_init N).
Proof. intros j. done. Qed.

(** The states of the loop, one after the other. *)
Lemma monitor_loop_next temp N : forall polls m k pl m1 m2,
  polls !! k = Some pl ->
  (m :: (monitor_loop temp N m polls).1) !! k = Some m1 ->
  (m :: (monitor_loop temp N m polls).1) !! S k = Some m2 ->
  m2 = (monitor_iteration temp N m1 pl).1.
Proof.
  induction polls as [|pl0 polls IH]; intros m k pl m1 m2 Hpl H1 H2; [done|].
  simpl in H1, H2. destruct (monitor_iteration temp N m pl0) as [m' exit] eqn:Hit.
  destruct k as [|k]; simpl in *.
  - injection Hpl as <-. injection H1 as <-. rewrite Hit. simpl.
    destruct exit; [|destruct (monitor_loop temp N m' polls)]; simpl in H2; congruence.
  - destruct exit; simpl in *.
    { by destruct k. }
    destruct (monitor_loop temp N m' polls) as [ms ex] eqn:Hl. simpl in *.
    eapply (IH m' k pl); [done | |]; rewrite Hl; done.
Qed.

Lemma monitor_loop_mono temp N j : forall polls m a b ma mb,
  (a <= b)%nat ->
  (m :: (monitor_loop temp N m polls).1) !! a = Some ma ->
  (m :: (monitor_loop temp N m polls).1) !! b = Some mb ->
  displayed ma j <= displayed mb j.
Proof.
  induction polls as [|pl polls IH]; intros m a b ma mb Hab Ha Hb.
  - simpl in *. destruct a, b; simpl in *; try done; try lia.
    injection Ha as <-. injection Hb as <-. lia.
  - simpl in Ha, Hb. destruct (monitor_iteration temp N m pl) as [m' exit] eqn:Hit.
    assert (Hstep : displayed m j <= displayed m' j).
    { replace m' with (monitor_iteration temp N m pl).1 by (by rewrite Hit).
      apply monitor_iteration_mono. }
    assert (Hrest : forall ms, (if exit then ([m'], true)
                         else let '(ms, exited) := monitor_loop temp N m' polls in
                              (m' :: ms, exited)).1 = ms ->
             exists ms', ms = m' :: ms'
                         /\ (exit = false -> ms' = (monitor_loop temp N m' polls).1)
                         /\ (exit = true -> ms' = [])).
    { intros ms <-. destruct exit; [by exists []|].
      destruct (monitor_loop temp N m' polls) as [ms' ex]. by exists ms'. }
    destruct (Hrest _ eq_refl) as (ms' & Hms & Hf & Ht). rewrite Hms in Ha, Hb.
    destruct a as [|a], b as [|b]; simpl in *; try lia.
    + injection Ha as <-. injection Hb as <-. lia.
    + injection Ha as <-. etrans; [apply Hstep|].
      destruct exit.
      * rewrite (Ht eq_refl) in Hb. destruct b; simpl in Hb; [|done]. injection Hb as <-. lia.
      * rewrite (Hf eq_refl) in Hb. eapply (IH m' 0%nat (b)); [lia | done | done].
    + destruct exit.
      * rewrite (Ht eq_refl) in Ha, Hb. destruct a, b; simpl in *; try done.
        injection Ha as <-. injection Hb as <-. lia.
      * rewrite (Hf eq_refl) in Ha, Hb. eapply (IH m' a b); [lia | done | done].
Qed.

Lemma monitor_loop_synced temp N : forall polls m k mk,
  synced m -> (m :: (monitor_loop temp N m polls).1) !! k = Some mk -> synced mk.
Proof.
  induction polls as [|pl polls IH]; intros m k mk Hs Hk.
  - destruct k as [|[|k]]; simpl in Hk; try done. congruence.
  - simpl in Hk. destruct (monitor_iteration temp N m pl) as [m' exit] eqn:Hit.
    assert (Hs' : synced m').
    { replace m' with (monitor_iteration temp N m pl).1 by (by rewrite Hit).
      by apply monitor_iteration_synced. }
    destruct k as [|k]; simpl in Hk; [congruence|].
    destruct exit; simpl in Hk.
    + destruct k as [|k]; simpl in Hk; [congruence | done].
    + destruct (monitor_loop temp N m' polls) as [ms ex] eqn:Hl. simpl in Hk.
      apply (IH m' k mk Hs'). by rewrite Hl.
Qed.

Lemma monitor_read_reaches temp fs i m ad d p :
  synced m ->
  exists_ fs (progress_file temp i) = true ->
  json_load fs (progress_file temp i) = Ok d ->
  dict_get d "percent" (JInt 0) = JInt p ->
  p <= displayed (monitor_read temp fs i m ad).1 i.
Proof.
  intros Hs He Hj Hp. unfold monitor_read. rewrite He, Hj, Hp.
  destruct (Z.ltb_spec (default 0 (last_percent m !! i)) p); simpl.
  - unfold displayed at 1. simpl. rewrite displayed_insert, decide_True by done.
    rewrite Hs. lia.
  - rewrite Hs. lia.
Qed.

Lemma reads_reaches temp pl m ad l i d p :
  synced m -> i ∈ l ->
  exists_ (snapshot pl i) (progress_file temp i) = true ->
  json_load (snapshot pl i) (progress_file temp i) = Ok d ->
  dict_get d "percent" (JInt 0) = JInt p ->
  p <= displayed (reads temp pl m ad l).1 i.
Proof.
  intros Hs Hi He Hj Hp. induction l as [|j l IH] using rev_ind; [by apply elem_of_nil in Hi|].
  rewrite reads_snoc. apply elem_of_app in Hi as [Hi|Hi].
  - etrans; [by apply IH|]. apply monitor_read_mono.
  - apply list_elem_of_singleton in Hi as <-.
    eapply monitor_read_reaches; try done. by apply reads_synced.
Qed.

(** A one-worker pool under any schedule is that worker's run. *)
Lemma single_worker_run st sched :
  length (p_workers st) = 1%nat ->
  exists n, pool_run st sched = pool_run st (replicate n 1).
Proof.
  intros Hlen. induction sched as [|i sched IH] using rev_ind; [by exists 0%nat|].
  destruct IH as [n IH]. rewrite pool_run_snoc, IH.
  destruct (decide (i = 1)) as [->|Hne].
  - exists (S n). by rewrite <- pool_run_snoc, <- replicate_S_end.
  - exists n. unfold pool_step. destruct (Z.ltb_spec i 1); [done|].
    rewrite lookup_ge_None_2; [done|].
    assert (length (p_workers (pool_run st (replicate n 1))) = 1%nat) as ->; [|lia].
    rewrite <- Hlen. clear. induction n as [|n IHn]; [done|].
    rewrite replicate_S_end, pool_run_snoc.
    destruct (pool_step_cases (pool_run st (replicate n 1)) 1)
      as [->|(w & _ & _ & _ & _ & -> & _)]; [done|].
    by rewrite length_insert.
Qed.

Lemma finished_pool_stays st n :
  pool_done st = true -> pool_run st (replicate n 1) = st.
Proof.
  intros Hd. induction n as [|n IH]; [done|].
  rewrite replicate_S_end, pool_run_snoc, IH.
  unfold pool_step. destruct (1 <? 1); [done|].
  destruct (p_workers st !! Z.to_nat (1 - 1)) as [w|] eqn:E; [|done].
  unfold pool_done in Hd. rewrite forallb_forall in Hd.
  rewrite (Hd w); [done|]. apply list_elem_of_In. by eapply list_elem_of_lookup_2.
Qed.

(** C6 (as amended): the percent displayed for a chunk never decreases
    over time; a poll changes it only when the percent it reads exceeds
    the last one seen, and then by the difference; it is at least 100 once
    the monitor has read a record of percent 100, which is the percent of
    [write_progress(1, 1, status)], written with status [transcribed] and
    then with status [complete]. *)
Theorem displayed_percent temp N polls i :
  1 <= i <= N ->
  let trace := monitor_trace temp N polls in
  (forall a b ma mb, (a <= b)%nat ->
     trace !! a = Some ma -> trace !! b = Some mb -> displayed ma i <= displayed mb i)
  /\ (forall fs m all_done,
        let m' := (monitor_read temp fs i m all_done).1 in
        displayed m' i <> displayed m i ->
        exists d p,
          json_load fs (progress_file temp i) = Ok d
          /\ dict_get d "percent" (JInt 0) = JInt p
          /\ default 0 (last_percent m !! i) < p
          /\ displayed m' i = displayed m i + (p - default 0 (last_percent m !! i)))
  /\ (forall k pl m' d,
        polls !! k = Some pl -> trace !! S k = Some m' ->
        exists_ (snapshot pl i) (progress_file temp i) = true ->
        json_load (snapshot pl i) (progress_file temp i) = Ok d ->
        dict_get d "percent" (JInt 0) = JInt 100 ->
        100 <= displayed m' i)
  /\ percent_of 1 1 = Ok 100.
Proof.
  intros Hi trace. split; [|split; [|split]].
  - intros a b ma mb. apply monitor_loop_mono.
  - intros fs m ad m' Hne. subst m'.
    destruct (monitor_read_cases temp fs i m ad) as [[E _]|(d & p & _ & Hj & Hp & Hlt & E)].
    { by rewrite E in Hne. }
    exists d, p. split; [done|]. split; [done|]. split; [done|].
    rewrite E. unfold displayed at 1. simpl. by rewrite displayed_insert, decide_True.
  - intros k pl m' d Hpl Hm' He Hj Hp.
    assert (exists mk, trace !! k = Some mk) as [mk Hmk].
    { apply lookup_lt_is_Some. apply lookup_lt_Some in Hm'. lia. }
    rewrite (monitor_loop_next temp N polls _ k pl mk m' Hpl Hmk Hm').
    rewrite monitor_iteration_reads. simpl.
    eapply reads_reaches; try done.
    + eapply monitor_loop_synced; [apply monitor_init_synced | exact Hmk].
    + apply elem_of_range. lia.
  - apply percent_of_1_1.
Qed.

Lemma displayed_percent_witness :
  exists ma mb,
    monitor_trace (temp_dir one_chunk) 1
      [poll_of demo_split_fs false;
       poll_of (p_fs (pool_run disk_full_pool (replicate 11 1))) false;
       poll_of (p_fs (pool_run disk_full_pool (replicate 2 1))) false] !! 1%nat = Some ma
    /\ monitor_trace (temp_dir one_chunk) 1
         [poll_of demo_split_fs false;
          poll_of (p_fs (pool_run disk_full_pool (replicate 11 1))) false;
          poll_of (p_fs (pool_run disk_full_pool (replicate 2 1))) false] !! 3%nat = Some mb
    /\ displayed ma 1 <= displayed mb 1.
Proof.
  destruct (displayed_percent (temp_dir one_chunk) 1
              [poll_of demo_split_fs false;
               poll_of (p_fs (pool_run disk_full_pool (replicate 11 1))) false;
               poll_of (p_fs (pool_run disk_full_pool (replicate 2 1))) false] 1) as [H _].
  - lia.
  - eexists _, _. split; [vm_compute; reflexivity|]. split; [vm_compute; reflexivity|].
    eapply (H 1%nat 3%nat); [lia | vm_compute; reflexivity | vm_compute; reflexivity].
Defined.

(** C6 as stated fails: the bar of a chunk is at 100 as soon as the record
    says [transcribed] (or the last [transcribing] update), whether or not
    the worker ever reports [complete].  Here the disk is full when the
    fragment is written: the worker returns a failure and no record with
    status [complete] is ever written, under any schedule. *)
Lemma full_bar_without_complete :
  (exists m,
     last (monitor_trace (temp_dir one_chunk) 1
             [poll_of (p_fs (pool_run disk_full_pool (replicate 16 1))) false])
     = Some m /\ displayed m 1 = 100)
  /\ json_load (p_fs (pool_run disk_full_pool (replicate 16 1)))
       (progress_file (temp_dir one_chunk) 1)
     = Ok (progress_data 1 1 1 100 "transcribed")
  /\ (exists msg, arrivals (p_log (pool_run disk_full_pool (replicate 19 1)))
                  = [(1, false, Some msg)])
  /\ forall sched,
       ¬ complete_in (temp_dir one_chunk) (poll_of (p_fs (pool_run disk_full_pool sched)) true) 1.
Proof.
  split; [|split; [|split]].
  - eexists. split; [vm_compute; reflexivity|]. vm_compute. reflexivity.
  - vm_compute. reflexivity.
  - eexists. vm_compute. reflexivity.
  - intros sched.
    destruct (single_worker_run disk_full_pool sched) as [n ->]; [done|].
    assert (Hlate : forall n', pool_run disk_full_pool (replicate (19 + n') 1)
                               = pool_run disk_full_pool (replicate 19 1)).
    { intros n'. rewrite replicate_add, pool_run_app. apply finished_pool_stays.
      vm_compute. reflexivity. }
    assert (Hn : exists k, (k <= 19)%nat
                 /\ pool_run disk_full_pool (replicate n 1)
                    = pool_run disk_full_pool (replicate k 1)).
    { destruct (decide (n <= 19)%nat); [by exists n|].
      exists 19%nat. split; [done|]. replace n with (19 + (n - 19))%nat by lia. apply Hlate. }
    destruct Hn as (k & Hk & ->). intros (d & Hd & Hs). revert Hd Hs.
    do 20 (destruct k as [|k]; [vm_compute; intros [= <-]; discriminate || (intros; discriminate) |]).
    lia.
Qed.

(** * When the monitor loop ends (C8) *)

Lemma status_complete_spec (status : jval) (all_done : bool) :
  match status with
  | JStr "complete" => all_done
  | _ => false
  end = true <-> all_done = true /\ status = JStr "complete".
Proof.
  destruct status as [n|s]; [by split; [|intros [_ ?]]|].
  destruct (String.eqb_spec s "complete") as [->|Hne]; [by split; [|intros [? _]]|].
  split; [|intros [_ [= ->]]; done].
  intros H. exfalso. revert H.
  repeat (destruct s as [|[[] [] [] [] [] [] [] []] s]; try done).
Qed.

Lemma monitor_read_done temp fs i m all_done :
  (exists_ fs (progress_file temp i) = true ->
   exists d p, json_load fs (progress_file temp i) = Ok d
               /\ dict_get d "percent" (JInt 0) = JInt p) ->
  (monitor_read temp fs i m all_done).2 = true
  <-> all_done = true
      /\ exists_ fs (progress_file temp i) = true
      /\ exists d, json_load fs (progress_file temp i) = Ok d
                   /\ dict_get d "status" (JStr "running") = JStr "complete".
Proof.
  intros Hr. unfold monitor_read.
  destruct (exists_ fs (progress_file temp i)) eqn:E; [|by split; [|intros (_ & ? & _)]].
  destruct (Hr eq_refl) as (d & p & -> & ->). simpl.
  rewrite status_complete_spec. split.
  - intros [? ?]. eauto.
  - intros (? & _ & d' & [= <-] & ?). done.
Qed.

Lemma reads_done temp N pl m l :
  readable temp N pl -> (forall i, i ∈ l -> 1 <= i <= N) ->
  (reads temp pl m true l).2 = true
  <-> forall i, i ∈ l ->
        exists_ (snapshot pl i) (progress_file temp i) = true /\ complete_in temp pl i.
Proof.
  intros Hr. induction l as [|j l IH] using rev_ind; intros Hl.
  - split; [|done]. intros _ i Hi. by apply elem_of_nil in Hi.
  - rewrite reads_snoc, monitor_read_done by (apply Hr, Hl; set_solver).
    rewrite IH by (intros; apply Hl; set_solver). split.
    + intros (Hall & He & Hc) i [Hi|Hi%list_elem_of_singleton]%elem_of_app; [by apply Hall|].
      subst i. done.
    + intros Hall. split; [|split].
      * intros i Hi. apply Hall. set_solver.
      * apply Hall. set_solver.
      * apply Hall. set_solver.
Qed.

Lemma monitor_iteration_exit temp N m pl :
  readable temp N pl ->
  (monitor_iteration temp N m pl).2 = true
  <-> stop_is_set pl = true
      /\ forall i, 1 <= i <= N ->
           exists_ (snapshot pl i) (progress_file temp i) = true /\ complete_in temp pl i.
Proof.
  intros Hr. rewrite monitor_iteration_reads. simpl. rewrite andb_true_iff.
  rewrite (reads_done temp N) by (done || (intros i Hi%elem_of_range; lia)).
  split; intros [Hs Hall]; (split; [done|]); intros i Hi; apply Hall.
  - apply elem_of_range. lia.
  - apply elem_of_range in Hi. lia.
Qed.

Lemma monitor_loop_exit temp N : forall polls m,
  (forall pl, pl ∈ polls -> readable temp N pl) ->
  (monitor_loop temp N m polls).2 = true
  <-> exists pl, pl ∈ polls /\ stop_is_set pl = true
        /\ forall i, 1 <= i <= N ->
             exists_ (snapshot pl i) (progress_file temp i) = true /\ complete_in temp pl i.
Proof.
  induction polls as [|pl polls IH]; intros m Hr.
  - simpl. split; [done|]. intros (pl & Hpl & _). by apply elem_of_nil in Hpl.
  - simpl. destruct (monitor_iteration temp N m pl) as [m' exit] eqn:Hit.
    pose proof (monitor_iteration_exit temp N m pl) as Hexit. rewrite Hit in Hexit.
    simpl in Hexit. destruct exit.
    + simpl. split; [|done]. intros _. exists pl. split; [set_solver|].
      apply Hexit; [apply Hr; set_solver | done].
    + specialize (IH m'). destruct (monitor_loop temp N m' polls) as [ms ex]. simpl in *.
      rewrite IH by (intros; apply Hr; set_solver). split.
      * intros (pl' & Hpl' & H). exists pl'. split; [set_solver | done].
      * intros (pl' & [->|Hpl']%elem_of_cons & H); [|eauto].
        apply Hexit in H; [done | apply Hr; set_solver].
Qed.

(** C8 (as amended): over polls in which every record that exists can be
    read, the monitor loop ends exactly at a poll at whose end the stop
    signal is set and in which the record of every chunk exists with
    status [complete]; nothing else ends it: not the passing of time, and
    not a result reported by the pool. *)
Theorem monitor_exit temp N polls :
  (forall pl, pl ∈ polls -> readable temp N pl) ->
  (monitor_progress temp N polls).2 = true
  <-> exists pl, pl ∈ polls /\ stop_is_set pl = true
        /\ forall i, 1 <= i <= N ->
             exists_ (snapshot pl i) (progress_file temp i) = true /\ complete_in temp pl i.
Proof. apply monitor_loop_exit. Qed.

Lemma monitor_exit_witness :
  (monitor_progress (temp_dir one_chunk) 1
     [poll_of (p_fs (pool_run ok_pool1 (replicate 2 1))) true;
      poll_of (p_fs (pool_run ok_pool1 (replicate 30 1))) true;
      poll_of (p_fs (pool_run ok_pool1 (replicate 30 1))) true]).2 = true.
Proof.
  apply (monitor_exit (temp_dir one_chunk) 1).
  - intros pl Hpl i Hi _. assert (i = 1) as -> by lia.
    apply elem_of_cons in Hpl as [->|Hpl]; [|apply elem_of_cons in Hpl as [->|Hpl];
      [|apply list_elem_of_singleton in Hpl as ->]];
      eexists _, _; split; vm_compute; reflexivity.
  - exists (poll_of (p_fs (pool_run ok_pool1 (replicate 30 1))) true).
    split; [apply elem_of_cons; right; apply elem_of_cons; by left|]. split; [reflexivity|].
    intros i Hi. assert (i = 1) as -> by lia. split; [vm_compute; reflexivity|].
    eexists. split; vm_compute; reflexivity.
Defined.

(** C8 as stated fails: the only worker has failed and the pool has
    reported its result, the stop signal is set, and the monitor loop goes
    on for ever, because the record of the chunk never says [complete]. *)
Lemma monitor_ignores_pool_results :
  let st := pool_run no_model_pool (replicate 5 1) in
  pool_done st = true
  /\ arrivals (p_log st) = [(1, false, Some "out of memory")]
  /\ forall n,
       (monitor_progress (temp_dir one_chunk) 1 (replicate n (poll_of (p_fs st) true))).2
       = false.
Proof.
  intros st. split; [vm_compute; reflexivity|]. split; [vm_compute; reflexivity|].
  intros n. apply not_true_is_false. intros H.
  apply monitor_loop_exit in H.
  - destruct H as (pl & Hpl & _ & Hall). apply elem_of_replicate in Hpl as [-> _].
    destruct (Hall 1) as (_ & d & Hd & Hs); [lia|].
    vm_compute in Hd. injection Hd as <-. vm_compute in Hs. discriminate Hs.
  - intros pl [-> _]%elem_of_replicate i Hi _. assert (i = 1) as -> by lia.
    eexists _, _. split; vm_compute; reflexivity.
Qed.

(** * Combining the transcripts (C2) *)

Lemma exists_false fs p : exists_ fs p = false <-> fs !! p = None.
Proof. unfold exists_. destruct (fs !! p); split; done. Qed.

Lemma can_open_spec fs p :
  can_open fs p = true -> open_w fs p = Ok (<[p := File (Text "")]> fs).
Proof.
  unfold can_open, open_w. destruct (fs !! p) as [[|c]|]; try done;
    destruct (is_dir fs (parent p)); done.
Qed.

Lemma flush_opened fs p c :
  flush (<[p := File (Text "")]> fs) p c = <[p := File c]> fs.
Proof. unfold flush. by rewrite lookup_insert_eq, insert_insert_eq. Qed.

Lemma read_text_absent fs p : exists_ fs p = false -> exists e, read_text fs p = Raise e.
Proof. intros H%exists_false. unfold read_text. rewrite H. eauto. Qed.

Lemma combine_transcripts_spec temp fs l :
  (forall i, i ∈ l -> exists_ fs (chunk_transcript temp i) = true ->
     exists s, read_text fs (chunk_transcript temp i) = Ok s) ->
  combine_transcripts temp fs l
  = (foldr (fun i acc => match read_text fs (chunk_transcript temp i) with
                         | Ok s => s +:+ acc
                         | Raise _ => acc
                         end) "" l,
     (fun i => Msg ("Warning: Transcript for chunk " +:+ pretty i +:+ " not found"))
       <$> filter (fun i => exists_ fs (chunk_transcript temp i) = false) l,
     None).
Proof.
  induction l as [|i l IH]; intros H; [done|].
  simpl. rewrite IH by (intros; apply H; set_solver). clear IH.
  destruct (exists_ fs (chunk_transcript temp i)) eqn:E.
  - destruct (H i) as [s ->]; [set_solver | done |].
    rewrite filter_cons_False by congruence. done.
  - destruct (read_text_absent _ _ E) as [e ->].
    rewrite filter_cons_True by done. done.
Qed.

Lemma combine_transcripts_none temp fs l :
  (forall i, i ∈ l -> exists_ fs (chunk_transcript temp i) = false) ->
  combine_transcripts temp fs l
  = ("", (fun i => Msg ("Warning: Transcript for chunk " +:+ pretty i +:+ " not found"))
           <$> l, None).
Proof.
  induction l as [|i l IH]; intros H; [done|].
  simpl. rewrite IH by (intros; apply H; set_solver).
  rewrite H by set_solver. done.
Qed.

Lemma final_not_below_temp t video : ¬ temp_dir t `prefix_of` final_transcript t video.
Proof.
  unfold temp_dir, final_transcript, output_dir, joinpath. intros [k Hk].
  rewrite <- !app_assoc in Hk. apply app_inv_head in Hk. simpl in Hk. discriminate Hk.
Qed.

Lemma final_not_fragment t video i :
  chunk_transcript (temp_dir t) i <> final_transcript t video.
Proof.
  intros H. apply (final_not_below_temp t video). rewrite <- H.
  etrans; apply below_temp.
Qed.

Lemma combine_transcripts_ext temp fs fs' l :
  (forall i, fs' !! chunk_transcript temp i = fs !! chunk_transcript temp i) ->
  combine_transcripts temp fs' l = combine_transcripts temp fs l.
Proof.
  intros H. induction l as [|i l IH]; [done|].
  simpl. unfold exists_, read_text. by rewrite H, IH.
Qed.

Lemma cleanup_temp_outside t fs q :
  ¬ temp_dir t `prefix_of` q -> (cleanup_temp t fs).1.1 !! q = fs !! q.
Proof.
  intros Hq. unfold cleanup_temp. destruct (cleanup t); [|done].
  destruct (if exists_ fs (temp_dir t) then rmtree fs (temp_dir t) else Ok fs)
    as [fs'|e] eqn:Hrm; [|done]. simpl.
  by apply (clear_lookup _ _ _ Hrm).
Qed.

Lemma cleanup_temp_final t fs video :
  (cleanup_temp t fs).1.1 !! final_transcript t video = fs !! final_transcript t video.
Proof. apply cleanup_temp_outside, final_not_below_temp. Qed.

(** Cleaning up does not raise when the temporary directory is a
    directory, or is not there. *)
Lemma cleanup_temp_ok t fs :
  (forall c, fs !! temp_dir t <> Some (File c)) -> (cleanup_temp t fs).2 = None.
Proof.
  intros H. unfold cleanup_temp, exists_, rmtree. destruct (cleanup t); [|done].
  destruct (fs !! temp_dir t) as [[|c]|] eqn:E; try done. by destruct (H c).
Qed.

(** What [finish_video] leaves at the final transcript. *)
Lemma finish_video_final t fs video N arrived fs1 :
  open_w fs (final_transcript t video) = Ok fs1 ->
  let r := combine_transcripts (temp_dir t) fs (range 1 (N + 1)) in
  let o := finish_video t fs video N arrived in
  let c := cleanup_temp t (flush fs1 (final_transcript t video) (Text r.1.1)) in
  o.1.1 !! final_transcript t video = Some (File (Text r.1.1))
  /\ (r.2 = None ->
      o = (c.1.1,
           report_failed (collect_results arrived)
           ++ [Msg ""; Msg "Combining transcripts..."] ++ r.1.2
           ++ [Msg "✓ Transcription complete!";
               Msg ("Output: " +:+ path_str (final_transcript t video)); Msg ""]
           ++ c.1.2,
           match c.2 with
           | None => PVReturned true
           | Some e => PVRaised e
           end)).
Proof.
  intros Ho r o c. subst o c. unfold finish_video. rewrite Ho.
  rewrite (combine_transcripts_ext _ fs fs1)
    by (intros i; eapply open_w_lookup; [done | apply final_not_fragment]).
  fold r. destruct r as [[written warnings] [e|]]; simpl.
  - split; [|done]. eapply flush_at. by eapply open_w_at.
  - destruct (cleanup_temp t _) as [[fs3 out3] r3] eqn:Hc. simpl. split.
    + replace fs3
        with (cleanup_temp t (flush fs1 (final_transcript t video) (Text written))).1.1
        by (by rewrite Hc).
      rewrite cleanup_temp_final. eapply flush_at. by eapply open_w_at.
    + intros _. by rewrite <- !app_assoc.
Qed.

(** The text a fragment contributes to the transcript: what a read in
    text mode gives. *)
Lemma combine_transcripts_text temp fs l :
  (forall i, i ∈ l ->
     fs !! chunk_transcript temp i = None
     \/ (exists s, fs !! chunk_transcript temp i = Some (File (Text s)))
     \/ (exists d, fs !! chunk_transcript temp i = Some (File (Json d)))) ->
  combine_transcripts temp fs l
  = (foldr (fun i acc => match fs !! chunk_transcript temp i with
                         | Some (File (Text s)) => universal_newlines s +:+ acc
                         | Some (File (Json d)) => json_dumps d +:+ acc
                         | _ => acc
                         end) "" l,
     (fun i => Msg ("Warning: Transcript for chunk " +:+ pretty i +:+ " not found"))
       <$> filter (fun i => exists_ fs (chunk_transcript temp i) = false) l,
     None).
Proof.
  intros H. rewrite combine_transcripts_spec.
  - f_equal. f_equal. clear H. induction l as [|i l IH]; [done|]. simpl.
    rewrite IH. unfold read_text.
    by destruct (fs !! chunk_transcript temp i) as [[|[s|d|m]]|].
  - intros i Hi He. unfold read_text. unfold exists_ in He.
    destruct (H i Hi) as [Hn|[[s ->]|[d ->]]]; [by rewrite Hn in He|eauto..].
Qed.

(** C2 (as amended): the final transcript holds the contents of the
    fragments that exist, as a read in text mode gives them (a carriage
    return, alone or followed by a line feed, is read as a line feed),
    concatenated for the chunks 1..N in ascending order, whatever the
    order in which the results of the workers arrived; for each absent
    fragment, in the same order, a warning naming the chunk is printed,
    and the job goes on to its end (no retry, no abort). *)
Theorem final_transcript_in_chunk_order t fs video N arrived :
  can_open fs (final_transcript t video) = true ->
  (forall c, fs !! temp_dir t <> Some (File c)) ->
  (forall i, 1 <= i <= N ->
     fs !! chunk_transcript (temp_dir t) i = None
     \/ (exists s, fs !! chunk_transcript (temp_dir t) i = Some (File (Text s)))
     \/ (exists d, fs !! chunk_transcript (temp_dir t) i = Some (File (Json d)))) ->
  let text :=
    foldr (fun i acc => match fs !! chunk_transcript (temp_dir t) i with
                        | Some (File (Text s)) => universal_newlines s +:+ acc
                        | Some (File (Json d)) => json_dumps d +:+ acc
                        | _ => acc
                        end) "" (range 1 (N + 1)) in
  let warnings :=
    (fun i => Msg ("Warning: Transcript for chunk " +:+ pretty i +:+ " not found"))
      <$> filter (fun i => exists_ fs (chunk_transcript (temp_dir t) i) = false)
                 (range 1 (N + 1)) in
  let c := cleanup_temp t (<[final_transcript t video := File (Text text)]> fs) in
  finish_video t fs video N arrived
  = (c.1.1,
     report_failed (collect_results arrived)
     ++ [Msg ""; Msg "Combining transcripts..."] ++ warnings
     ++ [Msg "✓ Transcription complete!";
         Msg ("Output: " +:+ path_str (final_transcript t video)); Msg ""]
     ++ c.1.2,
     PVReturned true)
  /\ c.1.1 !! final_transcript t video = Some (File (Text text)).
Proof.
  intros Ho%can_open_spec Htemp Hr text warnings c.
  destruct (finish_video_final t fs video N arrived _ Ho) as [Hfinal Heq].
  rewrite combine_transcripts_text in Hfinal, Heq
    by (intros i Hi%elem_of_range; apply Hr; lia).
  simpl in Hfinal, Heq. specialize (Heq eq_refl). rewrite flush_opened in Heq.
  fold text c in Heq. split.
  - rewrite Heq. f_equal. subst c. rewrite cleanup_temp_ok; [done|].
    intros c0. rewrite lookup_insert_ne; [apply Htemp|].
    intros H. apply (final_not_below_temp t video). by rewrite H.
  - subst c. rewrite cleanup_temp_final. apply lookup_insert_eq.
Qed.

Lemma final_transcript_in_chunk_order_witness :
  (finish_video two_chunks transcribed_fs demo_video 2
     [(2, true, None); (1, true, None)]).2 = PVReturned true.
Proof.
  destruct (final_transcript_in_chunk_order two_chunks transcribed_fs demo_video 2
              [(2, true, None); (1, true, None)]) as [Heq _].
  - vm_compute. reflexivity.
  - intros c. vm_compute. discriminate.
  - intros i Hi. right. left. assert (i = 1 \/ i = 2) as [-> | ->] by lia;
      eexists; vm_compute; reflexivity.
  - exact (f_equal snd Heq).
Defined.

(** C2 as stated fails for a fragment that holds a carriage return: the
    worker writes it as it is, the read in text mode turns it into a line
    feed, and the final transcript is not the content of the fragment. *)
Lemma carriage_return_not_copied :
  let sched := replicate 20 1 in
  let sp := split_video_into_chunks tools_ok one_chunk demo_fs demo_video 1 [1] in
  let st := pool_run (spawn_all (temp_dir one_chunk) (fun _ => whisper_cr) 1 (split_fs sp))
              sched in
  let o := process_video tools_ok (fun _ => whisper_cr) one_chunk demo_fs demo_video 1 1
             [1] sched in
  pool_done st = true
  /\ p_fs st !! chunk_transcript (temp_dir one_chunk) 1
     = Some (File (Text ("a" +:+ String CR "b" +:+ String LF "")))
  /\ pv_status_of o = PVReturned true
  /\ pv_fs o !! final_transcript one_chunk demo_video
     = Some (File (Text ("a" +:+ String LF "b" +:+ String LF "")))
  /\ "a" +:+ String LF "b" +:+ String LF "" <> "a" +:+ String CR "b" +:+ String LF "".
Proof. vm_compute. repeat split; try reflexivity. discriminate. Qed.

(** * Jobs in flight share the temporary directory (C7) *)

(** C7 at the failing input: two videos and two threads.  Both jobs are in
    flight at once; they use the same chunk files, progress records and
    fragment locations; and the split of the second job has removed the
    chunks of the first and put its own in their place, so that the
    workers of the first job are about to transcribe chunks of the second
    video. *)
Theorem jobs_share_temp_dir :
  exists st0 st1 st2,
    run_submit two_chunks two_videos_fs = Ok st0
    /\ j_video <$> r_jobs st0 = [video_a; video_b]
    /\ st1 = run_from tools_by_source (fun _ _ => whisper_ok) two_chunks st0
               (take 3 two_jobs_schedule)
    /\ st2 = run_from tools_by_source (fun _ _ => whisper_ok) two_chunks st0
               two_jobs_schedule
    /\ in_flight <$> r_jobs st2 = [true; true]
    /\ job_locations two_chunks video_a 1 = job_locations two_chunks video_b 1
    /\ job_chunk_files <$> r_jobs st2
       = [[chunk_file (temp_dir two_chunks) 1; chunk_file (temp_dir two_chunks) 2];
          [chunk_file (temp_dir two_chunks) 1; chunk_file (temp_dir two_chunks) 2]]
    /\ r_fs st1 !! chunk_file (temp_dir two_chunks) 1
       = Some (File (Media (Some (nearest 11))))
    /\ r_fs st2 !! chunk_file (temp_dir two_chunks) 1
       = Some (File (Media (Some (nearest 22)))).
Proof.
  eexists _, _, _. split; [vm_compute; reflexivity|].
  split; [vm_compute; reflexivity|]. split; [reflexivity|]. split; [reflexivity|].
  vm_compute. repeat split; reflexivity.
Qed.

(** * Stripping whitespace: [str.strip()] and the lines of a fragment *)

Lemma string_of_list_ascii_inj l1 l2 :
  String.string_of_list_ascii l1 = String.string_of_list_ascii l2 -> l1 = l2.
Proof.
  intros H. apply (f_equal String.list_ascii_of_string) in H.
  by rewrite !String.list_ascii_of_string_of_list_ascii in H.
Qed.

Lemma string_of_list_ascii_app l1 l2 :
  String.string_of_list_ascii (l1 ++ l2)
  = String.string_of_list_ascii l1 +:+ String.string_of_list_ascii l2.
Proof. induction l1 as [|a l1 IH]; [done|]. simpl. by rewrite IH. Qed.

Lemma string_app_assoc (a b c : string) : (a +:+ b) +:+ c = a +:+ (b +:+ c).
Proof.
  induction a as [|x a IH]; [done|].
  change (String x ((a +:+ b) +:+ c) = String x (a +:+ (b +:+ c))). by rewrite IH.
Qed.

Lemma drop_prefix_Some w : forall l l', drop_prefix w l = Some l' <-> l = w ++ l'.
Proof.
  induction w as [|a w IH]; intros l l'; simpl.
  - split; [by intros [= ->] | by intros ->].
  - destruct l as [|b l]; [split; done|].
    destruct (Ascii.eqb_spec a b) as [->|Hne].
    + rewrite IH. split; [by intros -> | by intros [= ->]].
    + split; [done | intros [= ? _]; congruence].
Qed.

Lemma drop_space_Some ws l l' :
  drop_space ws l = Some l' -> exists w, w ∈ ws /\ l = w ++ l'.
Proof.
  induction ws as [|w ws IH]; [done|]. simpl.
  destruct (drop_prefix w l) as [l0|] eqn:E.
  - intros [= <-]. apply drop_prefix_Some in E. exists w. split; [by left|done].
  - intros (w' & Hw' & Hl)%IH. exists w'. split; [by right|done].
Qed.

Lemma drop_space_None ws l :
  drop_space ws l = None -> forall w l', w ∈ ws -> l <> w ++ l'.
Proof.
  induction ws as [|w ws IH]; [intros _ w l' Hw; by apply elem_of_nil in Hw|]. simpl.
  destruct (drop_prefix w l) as [l0|] eqn:E; [done|].
  intros H w' l' [->|Hw']%elem_of_cons.
  - intros Hl. apply drop_prefix_Some in Hl. congruence.
  - by apply IH.
Qed.

Lemma drop_space_nil ws : (forall w, w ∈ ws -> w <> []) -> drop_space ws [] = None.
Proof.
  intros H. destruct (drop_space ws []) as [l'|] eqn:E; [|done].
  apply drop_space_Some in E as (w & Hw & Hl). symmetry in Hl.
  apply app_eq_nil in Hl as [-> _]. by destruct (H [] Hw).
Qed.

(** What [lstrip_from] removes is made of separators, and what it leaves
    does not begin with one. *)
Lemma lstrip_from_spec ws n : forall l,
  (forall w, w ∈ ws -> w <> []) -> (length l <= n)%nat ->
  exists b, blank_of ws b /\ l = b ++ lstrip_from ws n l
            /\ drop_space ws (lstrip_from ws n l) = None.
Proof.
  induction n as [|n IH]; intros l Hws Hn.
  - destruct l; [|simpl in Hn; lia]. exists []. split; [constructor|]. split; [done|].
    by apply drop_space_nil.
  - simpl. destruct (drop_space ws l) as [l'|] eqn:E.
    + destruct (drop_space_Some _ _ _ E) as (w & Hw & ->).
      destruct (IH l' Hws) as (b & Hb & Hl & Hd).
      { rewrite length_app in Hn. specialize (Hws w Hw). destruct w; [done|].
        simpl in Hn. lia. }
      exists (w ++ b). split; [by constructor|]. split; [|done].
      by rewrite <- app_assoc, <- Hl.
    + exists []. split; [constructor|]. done.
Qed.

Lemma blank_of_app ws a b : blank_of ws a -> blank_of ws b -> blank_of ws (a ++ b).
Proof.
  induction 1 as [|w l Hw Hl IH]; [done|]. intros Hb.
  rewrite <- app_assoc. constructor; [done|by apply IH].
Qed.

Lemma blank_of_reverse ws l : blank_of (reverse <$> ws) l -> blank_of ws (reverse l).
Proof.
  induction 1 as [|w' l Hw' Hl IH]; [constructor|].
  apply list_elem_of_fmap in Hw' as (w & -> & Hw).
  rewrite reverse_app, reverse_involutive. apply blank_of_app; [done|].
  rewrite <- (app_nil_r w). constructor; [done|constructor].
Qed.

Lemma utf8_nonempty c : utf8 c <> [].
Proof. unfold utf8. by repeat case_match. Qed.

Lemma whitespace_nonempty w : w ∈ whitespace -> w <> [].
Proof. intros (c & -> & _)%list_elem_of_fmap. apply utf8_nonempty. Qed.

Lemma reverse_whitespace_nonempty w : w ∈ reverse <$> whitespace -> w <> [].
Proof.
  intros (w0 & -> & Hw)%list_elem_of_fmap Hr. apply (whitespace_nonempty w0 Hw).
  apply (f_equal reverse) in Hr. by rewrite reverse_involutive in Hr.
Qed.

Lemma blank_of_string b : blank_of whitespace b -> blank (String.string_of_list_ascii b).
Proof.
  induction 1 as [|w l Hw Hl IH]; [constructor|].
  rewrite string_of_list_ascii_app. constructor; [|done].
  apply list_elem_of_fmap. eauto.
Qed.

Lemma blank_app a b : blank a -> blank b -> blank (a +:+ b).
Proof.
  induction 1 as [|w s Hw Hs IH]; [done|]. intros Hb.
  rewrite string_app_assoc. constructor; [done|by apply IH].
Qed.

(** [lstrip] and [rstrip] by what they remove and what they leave. *)
Lemma lstrip_spec s :
  exists l, blank l /\ s = l +:+ lstrip s
            /\ forall w t, w ∈ space_strings -> lstrip s <> w +:+ t.
Proof.
  unfold lstrip.
  destruct (lstrip_from_spec whitespace _ (String.list_ascii_of_string s)
              whitespace_nonempty (Nat.le_refl _)) as (b & Hb & Hl & Hd).
  exists (String.string_of_list_ascii b). split; [by apply blank_of_string|]. split.
  - rewrite <- string_of_list_ascii_app, <- Hl.
    by rewrite String.string_of_list_ascii_of_string.
  - intros w t (w0 & -> & Hw)%list_elem_of_fmap H.
    apply (drop_space_None _ _ Hd w0 (String.list_ascii_of_string t) Hw).
    apply string_of_list_ascii_inj.
    by rewrite string_of_list_ascii_app, String.string_of_list_ascii_of_string.
Qed.

Lemma rstrip_spec s :
  exists r, blank r /\ s = rstrip s +:+ r
            /\ forall w t, w ∈ space_strings -> rstrip s <> t +:+ w.
Proof.
  unfold rstrip.
  destruct (lstrip_from_spec (reverse <$> whitespace) _
              (reverse (String.list_ascii_of_string s))
              reverse_whitespace_nonempty (Nat.le_refl _)) as (b & Hb & Hl & Hd).
  exists (String.string_of_list_ascii (reverse b)). split; [|split].
  - by apply blank_of_string, blank_of_reverse.
  - rewrite <- string_of_list_ascii_app, <- reverse_app, <- Hl, reverse_involutive.
    by rewrite String.string_of_list_ascii_of_string.
  - intros w t (w0 & -> & Hw)%list_elem_of_fmap H.
    apply (drop_space_None _ _ Hd (reverse w0) (reverse (String.list_ascii_of_string t))).
    + apply list_elem_of_fmap. eauto.
    + rewrite <- reverse_app. apply (inj reverse). rewrite !reverse_involutive.
      apply string_of_list_ascii_inj.
      by rewrite string_of_list_ascii_app, String.string_of_list_ascii_of_string.
Qed.

(** [strip] takes away whitespace, at both ends, and all of it. *)
Lemma strip_spec s :
  exists l r, s = l +:+ strip s +:+ r /\ blank l /\ blank r /\ clean (strip s).
Proof.
  unfold strip. destruct (lstrip_spec s) as (l & Hl & Hs & Hleft).
  destruct (rstrip_spec (lstrip s)) as (r & Hr & Hm & Hright).
  exists l, r. split; [by rewrite <- Hm|]. split; [done|]. split; [done|].
  intros w t Hw. split; [|by apply Hright].
  intros H. apply (Hleft w (t +:+ r) Hw).
  by rewrite Hm, H, string_app_assoc.
Qed.

Lemma fragment_lines_spec segments : lines_of segments (fragment_lines segments).
Proof.
  unfold fragment_lines. induction segments as [|seg segs IH]; [constructor|].
  rewrite fmap_cons. destruct (strip_spec seg) as (l & r & Heq & Hl & Hr & Hc).
  destruct (decide (strip seg = "")) as [He|Hne].
  - rewrite filter_cons_False by (intros H; by apply H).
    apply lines_skip; [|done]. rewrite Heq, He. change ("" +:+ r) with r. by apply blank_app.
  - rewrite filter_cons_True by done.
    set (line := strip seg) in *. clearbody line. subst seg. by apply lines_keep.
Qed.

Lemma fragment_lines_clean_lines segments line :
  line ∈ fragment_lines segments -> line <> "" /\ clean line.
Proof.
  unfold fragment_lines. intros [Hne Hin]%list_elem_of_filter.
  apply list_elem_of_fmap in Hin as (seg & -> & _). split; [done|].
  by destruct (strip_spec seg) as (_ & _ & _ & _ & _ & ?).
Qed.

(** * The splitter: what a split leaves behind *)

Lemma parent_joinpath p name : parent (p /: name) = p.
Proof. unfold parent, joinpath. apply removelast_last. Qed.

Lemma temp_dir_not_chunk_file temp i : temp <> chunk_file temp i.
Proof.
  intros H. apply (f_equal length) in H. rewrite chunk_file_length in H. lia.
Qed.

Lemma is_dir_ext fs fs' p : fs' !! p = fs !! p -> is_dir fs' p = is_dir fs p.
Proof. unfold is_dir. intros H. destruct p; [done|]. by rewrite H. Qed.

Lemma exists_ext fs fs' p : fs' !! p = fs !! p -> exists_ fs' p = exists_ fs p.
Proof. unfold exists_. by intros ->. Qed.

Lemma is_dir_lookup fs p : fs !! p = Some Dir -> is_dir fs p = true.
Proof. unfold is_dir. destruct p; [done|]. by intros ->. Qed.

Lemma is_dir_spec fs p : is_dir fs p = true <-> p = [] \/ fs !! p = Some Dir.
Proof.
  unfold is_dir. destruct p; [naive_solver|].
  destruct (fs !! _) as [[|]|]; naive_solver.
Qed.

Lemma mkdir_from_is_dir rest : forall fs base fs',
  is_dir fs base = true -> mkdir_from fs base rest = Ok fs' ->
  is_dir fs' (base ++ rest) = true.
Proof.
  induction rest as [|name rest IH]; intros fs base fs' Hb; simpl.
  - intros [= <-]. by rewrite app_nil_r.
  - replace (base ++ name :: rest) with ((base /: name) ++ rest)
      by (unfold joinpath; by rewrite <- app_assoc).
    destruct (fs !! (base /: name)) as [[|c]|] eqn:E; [| done |]; apply IH.
    + by apply is_dir_lookup.
    + apply is_dir_lookup. by rewrite lookup_insert_eq.
Qed.

Lemma mkdir_parents_is_dir fs p fs' : mkdir_parents fs p = Ok fs' -> is_dir fs' p = true.
Proof. intros H. by apply (mkdir_from_is_dir p fs [] fs'). Qed.

Lemma verify_chunks_exist tl temp fs indices i :
  (verify_chunks tl temp fs indices).2 = true -> i ∈ indices ->
  exists_ fs (chunk_file temp i) = true.
Proof.
  intros Hv Hi. destruct (exists_ fs (chunk_file temp i)) eqn:E; [done|].
  by rewrite (verify_chunks_missing tl temp fs indices i Hi E) in Hv.
Qed.

(** What [split_video_into_chunks] does once the duration is known. *)
Lemma split_unfold tl t fs video N completion d :
  (get_video_duration tl fs video).1 = Some d ->
  let sp := split_video_into_chunks tl t fs video N completion in
  let cleared := if exists_ fs (temp_dir t) then rmtree fs (temp_dir t) else Ok fs in
  (exists e, split_result sp = Raise e /\ split_fs sp = fs
             /\ (chunk_duration d N = Raise e \/ cleared = Raise e))
  \/ (exists e fs1, split_result sp = Raise e /\ cleared = Ok fs1
                    /\ mkdir_parents fs1 (temp_dir t) = Raise e /\ split_fs sp = fs1)
  \/ (exists cd fs1 fs2,
        chunk_duration d N = Ok cd /\ cleared = Ok fs1
        /\ mkdir_parents fs1 (temp_dir t) = Ok fs2
        /\ ((N <= 0 /\ split_fs sp = fs2 /\ exists e, split_result sp = Raise e)
            \/ (1 <= N
                /\ split_fs sp
                   = (run_create_chunks tl video (temp_dir t) cd N completion fs2).1
                /\ (split_result sp = Ok true ->
                    (collect_chunk_results
                       (run_create_chunks tl video (temp_dir t) cd N completion fs2).2).2
                    = Ok true
                    /\ (verify_chunks tl (temp_dir t) (split_fs sp) (range 1 (N + 1))).2
                       = true)))).
Proof.
  intros Hd. unfold split_video_into_chunks.
  destruct (get_video_duration tl fs video) as [dur err]. simpl in Hd. subst dur.
  destruct (chunk_duration d N) as [cd|e] eqn:Hcd; simpl;
    [|left; exists e; auto].
  destruct (if exists_ fs (temp_dir t) then rmtree fs (temp_dir t) else Ok fs)
    as [fs1|e] eqn:Hrm; simpl; [|left; exists e; auto].
  right. destruct (mkdir_parents _ (temp_dir t)) as [fs2|e] eqn:Hm; simpl;
    [|left; exists e, fs1; auto].
  right. exists cd, fs1, fs2. split; [done|]. split; [done|]. split; [done|].
  destruct (N <=? 0) eqn:HN; simpl.
  { left. apply Z.leb_le in HN. split; [lia|]. eauto. }
  right. apply Z.leb_gt in HN. split; [lia|].
  destruct (run_create_chunks tl video (temp_dir t) cd N completion fs2) as [fs3 rs].
  destruct (collect_chunk_results rs) as [out3 [[|]|e]] eqn:Hc; simpl; [|done..].
  destruct (verify_chunks tl (temp_dir t) fs3 (range 1 (N + 1))) as [out4 ok] eqn:Hv. simpl.
  split; [done|]. intros [= ->]. by rewrite Hc, Hv.
Qed.

Lemma split_ok_duration tl t fs video N completion :
  split_result (split_video_into_chunks tl t fs video N completion) = Ok true ->
  exists d, (get_video_duration tl fs video).1 = Some d.
Proof.
  unfold split_video_into_chunks.
  destruct (get_video_duration tl fs video) as [[d|] err]; simpl; [eauto|done].
Qed.

Lemma split_ok_facts tl t fs video N completion :
  let sp := split_video_into_chunks tl t fs video N completion in
  split_result sp = Ok true ->
  1 <= N
  /\ split_fs sp !! temp_dir t = Some Dir
  /\ forall i, 1 <= i <= N -> exists_ (split_fs sp) (chunk_file (temp_dir t) i) = true.
Proof.
  intros sp Hok. destruct (split_ok_duration _ _ _ _ _ _ Hok) as [d Hd].
  destruct (split_unfold tl t fs video N completion d Hd)
    as [(e & He & _)|[(e & fs1 & He & _)|(cd & fs1 & fs2 & Hcd & Hrm & Hm & H)]];
    fold sp in He || fold sp in H; try congruence.
  destruct H as [(_ & _ & e & He)|(HN & Hfs & H)]; [congruence|].
  destruct (H Hok) as [_ Hv]. split; [done|]. split.
  - rewrite Hfs, run_create_chunks_frame by (intros i; apply temp_dir_not_chunk_file).
    apply mkdir_parents_is_dir, is_dir_spec in Hm as [Hm|Hm]; [|done].
    unfold temp_dir, joinpath in Hm. by destruct (script_dir t).
  - intros i Hi. eapply verify_chunks_exist; [done|]. apply elem_of_range. lia.
Qed.

(** X1: a split that reports success leaves the temporary directory in place
    with a chunk file for every index from 1 to the number of chunks,
    which is at least 1. *)
Theorem split_success_chunks_exist tl t fs video N completion :
  let sp := split_video_into_chunks tl t fs video N completion in
  split_result sp = Ok true ->
  1 <= N
  /\ split_fs sp !! temp_dir t = Some Dir
  /\ forall i, 1 <= i <= N -> exists_ (split_fs sp) (chunk_file (temp_dir t) i) = true.
Proof. apply split_ok_facts. Qed.

Lemma split_success_chunks_exist_witness :
  let sp := split_video_into_chunks tools_ok two_chunks demo_fs demo_video 2 [2; 1] in
  split_result sp = Ok true
  /\ exists_ (split_fs sp) (chunk_file (temp_dir two_chunks) 2) = true.
Proof.
  assert (H : split_result (split_video_into_chunks tools_ok two_chunks demo_fs
                              demo_video 2 [2; 1]) = Ok true)
    by (vm_compute; reflexivity).
  split; [exact H|].
  apply (split_success_chunks_exist tools_ok two_chunks demo_fs demo_video 2 [2; 1] H). lia.
Defined.

Lemma split_lookup_outside tl t fs video N completion q :
  ¬ temp_dir t `prefix_of` q ->
  let sp := split_video_into_chunks tl t fs video N completion in
  split_fs sp !! q = fs !! q
  \/ (fs !! q = None /\ split_fs sp !! q = Some Dir /\ q `prefix_of` temp_dir t).
Proof.
  intros Hq. unfold split_video_into_chunks.
  destruct (get_video_duration tl fs video) as [[d|] err]; [|by left].
  destruct (chunk_duration d N) as [cd|e]; [|by left].
  destruct (if exists_ fs (temp_dir t) then rmtree fs (temp_dir t) else Ok fs)
    as [fs1|e] eqn:Hrm; [|by left].
  assert (H1 : fs1 !! q = fs !! q) by (by apply (clear_lookup _ _ _ Hrm)).
  destruct (mkdir_parents fs1 (temp_dir t)) as [fs2|e] eqn:Hm; [|by left].
  assert (H2 : fs2 !! q = fs !! q
               \/ (fs !! q = None /\ fs2 !! q = Some Dir /\ q `prefix_of` temp_dir t)).
  { rewrite <- H1. apply mkdir_parents_lookup, Hm. }
  destruct (N <=? 0); [done|].
  destruct (run_create_chunks tl video (temp_dir t) cd N completion fs2) as [fs3 rs] eqn:Hr.
  assert (H3 : fs3 !! q = fs2 !! q).
  { replace fs3 with (run_create_chunks tl video (temp_dir t) cd N completion fs2).1
      by (by rewrite Hr).
    apply run_create_chunks_frame. intros j ->. apply Hq, below_temp. }
  destruct (collect_chunk_results rs) as [out3 [[|]|e]];
    [destruct (verify_chunks _ _ _ _)|..]; simpl; by rewrite H3.
Qed.

(** X2: whatever its outcome, a split changes nothing outside the temporary
    directory: an entry that is not the directory or below it is as it
    was, except that a missing ancestor of the directory is created. *)
Theorem split_outside_untouched tl t fs video N completion q :
  ¬ temp_dir t `prefix_of` q ->
  let sp := split_video_into_chunks tl t fs video N completion in
  split_fs sp !! q = fs !! q
  \/ (fs !! q = None /\ split_fs sp !! q = Some Dir /\ q `prefix_of` temp_dir t).
Proof. apply split_lookup_outside. Qed.

Lemma split_outside_untouched_witness :
  split_fs (split_video_into_chunks tools_ok two_chunks demo_fs demo_video 2 [2; 1])
    !! demo_video = Some (File (Media (Some (nearest 300)))).
Proof.
  destruct (split_outside_untouched tools_ok two_chunks demo_fs demo_video 2 [2; 1]
              demo_video) as [H|(H & _)].
  - vm_compute. intros [k Hk]. discriminate Hk.
  - rewrite H. reflexivity.
  - vm_compute in H. discriminate H.
Defined.

(** ** The order in which the chunks are cut *)

Lemma run_create_chunks_cons tl video temp cd N i rest fs :
  run_create_chunks tl video temp cd N (i :: rest) fs
  = ((run_create_chunks tl video temp cd N rest
        (create_chunk tl video temp cd N fs i).1).1,
     (create_chunk tl video temp cd N fs i).2
     :: (run_create_chunks tl video temp cd N rest
           (create_chunk tl video temp cd N fs i).1).2).
Proof.
  simpl. destruct (create_chunk tl video temp cd N fs i) as [fs1 r]. simpl.
  by destruct (run_create_chunks tl video temp cd N rest fs1).
Qed.

(** What a [create_chunk] call reports does not depend on the files. *)
Lemma create_chunk_result tl video temp cd N fs fs' i :
  (create_chunk tl video temp cd N fs i).2 = (create_chunk tl video temp cd N fs' i).2.
Proof. unfold create_chunk. destruct (chunk_cmd _ _ _ _ _); reflexivity. Qed.

(** Two [create_chunk] calls commute. *)
Lemma create_chunk_comm tl video temp cd N fs i j :
  (create_chunk tl video temp cd N (create_chunk tl video temp cd N fs i).1 j).1
  = (create_chunk tl video temp cd N (create_chunk tl video temp cd N fs j).1 i).1.
Proof.
  destruct (decide (i = j)) as [->|Hij]; [done|].
  assert (Hne : chunk_file temp i <> chunk_file temp j)
    by (intros H; by apply chunk_file_inj in H).
  unfold create_chunk.
  destruct (chunk_cmd video temp cd N i) as [ci|ei]; [|done].
  destruct (chunk_cmd video temp cd N j) as [cj|ej]; [|done]. simpl.
  unfold chunk_file in *. rewrite !parent_joinpath.
  set (oi := temp /: ("chunk_" +:+ pretty i +:+ ".mp4")) in *.
  set (oj := temp /: ("chunk_" +:+ pretty j +:+ ".mp4")) in *.
  assert (Ht : forall o c (m : filesystem), o <> temp \/ temp = [] ->
            is_dir (<[o := File c]> m) temp = is_dir m temp).
  { intros o c m [Ho| ->]; [|done]. apply is_dir_ext. by rewrite lookup_insert_ne. }
  assert (Hoi : oi <> temp \/ temp = []).
  { left. intros H. apply (f_equal length) in H. subst oi.
    rewrite joinpath_length in H. lia. }
  assert (Hoj : oj <> temp \/ temp = []).
  { left. intros H. apply (f_equal length) in H. subst oj.
    rewrite joinpath_length in H. lia. }
  destruct (ff_writes (ffmpeg tl ci)) as [wi|], (ff_writes (ffmpeg tl cj)) as [wj|];
    try done.
  destruct (fs !! oi) as [[|xi]|] eqn:Ei, (fs !! oj) as [[|xj]|] eqn:Ej;
    destruct (is_dir fs temp) eqn:Ed;
    rewrite ?Ei, ?Ej, ?lookup_insert_ne, ?Ei, ?Ej, ?Ht, ?Ed, ?Ei, ?Ej by done;
    try done; by apply insert_insert_ne.
Qed.

Lemma run_create_chunks_perm tl video temp cd N c1 c2 :
  c1 ≡ₚ c2 -> forall fs,
  (run_create_chunks tl video temp cd N c1 fs).1
  = (run_create_chunks tl video temp cd N c2 fs).1
  /\ (run_create_chunks tl video temp cd N c1 fs).2
     ≡ₚ (run_create_chunks tl video temp cd N c2 fs).2.
Proof.
  induction 1 as [|i c1 c2 _ IH|i j c|c1 c2 c3 _ IH1 _ IH2]; intros fs.
  - done.
  - rewrite !run_create_chunks_cons. simpl. destruct (IH (create_chunk tl video temp cd N fs i).1)
      as [-> ->]. done.
  - rewrite !run_create_chunks_cons. simpl. rewrite create_chunk_comm. split; [done|].
    rewrite (create_chunk_result _ _ _ _ _ (create_chunk tl video temp cd N fs j).1 fs i).
    rewrite (create_chunk_result _ _ _ _ _ (create_chunk tl video temp cd N fs i).1 fs j).
    apply Permutation_swap.
  - destruct (IH1 fs) as [-> ->]. apply IH2.
Qed.

Lemma collect_chunk_results_ok rs :
  (collect_chunk_results rs).2 = Ok true
  <-> Forall (fun r => exists i e, r = Ok (i, true, e)) rs.
Proof.
  induction rs as [|[[[i s] e]|e] rs IH]; simpl.
  - split; [by constructor | done].
  - destruct s; simpl.
    + rewrite IH. split; [intros H; constructor; eauto | by inversion 1].
    + split; [done|]. inversion 1 as [|?? (i' & e' & ?) _]. done.
  - split; [done|]. inversion 1 as [|?? (i' & e' & ?) _]. done.
Qed.

Lemma collect_chunk_results_out rs :
  (collect_chunk_results rs).2 = Ok true -> (collect_chunk_results rs).1 = [].
Proof.
  induction rs as [|[[[i s] e]|e] rs IH]; simpl; [done| |done].
  destruct s; simpl; [done|done].
Qed.

(** X3: the chunks are cut by concurrent threads; when the split succeeds, the
    order in which the threads finish makes no difference to what it
    leaves, prints and returns. *)
Theorem split_order_independent tl t fs video N c1 c2 :
  c1 ≡ₚ c2 ->
  split_result (split_video_into_chunks tl t fs video N c1) = Ok true ->
  split_video_into_chunks tl t fs video N c2 = split_video_into_chunks tl t fs video N c1.
Proof.
  intros Hp. unfold split_video_into_chunks.
  destruct (get_video_duration tl fs video) as [[d|] err]; [|done].
  destruct (chunk_duration d N) as [cd|e]; [|done].
  destruct (if exists_ fs (temp_dir t) then rmtree fs (temp_dir t) else Ok fs)
    as [fs1|e]; [|done].
  destruct (mkdir_parents _ (temp_dir t)) as [fs2|e]; [|done].
  destruct (N <=? 0); [done|].
  destruct (run_create_chunks_perm tl video (temp_dir t) cd N c1 c2 Hp fs2) as [Hfs Hrs].
  destruct (run_create_chunks tl video (temp_dir t) cd N c1 fs2) as [fs3 rs1].
  destruct (run_create_chunks tl video (temp_dir t) cd N c2 fs2) as [fs3' rs2].
  simpl in Hfs, Hrs. subst fs3'.
  destruct (collect_chunk_results rs1) as [out1 r1] eqn:H1.
  destruct r1 as [[|]|e]; simpl; [|done..].
  assert (H2 : (collect_chunk_results rs2).2 = Ok true).
  { apply collect_chunk_results_ok. rewrite <- Hrs. apply collect_chunk_results_ok.
    by rewrite H1. }
  pose proof (collect_chunk_results_out rs2 H2) as H2'.
  assert (H1' : out1 = []).
  { pose proof (collect_chunk_results_out rs1) as H. rewrite H1 in H. by apply H. }
  destruct (collect_chunk_results rs2) as [out2 r2]. simpl in H2, H2'. subst.
  by destruct (verify_chunks _ _ _ _).
Qed.

Lemma split_order_independent_witness :
  split_video_into_chunks tools_ok two_chunks demo_fs demo_video 2 [1; 2]
  = split_video_into_chunks tools_ok two_chunks demo_fs demo_video 2 [2; 1].
Proof.
  apply split_order_independent.
  - apply Permutation_swap.
  - vm_compute. reflexivity.
Defined.

(** ** A split starts from an empty temporary directory *)

Lemma well_formed_absent_below fs p l :
  well_formed fs -> p <> [] -> fs !! p = None -> fs !! (p ++ l) = None.
Proof.
  intros Hwf Hp Hnone. induction l as [|name l IH] using rev_ind.
  - by rewrite app_nil_r.
  - destruct (fs !! (p ++ l ++ [name])) as [x|] eqn:E; [|done].
    apply Hwf in E. simpl in E. rewrite app_assoc in E.
    change ((p ++ l) ++ [name]) with ((p ++ l) /: name) in E.
    rewrite parent_joinpath in E. apply is_dir_spec in E as [E|E].
    + apply app_eq_nil in E as [? _]. done.
    + congruence.
Qed.

Lemma create_chunk_lookup tl video temp cd N fs i q :
  (create_chunk tl video temp cd N fs i).1 !! q = fs !! q
  \/ (q = chunk_file temp i
      /\ exists c, (create_chunk tl video temp cd N fs i).1 !! q = Some (File c)).
Proof.
  destruct (decide (q = chunk_file temp i)) as [->|Hne];
    [|left; by apply create_chunk_frame].
  unfold create_chunk. destruct (chunk_cmd _ _ _ _ _); [|by left]. simpl.
  destruct (ff_writes _) as [c0|]; [|by left].
  destruct (fs !! chunk_file temp i) as [[|c1]|] eqn:E; [by left| |];
    (destruct (is_dir _ _); [right; rewrite lookup_insert_eq; eauto | by left]).
Qed.

Lemma run_create_chunks_lookup tl video temp cd N completion q : forall fs,
  (run_create_chunks tl video temp cd N completion fs).1 !! q = fs !! q
  \/ exists i c, i ∈ completion /\ q = chunk_file temp i
       /\ (run_create_chunks tl video temp cd N completion fs).1 !! q = Some (File c).
Proof.
  induction completion as [|i completion IH]; intros fs; [by left|].
  rewrite run_create_chunks_cons. simpl.
  destruct (IH (create_chunk tl video temp cd N fs i).1) as [->|(j & c & Hj & -> & Hc)].
  - destruct (create_chunk_lookup tl video temp cd N fs i q) as [?|[-> [c Hc]]]; [by left|].
    right. exists i, c. split; [by left|]. done.
  - right. exists j, c. split; [by right|]. done.
Qed.

Lemma split_only_chunks tl t fs video N completion q x :
  well_formed fs ->
  let sp := split_video_into_chunks tl t fs video N completion in
  split_result sp = Ok true ->
  temp_dir t `prefix_of` q -> q <> temp_dir t ->
  split_fs sp !! q = Some x ->
  exists i c, i ∈ completion /\ q = chunk_file (temp_dir t) i /\ x = File c.
Proof.
  intros Hwf sp Hok Hq Hne Hx. destruct (split_ok_duration _ _ _ _ _ _ Hok) as [d Hd].
  destruct (split_unfold tl t fs video N completion d Hd)
    as [(e & He & _)|[(e & fs1 & He & _)|(cd & fs1 & fs2 & Hcd & Hrm & Hm & H)]];
    fold sp in He || fold sp in H; try congruence.
  destruct H as [(_ & _ & e & He)|(HN & Hfs & _)]; [congruence|].
  assert (H1 : fs1 !! q = None).
  { destruct (exists_ fs (temp_dir t)) eqn:E.
    - by eapply rmtree_lookup_below.
    - injection Hrm as <-. apply exists_false in E.
      destruct Hq as [l ->]. apply well_formed_absent_below; try done.
      unfold temp_dir, joinpath. by destruct (script_dir t). }
  assert (H2 : fs2 !! q = None).
  { destruct (mkdir_parents_lookup _ _ _ q Hm) as [->|(_ & _ & Hp)]; [done|].
    destruct Hne. by apply (anti_symm prefix). }
  rewrite Hfs in Hx.
  destruct (run_create_chunks_lookup tl video (temp_dir t) cd N completion q fs2)
    as [E|(i & c & Hi & -> & E)]; [congruence|].
  exists i, c. split; [done|]. split; [done|]. congruence.
Qed.

(** X4: whatever the temporary directory held before (the chunks, progress
    records and fragments of an earlier job), after a split that reports
    success it holds nothing but chunk files the split has cut. *)
Theorem split_leaves_only_chunks tl t fs video N completion q x :
  well_formed fs ->
  let sp := split_video_into_chunks tl t fs video N completion in
  split_result sp = Ok true ->
  temp_dir t `prefix_of` q -> q <> temp_dir t ->
  split_fs sp !! q = Some x ->
  exists i c, i ∈ completion /\ q = chunk_file (temp_dir t) i /\ x = File c.
Proof. apply split_only_chunks. Qed.

Lemma demo_fs_well_formed : well_formed demo_fs.
Proof. unfold well_formed. apply (bool_decide_unpack _). vm_compute. reflexivity. Qed.

Lemma split_leaves_only_chunks_witness :
  split_fs (split_video_into_chunks tools_ok two_chunks demo_fs demo_video 2 [2; 1])
    !! progress_file (temp_dir two_chunks) 1 = None.
Proof.
  destruct (split_fs _ !! progress_file (temp_dir two_chunks) 1) as [x|] eqn:Hx; [|done].
  exfalso.
  destruct (split_leaves_only_chunks tools_ok two_chunks demo_fs demo_video 2 [2; 1]
              (progress_file (temp_dir two_chunks) 1) x) as (i & c & _ & H & _).
  - apply demo_fs_well_formed.
  - vm_compute. reflexivity.
  - apply below_temp.
  - intros H. apply (f_equal length) in H. vm_compute in H. discriminate H.
  - exact Hx.
  - by apply progress_file_not_chunk_file in H.
Defined.

(** * What the workers report *)

(** A step of a worker that ends in [WReturn]: the worker had returned
    already, it has completed, or it has failed. *)
Lemma worker_step_return fs w r :
  w_pc (worker_step fs w).1.2 = WReturn r ->
  w_pc w = WReturn r
  \/ (w_pc w = WComplete /\ w_pending w = None /\ r = (w_chunk w, true, None))
  \/ exists e, r = (w_chunk w, false, Some e).
Proof.
  unfold worker_step. destruct (w_pending w) eqn:Hp; [by left|].
  destruct (w_pc w) as [| | | | |bar calls|segs|segs|segs|segs| |r0] eqn:Hpc; simpl;
    try (write_cases; intros [= <-]; eauto 6; fail).
  - destruct (_ && _); write_cases; intros [= <-]; eauto.
  - destruct (w_temp_dir w); [destruct (gate_open _ _)|]; simpl; rewrite ?Hpc; done.
  - destruct (load_raises _); simpl; intros [= <-]; eauto.
  - destruct calls as [|[t|k|] calls]; simpl.
    + destruct (transcribe_result _); simpl; intros [= <-]; eauto.
    + unfold tqdm_write_progress. destruct (t =? 0); simpl; [done|].
      write_cases; intros [= <-]; eauto.
    + destruct bar as [[n t]|]; simpl; [|done].
      unfold tqdm_write_progress. destruct (t =? 0); simpl; [done|].
      write_cases; intros [= <-]; eauto.
    + destruct bar as [[n t]|]; simpl; [|done].
      unfold tqdm_write_progress. destruct (t =? 0); simpl; [done|].
      write_cases; intros [= <-]; eauto.
  - destruct (mkdir_parents _ _); simpl; intros [= <-]; eauto.
  - destruct (open_w _ _); simpl; intros [= <-]; eauto.
  - destruct (write_budget _); [destruct (_ <? _)%nat|]; simpl; intros [= <-]; eauto.
  - rewrite Hpc. intros [= <-]. by left.
Qed.

Lemma worker_step_reported fs w : well_reported w -> well_reported (worker_step fs w).1.2.
Proof.
  intros Hw c s e H. destruct (worker_step_static fs w) as (Hc & _).
  rewrite Hc. apply worker_step_return in H as [H|[(_ & _ & [= -> -> ->])|[e' [= -> -> ->]]]].
  - by apply Hw.
  - done.
  - split; [done|]. split; done.
Qed.

Lemma arrivals_app l1 l2 : arrivals (l1 ++ l2) = arrivals l1 ++ arrivals l2.
Proof. unfold arrivals. apply omap_app. Qed.

Lemma elem_of_arrivals log r : r ∈ arrivals log <-> EvResult r ∈ log.
Proof.
  unfold arrivals. rewrite list_elem_of_omap. split.
  - intros (ev & Hev & H). destruct ev; try done. by injection H as ->.
  - intros H. by exists (EvResult r).
Qed.

Lemma worker_step_no_result fs w : arrivals (worker_step fs w).2 = [].
Proof.
  destruct (arrivals _) as [|r l] eqn:E; [done|].
  assert (Hr : r ∈ arrivals (worker_step fs w).2) by (rewrite E; by left).
  apply elem_of_arrivals, worker_step_events in Hr as [[? _]|[? _]]; done.
Qed.

(** A step of the pool, with the result it reports. *)
Lemma pool_step_log st i w :
  1 <= i -> p_workers st !! Z.to_nat (i - 1) = Some w -> finished w = false ->
  let w' := (worker_step (p_fs st) w).1.2 in
  arrivals (p_log (pool_step st i))
  = arrivals (p_log st)
    ++ (if finished w' then match w_pc w' with WReturn r => [r] | _ => [] end else []).
Proof.
  intros Hi Hw Hf. unfold pool_step. destruct (Z.ltb_spec i 1); [lia|].
  rewrite Hw, Hf. pose proof (worker_step_no_result (p_fs st) w) as Hn.
  destruct (worker_step (p_fs st) w) as [[fs' w'] evs]. simpl in *.
  rewrite !arrivals_app, Hn. simpl.
  destruct (finished w'); [|done]. by destruct (w_pc w').
Qed.

Lemma finished_return w : finished w = true -> exists r, w_pc w = WReturn r.
Proof. unfold finished. destruct (w_pc w); try done. eauto. Qed.

Lemma results_inv_step temp engine st i :
  wf_pool temp engine st -> results_inv st -> results_inv (pool_step st i).
Proof.
  intros Hwf (Hlog & Hnd & Hrep).
  destruct (pool_step_cases st i) as [->|(w & Hi & Hw & Hf & Hfs & Hws & _)]; [done|].
  pose proof (pool_step_log st i w Hi Hw Hf) as Harr. simpl in Harr.
  set (k := Z.to_nat (i - 1)) in *.
  set (w' := (worker_step (p_fs st) w).1.2) in *.
  assert (Hk : (k < length (p_workers st))%nat) by (by eapply lookup_lt_Some).
  assert (Hw' : well_reported w') by (apply worker_step_reported; eauto).
  assert (Hc' : w_chunk w' = Z.of_nat k + 1).
  { unfold w'. destruct (worker_step_static (p_fs st) w) as (-> & _). by apply (Hwf k w). }
  assert (Hfresh : forall s e, (Z.of_nat k + 1, s, e) ∉ arrivals (p_log st)).
  { intros s e (k0 & w0 & Hw0 & Hf0 & Hpc0)%elem_of_arrivals%Hlog.
    destruct (Hrep _ _ Hw0 _ _ _ Hpc0) as [Hc0 _].
    destruct (Hwf _ _ Hw0) as (Hc0' & _). assert (k0 = k) as -> by lia.
    congruence. }
  split; [|split].
  - intros r. rewrite <- elem_of_arrivals, Harr, elem_of_app, elem_of_arrivals, Hlog, Hws.
    split.
    + intros [(k0 & w0 & Hw0 & Hf0 & Hpc0)|Hr].
      * exists k0, w0. split; [|done].
        rewrite list_lookup_insert_ne; [done|]. intros <-. congruence.
      * exists k, w'. rewrite list_lookup_insert_eq by done.
        destruct (finished w') eqn:F; [|by apply elem_of_nil in Hr].
        destruct (finished_return _ F) as [r' Hr']. rewrite Hr' in Hr |- *.
        apply list_elem_of_singleton in Hr as ->. done.
    + intros (k0 & w0 & Hw0 & Hf0 & Hpc0).
      destruct (decide (k0 = k)) as [->|Hne].
      * rewrite list_lookup_insert_eq in Hw0 by done. injection Hw0 as <-.
        right. rewrite Hf0, Hpc0. by left.
      * rewrite list_lookup_insert_ne in Hw0 by done. left. eauto.
  - rewrite Harr, !fmap_app. apply NoDup_app. split; [done|]. split; [|].
    + intros c Hc. destruct (finished w') eqn:F; [|by intros ?%elem_of_nil].
      destruct (finished_return _ F) as [[[c' s'] e'] Hr']. rewrite Hr'. simpl.
      intros ->%list_elem_of_singleton.
      destruct (Hw' _ _ _ Hr') as [-> _]. rewrite Hc' in Hc.
      apply list_elem_of_fmap in Hc as ([c0 s0] & Hc0 & Hin). simpl in Hc0. subst c0.
      apply list_elem_of_fmap in Hin as ([[c1 s1] e1] & [= <- <-] & Hin).
      by apply Hfresh in Hin.
    + destruct (finished w'); [|constructor]. destruct (w_pc w'); simpl; try constructor.
      * set_solver.
      * constructor.
  - intros k0 w0. rewrite Hws. intros Hw0.
    destruct (decide (k0 = k)) as [->|Hne].
    + rewrite list_lookup_insert_eq in Hw0 by done. by injection Hw0 as <-.
    + rewrite list_lookup_insert_ne in Hw0 by done. eauto.
Qed.

Lemma spawn_all_results_inv temp engine N fs : results_inv (spawn_all temp engine N fs).
Proof.
  split; [|split].
  - intros r. split.
    + simpl. intros (i & H & _)%list_elem_of_fmap. done.
    + intros (k & w & Hw & Hf & _). simpl in Hw. rewrite list_lookup_fmap in Hw.
      destruct (range 1 (N + 1) !! k); [|done]. by injection Hw as <-.
  - replace (arrivals (p_log (spawn_all temp engine N fs))) with (@nil (Z * bool * option string));
      [constructor|].
    simpl. unfold arrivals. induction (range 1 (N + 1)) as [|i l IH]; [done|]. simpl. done.
  - intros k w Hw. simpl in Hw. rewrite list_lookup_fmap in Hw.
    destruct (range 1 (N + 1) !! k); [|done]. injection Hw as <-. intros c s e H. done.
Qed.

Lemma pool_run_results_inv temp engine N fs sched :
  results_inv (pool_run (spawn_all temp engine N fs) sched).
Proof.
  induction sched as [|i sched IH] using rev_ind; [apply spawn_all_results_inv|].
  rewrite pool_run_snoc. eapply results_inv_step; [|done].
  apply pool_run_wf, spawn_all_wf.
Qed.

Lemma pool_step_length st i : length (p_workers (pool_step st i)) = length (p_workers st).
Proof.
  destruct (pool_step_cases st i) as [->|(w & _ & _ & _ & _ & -> & _)]; [done|].
  by rewrite length_insert.
Qed.

Lemma pool_run_length temp engine N fs sched :
  length (p_workers (pool_run (spawn_all temp engine N fs) sched)) = Z.to_nat N.
Proof.
  induction sched as [|i sched IH] using rev_ind.
  - simpl. rewrite length_fmap, range_length. f_equal. lia.
  - by rewrite pool_run_snoc, pool_step_length.
Qed.

(** The worker of chunk [c], when [c] is one of the chunks of the job. *)
Lemma pool_run_worker temp engine N fs sched c :
  1 <= c <= N ->
  exists w, p_workers (pool_run (spawn_all temp engine N fs) sched) !! Z.to_nat (c - 1)
            = Some w /\ w_chunk w = c.
Proof.
  intros Hc.
  destruct (lookup_lt_is_Some_2 (p_workers (pool_run (spawn_all temp engine N fs) sched))
              (Z.to_nat (c - 1))) as [w Hw].
  { rewrite pool_run_length. lia. }
  exists w. split; [done|].
  destruct (pool_run_wf temp engine _ sched (spawn_all_wf temp engine N fs) _ _ Hw) as (-> & _).
  lia.
Qed.

Lemma pool_run_results temp engine N fs sched :
  let st := pool_run (spawn_all temp engine N fs) sched in
  NoDup ((arrivals (p_log st)).*1.*1)
  /\ (forall c s e, (c, s, e) ∈ arrivals (p_log st) ->
        1 <= c <= N /\ (s = true <-> e = None))
  /\ (pool_done st = true
      <-> forall c, 1 <= c <= N -> exists s e, (c, s, e) ∈ arrivals (p_log st)).
Proof.
  intros st. destruct (pool_run_results_inv temp engine N fs sched) as (Hlog & Hnd & Hrep).
  fold st in Hlog, Hnd, Hrep.
  pose proof (pool_run_wf temp engine _ sched (spawn_all_wf temp engine N fs)) as Hwf.
  fold st in Hwf.
  pose proof (pool_run_length temp engine N fs sched) as Hlen. fold st in Hlen.
  split; [done|]. split; [|split].
  - intros c s e (k & w & Hw & _ & Hpc)%elem_of_arrivals%Hlog.
    destruct (Hrep _ _ Hw _ _ _ Hpc) as [-> Hse]. split; [|done].
    destruct (Hwf _ _ Hw) as (-> & _). apply lookup_lt_Some in Hw. lia.
  - intros Hd c Hc.
    destruct (pool_run_worker temp engine N fs sched c Hc) as (w & Hw & Hcw). fold st in Hw.
    unfold pool_done in Hd. rewrite forallb_forall in Hd.
    assert (Hf : finished w = true).
    { apply Hd, list_elem_of_In. by eapply list_elem_of_lookup_2. }
    destruct (finished_return _ Hf) as [[[c' s] e] Hpc].
    destruct (Hrep _ _ Hw _ _ _ Hpc) as [-> _]. rewrite Hcw in Hpc.
    exists s, e. apply elem_of_arrivals, Hlog. eauto.
  - intros Hall. unfold pool_done. rewrite forallb_forall. intros w Hin.
    apply list_elem_of_In, list_elem_of_lookup in Hin as [k Hw].
    destruct (Hwf _ _ Hw) as (Hcw & _).
    destruct (Hall (Z.of_nat k + 1)) as (s & e & Hr).
    { apply lookup_lt_Some in Hw. lia. }
    apply elem_of_arrivals, Hlog in Hr as (k0 & w0 & Hw0 & Hf0 & Hpc0).
    destruct (Hrep _ _ Hw0 _ _ _ Hpc0) as [Hc0 _].
    destruct (Hwf _ _ Hw0) as (Hc0' & _). assert (k0 = k) as -> by lia.
    congruence.
Qed.

(** X5: under every schedule, every worker reports once at most, under its
    own chunk number and with an error message exactly when it did not
    succeed; and the workers have all returned exactly when a result has
    arrived for each chunk. *)
Theorem worker_results_once temp engine N fs sched :
  let st := pool_run (spawn_all temp engine N fs) sched in
  NoDup ((arrivals (p_log st)).*1.*1)
  /\ (forall c s e, (c, s, e) ∈ arrivals (p_log st) ->
        1 <= c <= N /\ (s = true <-> e = None))
  /\ (pool_done st = true
      <-> forall c, 1 <= c <= N -> exists s e, (c, s, e) ∈ arrivals (p_log st)).
Proof. apply pool_run_results. Qed.

(** * The fragments the workers write *)

Lemma frag_at_ext temp fs fs' w w' pc :
  fs' !! chunk_transcript temp (w_chunk w) = fs !! chunk_transcript temp (w_chunk w) ->
  w_engine w' = w_engine w -> w_chunk w' = w_chunk w ->
  frag_at temp fs w pc -> frag_at temp fs' w' pc.
Proof.
  intros Hfs He Hc. unfold frag_at, fragment_written. rewrite He, Hc, Hfs.
  by destruct pc as [| | | | |bar calls|segs|segs|segs|segs| |[[c s] e]].
Qed.

Lemma write_progress_lookup w fs c t s next q :
  w_progress_file w <> Some q -> (write_progress w fs c t s next).1 !! q = fs !! q.
Proof.
  intros Hq. unfold write_progress. destruct (w_progress_file w) as [pf|] eqn:E; [|done].
  destruct (percent_of c t); [|done]. destruct (open_w fs pf) eqn:Ho; [|done].
  simpl. eapply open_w_lookup; [done|]. intros ->. done.
Qed.

Lemma write_progress_engine w fs c t s next :
  w_engine (write_progress w fs c t s next).2 = w_engine w
  /\ w_chunk (write_progress w fs c t s next).2 = w_chunk w.
Proof. destruct (write_progress_static w fs c t s next) as (? & _ & _ & ? & _). done. Qed.

(** A progress write keeps what holds of the fragment. *)
Lemma write_progress_frag temp w fs c t s next :
  w_progress_file w <> Some (chunk_transcript temp (w_chunk w)) ->
  frag_at temp fs w next ->
  frag_inv temp (write_progress w fs c t s next).1 (write_progress w fs c t s next).2.
Proof.
  intros Hq H. unfold frag_inv.
  destruct (write_progress_engine w fs c t s next) as [He Hc].
  destruct (write_progress_pc w fs c t s next) as [-> | (e & _ & ->)].
  - eapply frag_at_ext; [|done..]. by apply write_progress_lookup.
  - done.
Qed.

Lemma progress_file_not_transcript temp i j : progress_file temp i <> chunk_transcript temp j.
Proof.
  intros H. apply (f_equal length) in H.
  rewrite progress_file_length, chunk_transcript_length in H. lia.
Qed.

(** The step of a worker keeps what holds of its fragment. *)
Lemma worker_step_frag temp fs w :
  w_temp_dir w = Some temp -> w_output_dir w = chunk_output_dir temp (w_chunk w) ->
  frag_inv temp fs w -> frag_inv temp (worker_step fs w).1.1 (worker_step fs w).1.2.
Proof.
  intros Ht Ho. unfold frag_inv at 1.
  assert (Hpf : w_progress_file w <> Some (chunk_transcript temp (w_chunk w))).
  { unfold w_progress_file. rewrite Ht. simpl. intros [= H].
    by apply progress_file_not_transcript in H. }
  assert (Hfrag : w_output_dir w /: ("chunk_" +:+ pretty (w_chunk w) +:+ ".txt")
                  = chunk_transcript temp (w_chunk w)).
  { unfold chunk_transcript. by rewrite Ho. }
  unfold worker_step. rewrite Hfrag. destruct (w_pending w) eqn:Hp.
  { simpl. intros H. unfold frag_inv. simpl. eapply frag_at_ext; [|done..].
    unfold w_progress_file in *. rewrite Ht in *. simpl.
    apply flush_lookup. intros E. apply Hpf. by rewrite E. }
  destruct (w_pc w) as [| | | | |bar calls|segs|segs|segs|segs| |r] eqn:Hpc; simpl; intros H;
    try (by apply write_progress_frag).
  - apply write_progress_frag; [done|]. by destruct (_ && _).
  - rewrite Ht. destruct (gate_open _ _); unfold frag_inv; simpl; [done|]. by rewrite Hpc.
  - unfold frag_inv. destruct (load_raises _); done.
  - destruct calls as [|[t|k|] calls]; simpl.
    + unfold frag_inv. destruct (transcribe_result _) eqn:E; done.
    + unfold tqdm_write_progress. destruct (t =? 0); [done|]. by apply write_progress_frag.
    + destruct bar as [[n t]|]; [|done].
      unfold tqdm_write_progress. destruct (t =? 0); [done|]. by apply write_progress_frag.
    + destruct bar as [[n t]|]; [|done].
      unfold tqdm_write_progress. destruct (t =? 0); [done|]. by apply write_progress_frag.
  - unfold frag_inv. destruct (mkdir_parents _ _); done.
  - unfold frag_inv. destruct (open_w _ _) as [fs'|] eqn:E; simpl; [|done].
    split; [done|]. eexists. by eapply open_w_at.
  - destruct H as [Hres [c Hc]]. unfold frag_inv.
    destruct (write_budget _); [destruct (_ <? _)%nat|]; simpl; try done;
      (exists segs; split; [done|]; by eapply flush_at).
  - unfold frag_inv. simpl. by rewrite Hpc.
Qed.

Lemma transcript_not_touched temp engine st k w j :
  wf_pool temp engine st -> p_workers st !! k = Some w -> w_chunk w <> j ->
  ¬ touches w (chunk_transcript temp j).
Proof.
  intros Hwf Hw Hne. destruct (Hwf _ _ Hw) as (Hc & Ht & Ho & _).
  unfold touches, w_progress_file. rewrite Ht, Ho. simpl.
  intros [H|[H|H]].
  - injection H as H. by apply progress_file_not_transcript in H.
  - apply chunk_transcript_inj in H. done.
  - apply prefix_length in H.
    rewrite chunk_transcript_length, chunk_output_dir_length in H. lia.
Qed.

Lemma frag_pool_inv_step temp engine st i :
  wf_pool temp engine st -> frag_pool_inv temp st -> frag_pool_inv temp (pool_step st i).
Proof.
  intros Hwf Hinv.
  destruct (pool_step_cases st i) as [->|(w & Hi & Hw & Hf & Hfs & Hws & _)]; [done|].
  intros k0 w0. rewrite Hws, Hfs. intros Hw0.
  destruct (Hwf _ _ Hw) as (Hc & Ht & Ho & _).
  destruct (decide (k0 = Z.to_nat (i - 1))) as [->|Hne].
  - rewrite list_lookup_insert_eq in Hw0 by (by eapply lookup_lt_Some).
    injection Hw0 as <-. apply worker_step_frag; eauto.
  - rewrite list_lookup_insert_ne in Hw0 by done.
    unfold frag_inv. eapply frag_at_ext; [|done|done|by apply (Hinv k0 w0)].
    apply worker_step_frame. eapply transcript_not_touched; [done..|].
    destruct (Hwf _ _ Hw0) as (Hc0 & _). lia.
Qed.

Lemma pool_run_frag_inv temp engine N fs sched :
  frag_pool_inv temp (pool_run (spawn_all temp engine N fs) sched).
Proof.
  induction sched as [|i sched IH] using rev_ind.
  - intros k w Hw. simpl in Hw. rewrite list_lookup_fmap in Hw.
    destruct (range 1 (N + 1) !! k); [|done]. by injection Hw as <-.
  - rewrite pool_run_snoc. eapply frag_pool_inv_step; [|done].
    apply pool_run_wf, spawn_all_wf.
Qed.

(** A worker that has reported success has written its fragment. *)
Lemma success_fragment temp engine N fs sched c e :
  let st := pool_run (spawn_all temp engine N fs) sched in
  (c, true, e) ∈ arrivals (p_log st) ->
  exists segs, transcribe_result (engine c) = Ok segs
    /\ p_fs st !! chunk_transcript temp c
       = Some (File (Text (fragment_text (fragment_lines segs)))).
Proof.
  intros st Hr.
  destruct (pool_run_results_inv temp engine N fs sched) as (Hlog & _ & Hrep).
  apply elem_of_arrivals, Hlog in Hr as (k & w & Hw & _ & Hpc).
  destruct (Hrep _ _ Hw _ _ _ Hpc) as [-> _].
  pose proof (pool_run_frag_inv temp engine N fs sched k w Hw) as H.
  unfold frag_inv in H. rewrite Hpc in H. simpl in H.
  destruct (pool_run_wf temp engine _ sched (spawn_all_wf temp engine N fs) _ _ Hw)
    as (_ & _ & _ & He).
  destruct H as (segs & H1 & H2). rewrite He in H1. eauto.
Qed.

(** * One job from start to end *)

(** ** Directories stay *)

Lemma open_w_keeps_dir fs p fs' q :
  open_w fs p = Ok fs' -> fs !! q = Some Dir -> fs' !! q = Some Dir.
Proof.
  intros Ho Hq. destruct (decide (q = p)) as [->|Hne].
  - unfold open_w in Ho. by rewrite Hq in Ho.
  - by rewrite (open_w_lookup _ _ _ _ Ho Hne).
Qed.

Lemma flush_keeps_dir fs p c q : fs !! q = Some Dir -> flush fs p c !! q = Some Dir.
Proof.
  intros Hq. destruct (decide (q = p)) as [->|Hne].
  - unfold flush. by rewrite Hq.
  - by rewrite flush_lookup.
Qed.

Lemma write_progress_keeps_dir w fs c t s next q :
  fs !! q = Some Dir -> (write_progress w fs c t s next).1 !! q = Some Dir.
Proof.
  intros Hq. unfold write_progress. destruct (w_progress_file w) as [pf|]; [|done].
  destruct (percent_of c t); [|done]. destruct (open_w fs pf) eqn:Ho; [|done].
  simpl. by eapply open_w_keeps_dir.
Qed.

Lemma mkdir_parents_keeps fs p fs' q x :
  mkdir_parents fs p = Ok fs' -> fs !! q = Some x -> fs' !! q = Some x.
Proof.
  intros Hm Hq. destruct (mkdir_parents_lookup _ _ _ q Hm) as [->|(H & _)]; congruence.
Qed.

(** No step of a worker removes or replaces a directory. *)
Lemma worker_step_keeps_dir fs w q :
  fs !! q = Some Dir -> (worker_step fs w).1.1 !! q = Some Dir.
Proof.
  intros Hq. unfold worker_step. destruct (w_pending w).
  { simpl. destruct (w_progress_file w); [by apply flush_keeps_dir | done]. }
  destruct (w_pc w) as [| | | | |bar calls|segs|segs|segs|segs| |r]; simpl;
    try (by apply write_progress_keeps_dir); try done.
  - destruct (w_temp_dir w); [|done]. destruct (gate_open _ _); done.
  - destruct calls as [|[t|k|] calls]; simpl; [done | | |];
      [|destruct bar as [[n t]|]; [|done]..];
      unfold tqdm_write_progress; (destruct (_ =? 0); [done|]);
      by apply write_progress_keeps_dir.
  - destruct (mkdir_parents _ _) eqn:E; [|done]. simpl. by eapply mkdir_parents_keeps.
  - destruct (open_w _ _) eqn:E; [|done]. simpl. by eapply open_w_keeps_dir.
  - destruct (write_budget _); [destruct (_ <? _)%nat|]; simpl; by apply flush_keeps_dir.
Qed.

Lemma pool_run_keeps_dir st sched q :
  p_fs st !! q = Some Dir -> p_fs (pool_run st sched) !! q = Some Dir.
Proof.
  intros Hq. induction sched as [|i sched IH] using rev_ind; [done|].
  rewrite pool_run_snoc.
  destruct (pool_step_cases (pool_run st sched) i) as [->|(w & _ & _ & _ & -> & _)];
    [done|]. by apply worker_step_keeps_dir.
Qed.

(** ** The end of a job *)

Lemma finish_video_returned t fs video N arrived fs' out b :
  finish_video t fs video N arrived = (fs', out, PVReturned b) ->
  b = true
  /\ exists fs1 written,
       open_w fs (final_transcript t video) = Ok fs1
       /\ fs' = (cleanup_temp t (flush fs1 (final_transcript t video) (Text written))).1.1
       /\ (cleanup_temp t (flush fs1 (final_transcript t video) (Text written))).2 = None.
Proof.
  unfold finish_video. destruct (open_w fs _) as [fs1|e] eqn:Ho; [|done].
  destruct (combine_transcripts _ _ _) as [[written warnings] [e|]]; [done|].
  destruct (cleanup_temp t _) as [[fs3 out3] [e|]] eqn:Hc; [done|]. intros [= <- _ <-].
  split; [done|]. exists fs1, written. by rewrite Hc.
Qed.

Lemma temp_not_final t video : temp_dir t <> final_transcript t video.
Proof. intros H. apply (final_not_below_temp t video). by rewrite <- H. Qed.

(** What [process_video] is once its workers have all returned. *)
Lemma process_video_cases tl engine t fs video current total completion sched :
  let sp := split_video_into_chunks tl t fs video (num_chunk_threads t) completion in
  let st := pool_run (spawn_all (temp_dir t) engine (num_chunk_threads t) (split_fs sp))
                     sched in
  let o := process_video tl engine t fs video current total completion sched in
  (split_result sp <> Ok true /\ pv_fs o = split_fs sp /\ pv_log o = []
   /\ pv_status_of o <> PVReturned true /\ pv_status_of o <> PVWaiting)
  \/ (split_result sp = Ok true /\ pool_done st = false
      /\ pv_fs o = p_fs st /\ pv_log o = p_log st /\ pv_status_of o = PVWaiting)
  \/ (split_result sp = Ok true /\ pool_done st = true /\ pv_log o = p_log st
      /\ pv_fs o
         = (finish_video t (p_fs st) video (num_chunk_threads t) (arrivals (p_log st))).1.1
      /\ pv_status_of o
         = (finish_video t (p_fs st) video (num_chunk_threads t) (arrivals (p_log st))).2).
Proof.
  intros sp st o.
  destruct (split_result sp) as [[|]|e] eqn:Hsp;
    [|assert (Hno : split_result sp <> Ok true) by congruence..]; [rename Hsp into Hok| |].
  - right. destruct (pool_done st) eqn:Hd.
    + right. split; [done|]. split; [done|].
      by apply (process_video_finished tl engine t fs video current total completion sched).
    + left. split; [done|]. split; [done|].
      destruct (process_video_waiting tl engine t fs video current total completion sched
                  Hok Hd) as (? & ? & ?). done.
  - left. split; [done|].
    destruct (process_video_split_failed tl engine t fs video current total completion
                sched Hno) as (? & ? & [[_ H]|(e' & _ & H)]);
      (split; [done|]; split; [done|]); fold o in H; rewrite H; done.
  - left. split; [done|].
    destruct (process_video_split_failed tl engine t fs video current total completion
                sched Hno) as (? & ? & [[_ H]|(e' & _ & H)]);
      (split; [done|]; split; [done|]); fold o in H; rewrite H; done.
Qed.

(** X8: when [process_video] returns [True], nothing is left of the temporary
    directory. *)
Theorem success_removes_temp_dir tl engine t fs video current total completion sched q :
  let o := process_video tl engine t fs video current total completion sched in
  cleanup t = true ->
  pv_status_of o = PVReturned true ->
  temp_dir t `prefix_of` q ->
  pv_fs o !! q = None.
Proof.
  intros o Hcl Hst Hq.
  destruct (process_video_cases tl engine t fs video current total completion sched)
    as [(_ & _ & _ & H & _)|[(_ & _ & _ & _ & H)|(Hok & Hd & _ & Hfs & Hs)]];
    fold o in H || fold o in Hfs, Hs; try congruence.
  rewrite Hfs.
  destruct (finish_video _ _ _ _ _) as [[fs' out] s] eqn:Hfin. simpl in *.
  rewrite Hst in Hs. subst s.
  apply finish_video_returned in Hfin as (_ & fs1 & written & Ho & -> & _).
  unfold cleanup_temp. rewrite Hcl.
  assert (Htemp : flush fs1 (final_transcript t video) (Text written) !! temp_dir t
                  = Some Dir).
  { apply flush_keeps_dir. eapply open_w_keeps_dir; [done|].
    apply pool_run_keeps_dir. simpl.
    by apply (split_ok_facts tl t fs video (num_chunk_threads t) completion). }
  unfold exists_. rewrite Htemp.
  destruct (rmtree_dir _ _ Htemp) as [fs3 Hrm]. rewrite Hrm. simpl.
  by eapply rmtree_lookup_below.
Qed.

Lemma success_removes_temp_dir_witness :
  pv_fs (process_video tools_ok (fun _ => whisper_ok) two_chunks demo_fs demo_video 1 1
           [2; 1] (round_robin 2 40))
    !! chunk_file (temp_dir two_chunks) 1 = None.
Proof.
  apply success_removes_temp_dir.
  - reflexivity.
  - vm_compute. reflexivity.
  - apply below_temp.
Defined.

(** ** What a job leaves alone *)

Lemma mkdir_from_prefix_dir rest : forall fs base fs' q,
  mkdir_from fs base rest = Ok fs' ->
  q `prefix_of` base ++ rest -> (length base < length q)%nat -> fs' !! q = Some Dir.
Proof.
  induction rest as [|name rest IH]; intros fs base fs' q; simpl.
  - intros _ Hp Hl. rewrite app_nil_r in Hp. apply prefix_length in Hp. lia.
  - replace (base ++ name :: rest) with ((base /: name) ++ rest)
      by (unfold joinpath; by rewrite <- app_assoc).
    intros Hm Hp Hl.
    assert (Hcase : q = base /: name \/ (length (base /: name) < length q)%nat).
    { rewrite joinpath_length.
      destruct (decide (length q = S (length base))) as [E|E]; [left|right; lia].
      destruct Hp as [k Hk]. apply (f_equal (take (length q))) in Hk.
      rewrite take_app_length in Hk.
      rewrite take_app_length' in Hk by (rewrite joinpath_length; lia). done. }
    destruct (fs !! (base /: name)) as [[|c]|] eqn:E; [| done |].
    + destruct Hcase as [->|Hl']; [|by eapply IH].
      destruct (mkdir_from_lookup _ _ _ _ (base /: name) Hm) as [->|(H & _)]; congruence.
    + destruct Hcase as [->|Hl']; [|by eapply IH].
      destruct (mkdir_from_lookup _ _ _ _ (base /: name) Hm) as [->|(H & _)].
      * by rewrite lookup_insert_eq.
      * by rewrite lookup_insert_eq in H.
Qed.

Lemma split_ok_ancestors tl t fs video N completion q :
  let sp := split_video_into_chunks tl t fs video N completion in
  split_result sp = Ok true ->
  q `prefix_of` temp_dir t -> q <> [] -> split_fs sp !! q = Some Dir.
Proof.
  intros sp Hok Hq Hne. destruct (split_ok_duration _ _ _ _ _ _ Hok) as [d Hd].
  destruct (split_unfold tl t fs video N completion d Hd)
    as [(e & He & _)|[(e & fs1 & He & _)|(cd & fs1 & fs2 & Hcd & Hrm & Hm & H)]];
    fold sp in He || fold sp in H; try congruence.
  destruct H as [(_ & _ & e & He)|(HN & Hfs & _)]; [congruence|].
  rewrite Hfs, run_create_chunks_frame.
  - eapply (mkdir_from_prefix_dir _ _ [] _ q); [done..|]. simpl.
    destruct q; [done|simpl; lia].
  - intros i ->. apply prefix_length in Hq. rewrite chunk_file_length in Hq. lia.
Qed.

Lemma finish_video_outside t fs video N arrived q :
  q <> final_transcript t video -> ¬ temp_dir t `prefix_of` q ->
  (finish_video t fs video N arrived).1.1 !! q = fs !! q.
Proof.
  intros Hq Ht. unfold finish_video.
  destruct (open_w fs _) as [fs1|e] eqn:Ho; [|done].
  assert (H1 : flush fs1 (final_transcript t video)
                 (Text (combine_transcripts (temp_dir t) fs1 (range 1 (N + 1))).1.1) !! q
               = fs !! q).
  { rewrite flush_lookup by done. by eapply open_w_lookup. }
  destruct (combine_transcripts _ _ _) as [[written warnings] [e|]]; simpl in *; [done|].
  destruct (cleanup_temp t _) as [[fs3 out3] r3] eqn:Hc. simpl.
  replace fs3
    with (cleanup_temp t (flush fs1 (final_transcript t video) (Text written))).1.1
    by (by rewrite Hc).
  by rewrite cleanup_temp_outside.
Qed.

(** What the workers leave of an entry that is not in the temporary
    directory, after a split that succeeded. *)
Lemma pool_run_after_split tl engine t fs video completion sched q :
  let sp := split_video_into_chunks tl t fs video (num_chunk_threads t) completion in
  split_result sp = Ok true ->
  q <> [] -> ¬ temp_dir t `prefix_of` q ->
  p_fs (pool_run (spawn_all (temp_dir t) engine (num_chunk_threads t) (split_fs sp)) sched)
    !! q = split_fs sp !! q.
Proof.
  intros sp Hok Hne Hq. subst sp. destruct (decide (q `prefix_of` temp_dir t)) as [Hp|Hp].
  - rewrite (split_ok_ancestors tl t fs video _ completion q Hok Hp Hne).
    apply pool_run_keeps_dir. simpl.
    by apply (split_ok_ancestors tl t fs video _ completion q).
  - by apply pool_run_outside.
Qed.

(** X6: whatever its outcome, a job changes nothing but its final transcript
    and the temporary directory: every other entry is as it was, except
    that a missing ancestor of the temporary directory is created. *)
Theorem job_leaves_other_files tl engine t fs video current total completion sched q :
  let o := process_video tl engine t fs video current total completion sched in
  q <> [] -> ¬ temp_dir t `prefix_of` q -> q <> final_transcript t video ->
  pv_fs o !! q = fs !! q
  \/ (fs !! q = None /\ pv_fs o !! q = Some Dir /\ q `prefix_of` temp_dir t).
Proof.
  intros o Hne Hq Hfin.
  pose proof (split_lookup_outside tl t fs video (num_chunk_threads t) completion q Hq)
    as Hsp. simpl in Hsp.
  destruct (process_video_cases tl engine t fs video current total completion sched)
    as [(_ & Hfs & _)|[(Hok & _ & Hfs & _)|(Hok & _ & _ & Hfs & _)]];
    fold o in Hfs; rewrite Hfs; [done| |].
  - by rewrite (pool_run_after_split tl engine t fs video completion sched q Hok).
  - rewrite finish_video_outside by done.
    by rewrite (pool_run_after_split tl engine t fs video completion sched q Hok).
Qed.

Lemma job_leaves_other_files_witness :
  pv_fs (process_video tools_ok (fun _ => whisper_ok) two_chunks demo_fs demo_video 1 1
           [2; 1] (round_robin 2 40)) !! demo_video
  = Some (File (Media (Some (nearest 300)))).
Proof.
  destruct (job_leaves_other_files tools_ok (fun _ => whisper_ok) two_chunks demo_fs
              demo_video 1 1 [2; 1] (round_robin 2 40) demo_video) as [H|(H & _)].
  - done.
  - vm_compute. intros [k Hk]. discriminate Hk.
  - vm_compute. discriminate.
  - rewrite H. reflexivity.
  - vm_compute in H. discriminate H.
Defined.

(** ** The transcript of a job whose workers all succeed *)

Lemma output_not_below_temp t : ¬ temp_dir t `prefix_of` output_dir t.
Proof.
  unfold temp_dir, output_dir, joinpath. intros [k Hk].
  rewrite <- !app_assoc in Hk. apply app_inv_head in Hk. simpl in Hk. discriminate Hk.
Qed.

Lemma output_dir_nonempty t : output_dir t <> [].
Proof. unfold output_dir, joinpath. by destruct (script_dir t). Qed.

Lemma final_nonempty t video : final_transcript t video <> [].
Proof. unfold final_transcript, joinpath. by destruct (output_dir t). Qed.

Lemma foldr_fragments temp fs (f : Z -> string) l :
  (forall i, i ∈ l -> read_text fs (chunk_transcript temp i) = Ok (f i)) ->
  foldr (fun i acc => match read_text fs (chunk_transcript temp i) with
                      | Ok s => s +:+ acc
                      | Raise _ => acc
                      end) "" l
  = foldr (fun i acc => f i +:+ acc) "" l.
Proof.
  induction l as [|i l IH]; intros H; [done|].
  simpl. rewrite H by (by left). rewrite IH; [done|]. intros j Hj. apply H. by right.
Qed.

(** X7: if the output directory is there, the final transcript is not a
    directory, and every worker of the job reports success, then
    [process_video] returns [True] and the final transcript holds, chunk
    after chunk in ascending order, the lines of the chunk: for each
    segment Whisper returned whose text is not whitespace only, in their
    order, the text without the whitespace at its ends, followed by a
    line feed (and as a read in text mode gives it). *)
Theorem successful_job_transcript tl engine t fs video current total completion sched :
  let N := num_chunk_threads t in
  let o := process_video tl engine t fs video current total completion sched in
  let lines i := fragment_lines (transcribed (engine i)) in
  1 <= N ->
  fs !! output_dir t = Some Dir ->
  fs !! final_transcript t video <> Some Dir ->
  (forall i, 1 <= i <= N -> exists e, (i, true, e) ∈ arrivals (pv_log o)) ->
  pv_status_of o = PVReturned true
  /\ pv_fs o !! final_transcript t video
     = Some (File (Text (foldr (fun i acc =>
                                  universal_newlines (fragment_text (lines i)) +:+ acc) ""
                               (range 1 (N + 1)))))
  /\ forall i, lines_of (transcribed (engine i)) (lines i).
Proof.
  intros N o lines HN Hout Hfin Hall.
  cut (pv_status_of o = PVReturned true
       /\ pv_fs o !! final_transcript t video
          = Some (File (Text (foldr (fun i acc => fragment_of (engine i) +:+ acc) ""
                                    (range 1 (N + 1)))))).
  { intros [H1 H2]. split; [done|]. split; [done|]. intros i. apply fragment_lines_spec. }
  destruct (process_video_cases tl engine t fs video current total completion sched)
    as [(_ & _ & Hlog & _)|[(Hok & Hd & _ & Hlog & _)|(Hok & Hd & Hlog & Hfs & Hs)]];
    fold o in Hlog; fold N in Hlog.
  { destruct (Hall 1) as [e He]; [lia|]. rewrite Hlog in He. by apply elem_of_nil in He. }
  { exfalso. fold N in Hd.
    destruct (pool_run_results (temp_dir t) engine N
                (split_fs (split_video_into_chunks tl t fs video N completion)) sched)
      as (_ & _ & Hdone).
    simpl in Hdone. rewrite Hd in Hdone. assert (false = true); [|done].
    apply Hdone. intros c Hc. destruct (Hall c Hc) as [e He]. rewrite Hlog in He. eauto. }
  fold o in Hfs, Hs. fold N in Hok, Hd, Hfs, Hs.
  set (sp := split_video_into_chunks tl t fs video N completion) in *.
  set (st := pool_run (spawn_all (temp_dir t) engine N (split_fs sp)) sched) in *.
  assert (Hsame : forall q, q <> [] -> ¬ temp_dir t `prefix_of` q -> fs !! q <> None ->
            p_fs st !! q = fs !! q).
  { intros q Hq1 Hq2 Hq3.
    pose proof (pool_run_after_split tl engine t fs video completion sched q Hok Hq1 Hq2)
      as H1.
    fold N in H1. fold sp in H1. fold st in H1. rewrite H1.
    destruct (split_lookup_outside tl t fs video N completion q Hq2) as [?|(? & _)]; done. }
  assert (Hopen : can_open (p_fs st) (final_transcript t video) = true).
  { unfold can_open, open_w.
    assert (Hd' : is_dir (p_fs st) (parent (final_transcript t video)) = true).
    { unfold final_transcript. rewrite parent_joinpath. apply is_dir_lookup.
      rewrite Hsame; [done | apply output_dir_nonempty | apply output_not_below_temp
                      | congruence]. }
    destruct (p_fs st !! final_transcript t video) as [[|c]|] eqn:E; rewrite ?Hd'; try done.
    destruct (fs !! final_transcript t video) as [x|] eqn:E'.
    - rewrite Hsame in E; [congruence | apply final_nonempty | apply final_not_below_temp
                           | congruence].
    - exfalso.
      pose proof (pool_run_after_split tl engine t fs video completion sched
                    (final_transcript t video) Hok (final_nonempty t video)
                    (final_not_below_temp t video)) as H1.
      fold N in H1. fold sp in H1. fold st in H1. rewrite E in H1.
      destruct (split_lookup_outside tl t fs video N completion (final_transcript t video)
                  (final_not_below_temp t video)) as [H2|(_ & _ & H2)].
      + fold sp in H2. congruence.
      + apply prefix_length in H2. unfold final_transcript, output_dir, temp_dir in H2.
        rewrite !joinpath_length in H2. lia. }
  assert (Hfrag : forall i, i ∈ range 1 (N + 1) ->
            read_text (p_fs st) (chunk_transcript (temp_dir t) i)
            = Ok (fragment_of (engine i))).
  { intros i Hi%elem_of_range. destruct (Hall i) as [e He]; [lia|]. rewrite Hlog in He.
    destruct (success_fragment (temp_dir t) engine N (split_fs sp) sched i e He)
      as (segs & Hres & Hf).
    fold st in Hf. unfold read_text. rewrite Hf. unfold fragment_of, transcribed.
    by rewrite Hres. }
  apply can_open_spec in Hopen.
  destruct (finish_video_final t (p_fs st) video N (arrivals (p_log st)) _ Hopen)
    as [Hfinal Heq].
  rewrite combine_transcripts_spec in Hfinal, Heq
    by (intros i Hi _; rewrite (Hfrag i Hi); eauto).
  simpl in Hfinal, Heq. specialize (Heq eq_refl).
  split.
  - rewrite Hs, Heq. simpl. rewrite cleanup_temp_ok; [done|].
    intros c. rewrite flush_lookup by apply temp_not_final.
    erewrite open_w_lookup; [|done|apply temp_not_final].
    unfold st. erewrite pool_run_keeps_dir; [done|].
    by apply (split_ok_facts tl t fs video N completion).
  - rewrite Hfs, Hfinal. by rewrite (foldr_fragments _ _ (fun i => fragment_of (engine i))).
Qed.

Lemma successful_job_transcript_witness :
  let o := process_video tools_ok (fun _ => whisper_ok) two_chunks demo_fs demo_video 1 1
             [2; 1] (round_robin 2 40) in
  pv_status_of o = PVReturned true
  /\ pv_fs o !! final_transcript two_chunks demo_video
     = Some (File (Text ("hello" +:+ newline +:+ "world" +:+ newline
                         +:+ "hello" +:+ newline +:+ "world" +:+ newline))).
Proof.
  cut (let o := process_video tools_ok (fun _ => whisper_ok) two_chunks demo_fs demo_video
                  1 1 [2; 1] (round_robin 2 40) in
       let lines (i : Z) := fragment_lines (transcribed whisper_ok) in
       pv_status_of o = PVReturned true
       /\ pv_fs o !! final_transcript two_chunks demo_video
          = Some (File (Text (foldr (fun i acc =>
                                       universal_newlines (fragment_text (lines i)) +:+ acc)
                                    "" (range 1 (num_chunk_threads two_chunks + 1)))))
       /\ forall i : Z, lines_of (transcribed whisper_ok) (lines i)).
  { intros (H1 & H2 & _). split; [exact H1|]. rewrite H2. vm_compute. reflexivity. }
  apply (successful_job_transcript tools_ok (fun _ => whisper_ok) two_chunks demo_fs
           demo_video 1 1 [2; 1] (round_robin 2 40)).
  - vm_compute. discriminate.
  - reflexivity.
  - vm_compute. discriminate.
  - intros i Hi.
    assert (Harr : arrivals (pv_log (process_video tools_ok (fun _ => whisper_ok) two_chunks
                                       demo_fs demo_video 1 1 [2; 1] (round_robin 2 40)))
                   = [(1, true, None); (2, true, None)]) by (vm_compute; reflexivity).
    rewrite Harr. exists None.
    assert (i = 1 \/ i = 2) as [-> | ->] by (change (num_chunk_threads two_chunks) with 2 in Hi; lia).
    + by left.
    + right. by left.
Defined.

(** * The transcript of a job without fragments (C10) *)

(** C10: once a job reaches the aggregation phase, the final transcript is
    opened for writing whatever the results were; it then holds exactly
    what is combined from the fragments, and nothing of what a file of
    that name held before; when no fragment exists it is created empty
    and [process_video] returns [True]. *)
Theorem empty_transcript_reported_success
    tl engine t fs video current total completion sched :
  let N := num_chunk_threads t in
  let sp := split_video_into_chunks tl t fs video N completion in
  let st := pool_run (spawn_all (temp_dir t) engine N (split_fs sp)) sched in
  let o := process_video tl engine t fs video current total completion sched in
  split_result sp = Ok true -> pool_done st = true ->
  can_open (p_fs st) (final_transcript t video) = true ->
  pv_fs o !! final_transcript t video
  = Some (File (Text (combine_transcripts (temp_dir t)
                        (delete (final_transcript t video) (p_fs st))
                        (range 1 (N + 1))).1.1))
  /\ ((forall i, 1 <= i <= N ->
         exists_ (p_fs st) (chunk_transcript (temp_dir t) i) = false) ->
      pv_status_of o = PVReturned true
      /\ pv_fs o !! final_transcript t video = Some (File (Text ""))).
Proof.
  intros N sp st o Hsp Hdone Ho%can_open_spec.
  destruct (process_video_finished tl engine t fs video current total completion sched
              Hsp Hdone) as (_ & Hfs & Hst).
  fold N sp st o in Hfs, Hst.
  destruct (finish_video_final t (p_fs st) video N (arrivals (p_log st)) _ Ho)
    as [Hfinal Heq].
  split.
  - rewrite Hfs, Hfinal.
    rewrite (combine_transcripts_ext (temp_dir t) (p_fs st)
               (delete (final_transcript t video) (p_fs st))); [done|].
    intros i. apply lookup_delete_ne. intros H. by apply (final_not_fragment t video i).
  - intros Hnone.
    rewrite combine_transcripts_none in Hfinal, Heq
      by (intros i Hi%elem_of_range; apply Hnone; lia).
    simpl in Hfinal, Heq. specialize (Heq eq_refl).
    split; [|by rewrite Hfs].
    rewrite Hst, Heq. simpl. rewrite cleanup_temp_ok; [done|].
    intros c. rewrite flush_lookup by apply temp_not_final.
    erewrite open_w_lookup; [|done|apply temp_not_final].
    unfold st. erewrite pool_run_keeps_dir; [done|].
    by apply (split_ok_facts tl t fs video N completion).
Qed.

Lemma empty_transcript_reported_success_witness :
  let o := process_video tools_ok (fun _ => whisper_no_model) one_chunk
             demo_fs demo_video 1 1 [1] (replicate 5 1) in
  pv_status_of o = PVReturned true
  /\ pv_fs o !! final_transcript one_chunk demo_video = Some (File (Text "")).
Proof.
  destruct (empty_transcript_reported_success tools_ok (fun _ => whisper_no_model) one_chunk
              demo_fs demo_video 1 1 [1] (replicate 5 1)) as [_ H].
  - vm_compute. reflexivity.
  - vm_compute. reflexivity.
  - vm_compute. reflexivity.
  - apply H. intros i Hi.
    assert (i = 1) as -> by (unfold num_chunk_threads in Hi; simpl in Hi; lia).
    vm_compute. reflexivity.
Defined.

(** * The staggered start does not block a job whose workers succeed *)

(** ** The record a worker leaves when it succeeds *)

Lemma record_ok_ext temp fs fs' w :
  fs' !! progress_file temp (w_chunk w) = fs !! progress_file temp (w_chunk w) ->
  record_ok temp fs w -> record_ok temp fs' w.
Proof. unfold record_ok. by intros ->. Qed.

Lemma write_progress_pending temp w fs c t s next d :
  w_temp_dir w = Some temp -> w_pending w = None ->
  w_pending (write_progress w fs c t s next).2 = Some d ->
  (write_progress w fs c t s next).1 !! progress_file temp (w_chunk w)
  = Some (File (Text "")).
Proof.
  intros Ht Hp. unfold write_progress, w_progress_file. rewrite Ht. simpl.
  destruct (percent_of c t); simpl; [|by rewrite Hp].
  destruct (open_w fs _) as [fs'|] eqn:E; simpl; [|by rewrite Hp].
  intros _. by eapply open_w_at.
Qed.

Lemma tqdm_write_progress_pending temp w fs n t next d :
  w_temp_dir w = Some temp -> w_pending w = None ->
  w_pending (tqdm_write_progress w fs n t next).2 = Some d ->
  (tqdm_write_progress w fs n t next).1 !! progress_file temp (w_chunk w)
  = Some (File (Text "")).
Proof.
  intros Ht Hp. unfold tqdm_write_progress. destruct (t =? 0); simpl; [by rewrite Hp|].
  by apply write_progress_pending.
Qed.

(** A record is on its way only after the file has been opened. *)
Lemma worker_step_pending temp fs w d :
  w_temp_dir w = Some temp ->
  w_pending (worker_step fs w).1.2 = Some d ->
  w_pending w = None
  /\ (worker_step fs w).1.1 !! progress_file temp (w_chunk w) = Some (File (Text "")).
Proof.
  intros Ht. unfold worker_step. destruct (w_pending w) eqn:Hp; [done|].
  destruct (w_pc w) as [| | | | |bar calls|segs|segs|segs|segs| |r] eqn:Hpc; simpl;
    try (intros H; split; [done|]; by eapply write_progress_pending).
  - rewrite Ht. destruct (gate_open _ _); simpl; by rewrite Hp.
  - destruct (load_raises _); simpl; by rewrite Hp.
  - destruct calls as [|[t|k|] calls]; simpl.
    + destruct (transcribe_result _); simpl; by rewrite Hp.
    + intros H; split; [done|]; by eapply tqdm_write_progress_pending.
    + destruct bar as [[n t]|]; simpl; [|by rewrite Hp].
      intros H; split; [done|]; by eapply tqdm_write_progress_pending.
    + destruct bar as [[n t]|]; simpl; [|by rewrite Hp].
      intros H; split; [done|]; by eapply tqdm_write_progress_pending.
  - destruct (mkdir_parents _ _); simpl; by rewrite Hp.
  - destruct (open_w _ _); simpl; by rewrite Hp.
  - destruct (write_budget _); [destruct (_ <? _)%nat|]; simpl; by rewrite Hp.
  - by rewrite Hp.
Qed.

Lemma parent_progress_file temp i : parent (progress_file temp i) = temp.
Proof. unfold progress_file. apply parent_joinpath. Qed.

(** The last progress write of a worker, when the file can be opened. *)
Lemma worker_step_complete temp fs w :
  w_temp_dir w = Some temp -> w_pc w = WComplete -> w_pending w = None ->
  fs !! temp = Some Dir -> fs !! progress_file temp (w_chunk w) <> Some Dir ->
  w_pc (worker_step fs w).1.2 = WReturn (w_chunk w, true, None)
  /\ w_pending (worker_step fs w).1.2 = Some (complete_record (w_chunk w)).
Proof.
  intros Ht Hpc Hp Htemp Hpf. unfold worker_step. rewrite Hp, Hpc. simpl.
  unfold write_progress, w_progress_file. rewrite Ht, percent_of_1_1. simpl.
  unfold open_w. rewrite parent_progress_file, (is_dir_lookup _ _ Htemp).
  by destruct (fs !! progress_file temp (w_chunk w)) as [[|c]|].
Qed.

Lemma worker_step_record_ok temp fs w :
  w_temp_dir w = Some temp ->
  fs !! temp = Some Dir -> fs !! progress_file temp (w_chunk w) <> Some Dir ->
  record_ok temp fs w -> record_ok temp (worker_step fs w).1.1 (worker_step fs w).1.2.
Proof.
  intros Ht Htemp Hpf [H1 H2].
  destruct (worker_step_static fs w) as (Hc & _).
  split; rewrite Hc.
  - intros d Hd. destruct (worker_step_pending temp fs w d Ht Hd) as [_ ->]. eauto.
  - intros c e Hpc.
    destruct (worker_step_return fs w _ Hpc) as [Hold|[(Hcomp & Hp & _)|[e' [= ]]]].
    + pose proof (H2 _ _ Hold) as H3. unfold worker_step.
      destruct (w_pending w) as [d|] eqn:Hp; simpl.
      * subst d. destruct (H1 _ eq_refl) as [c0 Hc0].
        unfold w_progress_file. rewrite Ht. simpl. by eapply flush_at.
      * rewrite Hold. simpl. by rewrite Hp.
    + destruct (worker_step_complete temp fs w Ht Hcomp Hp Htemp Hpf) as [_ ->]. done.
Qed.

(** ** The steps a worker still takes *)

Lemma steps_left_finished w : steps_left w = 0%nat <-> finished w = true.
Proof.
  unfold steps_left, finished, rank.
  destruct (w_pc w); destruct (w_pending w); split; (done || lia).
Qed.

Lemma write_progress_steps w fs c t s next :
  w_pending w = None ->
  (steps_left (write_progress w fs c t s next).2 <= rank w next + 1)%nat.
Proof.
  intros Hp. unfold write_progress, steps_left, rank.
  destruct (w_progress_file w); simpl; [|rewrite Hp; lia].
  destruct (percent_of c t); simpl; [|rewrite Hp; lia].
  destruct (open_w fs l); simpl; [lia|rewrite Hp; lia].
Qed.

Lemma tqdm_write_progress_steps w fs n t next :
  w_pending w = None ->
  (steps_left (tqdm_write_progress w fs n t next).2 <= rank w next + 1)%nat.
Proof.
  intros Hp. unfold tqdm_write_progress. destruct (t =? 0).
  - unfold steps_left, rank. simpl. rewrite Hp. lia.
  - by apply write_progress_steps.
Qed.

(** Every step of a worker that has not returned brings it nearer to its
    end, except the poll of a closed gate. *)
Lemma worker_step_steps_left temp fs w :
  w_temp_dir w = Some temp -> finished w = false ->
  (steps_left (worker_step fs w).1.2 < steps_left w)%nat
  \/ (w_pc w = WGate /\ w_pending w = None
      /\ gate_open fs (progress_file temp (w_chunk w - 1)) = false
      /\ (worker_step fs w).1.2 = w).
Proof.
  intros Ht Hf. unfold worker_step. destruct (w_pending w) eqn:Hp.
  { left. unfold steps_left, rank. simpl. rewrite Hp. lia. }
  destruct (w_pc w) as [| | | | |bar calls|segs|segs|segs|segs| |r] eqn:Hpc; simpl.
  - left. eapply Nat.le_lt_trans; [apply write_progress_steps; done|].
    unfold steps_left, rank. rewrite Hpc, Hp. destruct (_ && _); lia.
  - rewrite Ht. destruct (gate_open _ _) eqn:Hg; simpl.
    + left. unfold steps_left, rank. simpl. rewrite Hpc, Hp. lia.
    + right. done.
  - left. eapply Nat.le_lt_trans; [apply write_progress_steps; done|].
    unfold steps_left, rank. rewrite Hpc, Hp. lia.
  - left. unfold steps_left, rank. rewrite Hpc, Hp. destruct (load_raises _); simpl;
      rewrite Hp; lia.
  - left. eapply Nat.le_lt_trans; [apply write_progress_steps; done|].
    unfold steps_left, rank. rewrite Hpc, Hp. lia.
  - left. destruct calls as [|[t|k|] calls]; simpl.
    + unfold steps_left, rank. rewrite Hpc, Hp. destruct (transcribe_result _); simpl;
        rewrite Hp; simpl; lia.
    + eapply Nat.le_lt_trans; [apply tqdm_write_progress_steps; done|].
      unfold steps_left, rank. rewrite Hpc, Hp. simpl. lia.
    + destruct bar as [[n t]|]; simpl.
      * eapply Nat.le_lt_trans; [apply tqdm_write_progress_steps; done|].
        unfold steps_left, rank. rewrite Hpc, Hp. simpl. lia.
      * unfold steps_left, rank. rewrite Hpc, Hp. simpl. rewrite Hp. lia.
    + destruct bar as [[n t]|]; simpl.
      * eapply Nat.le_lt_trans; [apply tqdm_write_progress_steps; done|].
        unfold steps_left, rank. rewrite Hpc, Hp. simpl. lia.
      * unfold steps_left, rank. rewrite Hpc, Hp. simpl. rewrite Hp. lia.
  - left. eapply Nat.le_lt_trans; [apply write_progress_steps; done|].
    unfold steps_left, rank. rewrite Hpc, Hp. lia.
  - left. unfold steps_left, rank. rewrite Hpc, Hp. destruct (mkdir_parents _ _); simpl;
      rewrite Hp; lia.
  - left. unfold steps_left, rank. rewrite Hpc, Hp. destruct (open_w _ _); simpl;
      rewrite Hp; lia.
  - left. unfold steps_left, rank. rewrite Hpc, Hp.
    destruct (write_budget _); [destruct (_ <? _)%nat|]; simpl; rewrite Hp; lia.
  - left. eapply Nat.le_lt_trans; [apply write_progress_steps; done|].
    unfold steps_left, rank. rewrite Hpc, Hp. lia.
  - unfold finished in Hf. by rewrite Hpc, Hp in Hf.
Qed.

(** ** The pool *)

Lemma open_w_new_dir fs p fs' q :
  open_w fs p = Ok fs' -> fs' !! q = Some Dir -> fs !! q = Some Dir.
Proof.
  intros Ho Hq. destruct (decide (q = p)) as [->|Hne].
  - by rewrite (open_w_at _ _ _ Ho) in Hq.
  - by rewrite (open_w_lookup _ _ _ _ Ho Hne) in Hq.
Qed.

Lemma flush_new_dir fs p c q : flush fs p c !! q = Some Dir -> fs !! q = Some Dir.
Proof.
  destruct (decide (q = p)) as [->|Hne]; [|by rewrite flush_lookup].
  destruct (flush_at_cases fs p c) as [-> | ->]; done.
Qed.

Lemma write_progress_new_dir w fs c t s next q :
  (write_progress w fs c t s next).1 !! q = Some Dir -> fs !! q = Some Dir.
Proof.
  unfold write_progress. destruct (w_progress_file w) as [pf|]; [|done].
  destruct (percent_of c t); [|done]. destruct (open_w fs pf) eqn:Ho; [|done].
  simpl. by eapply open_w_new_dir.
Qed.

(** The only directories a worker makes are those on the way to its
    output directory. *)
Lemma worker_step_new_dir fs w q :
  (worker_step fs w).1.1 !! q = Some Dir ->
  fs !! q = Some Dir \/ q `prefix_of` w_output_dir w.
Proof.
  unfold worker_step. destruct (w_pending w).
  { simpl. destruct (w_progress_file w); [|by left]. left. by eapply flush_new_dir. }
  destruct (w_pc w) as [| | | | |bar calls|segs|segs|segs|segs| |r]; simpl;
    try (left; by eapply write_progress_new_dir); try (by left).
  - destruct (w_temp_dir w); [|by left]. destruct (gate_open _ _); by left.
  - destruct calls as [|[t|k|] calls]; simpl; [by left | | |];
      [|destruct bar as [[n t]|]; [|by left]..];
      unfold tqdm_write_progress; (destruct (_ =? 0); [by left|]);
      left; by eapply write_progress_new_dir.
  - destruct (mkdir_parents _ _) eqn:E; [|by left]. simpl. intros Hq.
    destruct (mkdir_parents_lookup _ _ _ q E) as [H|(_ & _ & H)]; [left; congruence|by right].
  - destruct (open_w _ _) eqn:E; [|by left]. simpl. left. by eapply open_w_new_dir.
  - destruct (write_budget _); [destruct (_ <? _)%nat|]; simpl; left; by eapply flush_new_dir.
Qed.

Lemma live_inv_step temp engine st i :
  wf_pool temp engine st -> live_inv temp st -> live_inv temp (pool_step st i).
Proof.
  intros Hwf (Htemp & Hpf & Hrec).
  destruct (pool_step_cases st i) as [->|(w & Hi & Hw & Hf & Hfs & Hws & _)]; [done|].
  destruct (Hwf _ _ Hw) as (Hc & Ht & Ho & _).
  split; [|split].
  - rewrite Hfs. by apply worker_step_keeps_dir.
  - intros j Hj. rewrite Hfs in Hj.
    apply worker_step_new_dir in Hj as [Hj|Hj]; [by apply (Hpf j)|].
    rewrite Ho in Hj. apply prefix_same_length in Hj.
    + by apply progress_file_not_output_dir in Hj.
    + by rewrite progress_file_length, chunk_output_dir_length.
  - intros k0 w0. rewrite Hws, Hfs. intros Hw0.
    destruct (decide (k0 = Z.to_nat (i - 1))) as [->|Hne].
    + rewrite list_lookup_insert_eq in Hw0 by (by eapply lookup_lt_Some).
      injection Hw0 as <-. apply worker_step_record_ok; eauto.
    + rewrite list_lookup_insert_ne in Hw0 by done.
      eapply record_ok_ext; [|by apply (Hrec k0 w0)].
      apply worker_step_frame. eapply spawned_not_touches; [done..|].
      destruct (Hwf _ _ Hw0) as (Hc0 & _). lia.
Qed.

Lemma spawn_all_live_inv temp engine N fs :
  fs !! temp = Some Dir -> (forall i, fs !! progress_file temp i <> Some Dir) ->
  live_inv temp (spawn_all temp engine N fs).
Proof.
  intros Htemp Hpf. split; [done|]. split; [done|].
  intros k w Hw. simpl in Hw. rewrite list_lookup_fmap in Hw.
  destruct (range 1 (N + 1) !! k); [|done]. injection Hw as <-. split; done.
Qed.

Lemma pool_inv_step temp engine st i :
  pool_inv temp engine st -> pool_inv temp engine (pool_step st i).
Proof.
  intros (H1 & H2 & H3 & H4). split; [by apply pool_step_wf|].
  split; [by eapply results_inv_step|]. split; [by eapply live_inv_step|].
  by apply gate_inv_step.
Qed.

Lemma pool_inv_run temp engine st sched :
  pool_inv temp engine st -> pool_inv temp engine (pool_run st sched).
Proof.
  intros H. induction sched as [|i sched IH] using rev_ind; [done|].
  rewrite pool_run_snoc. by apply pool_inv_step.
Qed.

Lemma spawn_all_pool_inv temp engine N fs :
  fs !! temp = Some Dir -> (forall i, fs !! progress_file temp i <> Some Dir) ->
  pool_inv temp engine (spawn_all temp engine N fs).
Proof.
  intros Htemp Hpf. split; [apply spawn_all_wf|]. split; [apply spawn_all_results_inv|].
  split; [by apply spawn_all_live_inv|].
  intros k w Hw. simpl in Hw. rewrite list_lookup_fmap in Hw.
  destruct (range 1 (N + 1) !! k); [|done]. by injection Hw as <-.
Qed.

Lemma sum_list_with_insert {A} (f : A -> nat) (l : list A) k x y :
  l !! k = Some x ->
  (sum_list_with f (<[k := y]> l) + f x = sum_list_with f l + f y)%nat.
Proof.
  revert k. induction l as [|a l IH]; intros [|k] H; simpl in *; try done.
  - injection H as ->. lia.
  - specialize (IH k H). lia.
Qed.

Lemma forallb_false_first {A} (f : A -> bool) (l : list A) :
  forallb f l = false ->
  exists k x, l !! k = Some x /\ f x = false
    /\ forall k' x', (k' < k)%nat -> l !! k' = Some x' -> f x' = true.
Proof.
  induction l as [|a l IH]; [done|]. simpl. destruct (f a) eqn:E; simpl.
  - intros (k & x & H1 & H2 & H3)%IH. exists (S k), x. split; [done|]. split; [done|].
    intros [|k'] x' Hlt Hx'; simpl in Hx'; [by injection Hx' as <-|]. apply (H3 k'); [lia|done].
  - intros _. exists 0%nat, a. split; [done|]. split; [done|]. intros k' x' Hlt. lia.
Qed.

Lemma pool_done_or_first st :
  pool_done st = true \/ exists k, first_unfinished st k.
Proof.
  unfold pool_done. destruct (forallb finished (p_workers st)) eqn:E; [by left|].
  right. apply forallb_false_first in E as (k & w & H1 & H2 & H3).
  exists k. split; [eauto|done].
Qed.

Lemma pool_step_done st i : pool_done st = true -> pool_step st i = st.
Proof.
  intros Hd. destruct (pool_step_cases st i) as [->|(w & _ & Hw & Hf & _)]; [done|].
  unfold pool_done in Hd. rewrite forallb_forall in Hd.
  rewrite (Hd w) in Hf; [done|]. apply list_elem_of_In. by eapply list_elem_of_lookup_2.
Qed.

Lemma pool_step_blocked temp engine st i :
  wf_pool temp engine st -> blocked temp st = true -> blocked temp (pool_step st i) = true.
Proof.
  intros Hwf. unfold blocked. rewrite !existsb_exists.
  intros (w & [k Hw]%list_elem_of_In%list_elem_of_lookup & Hb).
  destruct (pool_step_cases st i) as [->|(w1 & Hi & Hw1 & Hf1 & Hfs & Hws & _)].
  { exists w. split; [|done]. apply list_elem_of_In. by eapply list_elem_of_lookup_2. }
  apply andb_true_iff in Hb as [[Hf Hc]%andb_true_iff Hg].
  assert (Hk : k <> Z.to_nat (i - 1)) by (intros ->; congruence).
  exists w. split.
  - apply list_elem_of_In, (list_elem_of_lookup_2 _ k). rewrite Hws.
    by rewrite list_lookup_insert_ne.
  - unfold blocks. rewrite Hf, pool_step_length, Hc. simpl.
    rewrite Hfs, (gate_open_ext (p_fs st)); [done|].
    apply worker_step_frame. eapply spawned_not_touches; [done..|].
    destruct (Hwf _ _ Hw) as (-> & _), (Hwf _ _ Hw1) as (-> & _). lia.
Qed.

Lemma pool_step_settled temp engine st i :
  wf_pool temp engine st -> settled temp st = true -> settled temp (pool_step st i) = true.
Proof.
  unfold settled. intros Hwf [H|H]%orb_true_iff.
  - by rewrite pool_step_done, H.
  - by rewrite (pool_step_blocked temp engine _ _ Hwf H), orb_true_r.
Qed.

Lemma pool_run_settled temp engine st sched :
  wf_pool temp engine st -> settled temp st = true ->
  settled temp (pool_run st sched) = true.
Proof.
  intros Hwf H. induction sched as [|i sched IH] using rev_ind; [done|].
  rewrite pool_run_snoc. apply (pool_step_settled temp engine); [by apply pool_run_wf|done].
Qed.

(** The steps left never grow, and shrink when the worker that steps is
    not held at its gate. *)
Lemma pool_step_steps temp engine st i :
  wf_pool temp engine st ->
  (pool_steps_left (pool_step st i) <= pool_steps_left st)%nat
  /\ forall w, 1 <= i -> p_workers st !! Z.to_nat (i - 1) = Some w -> finished w = false ->
       (w_pc w = WGate -> gate_open (p_fs st) (progress_file temp (w_chunk w - 1)) = true) ->
       (pool_steps_left (pool_step st i) < pool_steps_left st)%nat.
Proof.
  intros Hwf. unfold pool_steps_left. split.
  - destruct (pool_step_cases st i) as [->|(w & Hi & Hw & Hf & Hfs & Hws & _)]; [done|].
    rewrite Hws. destruct (Hwf _ _ Hw) as (_ & Ht & _).
    pose proof (sum_list_with_insert steps_left (p_workers st) _ w
                  (worker_step (p_fs st) w).1.2 Hw) as Hsum.
    destruct (worker_step_steps_left temp (p_fs st) w Ht Hf) as [Hlt|(_ & _ & _ & Heq)].
    + lia.
    + rewrite Heq in Hsum |- *. lia.
  - intros w Hi Hw Hf Hopen. destruct (Hwf _ _ Hw) as (_ & Ht & _).
    pose proof (sum_list_with_insert steps_left (p_workers st) _ w
                  (worker_step (p_fs st) w).1.2 Hw) as Hsum.
    unfold pool_step. destruct (Z.ltb_spec i 1); [lia|]. rewrite Hw, Hf.
    destruct (worker_step_steps_left temp (p_fs st) w Ht Hf) as [Hlt|(Hpc & _ & Hg & _)].
    + destruct (worker_step (p_fs st) w) as [[fs' w'] evs]. simpl in *. lia.
    + rewrite Hopen in Hg; done.
Qed.

Lemma pool_run_steps temp engine st sched :
  wf_pool temp engine st ->
  (pool_steps_left (pool_run st sched) <= pool_steps_left st)%nat.
Proof.
  intros Hwf. induction sched as [|i sched IH] using rev_ind; [done|].
  rewrite pool_run_snoc. etrans; [|exact IH].
  by apply (pool_step_steps temp engine), pool_run_wf.
Qed.

(** The gate of the first worker that has not returned is open, unless a
    worker blocks its successor. *)
Lemma first_gate_open temp engine st k w :
  wf_pool temp engine st -> gate_inv st -> blocked temp st = false ->
  first_unfinished st k ->
  p_workers st !! k = Some w -> w_pc w = WGate ->
  gate_open (p_fs st) (progress_file temp (w_chunk w - 1)) = true.
Proof.
  intros Hwf Hgate Hnb [_ Hfirst] Hw Hpc.
  destruct (Hwf _ _ Hw) as (Hc & _). pose proof (Hgate _ _ Hw Hpc) as Hk.
  destruct (lookup_lt_is_Some_2 (p_workers st) (k - 1)) as [w0 Hw0].
  { apply lookup_lt_Some in Hw. lia. }
  assert (Hf0 : finished w0 = true) by (apply (Hfirst (k - 1)%nat); [lia|done]).
  destruct (Hwf _ _ Hw0) as (Hc0 & _).
  replace (w_chunk w - 1) with (w_chunk w0) by lia.
  destruct (gate_open _ _) eqn:Hg; [done|].
  assert (blocked temp st = true); [|congruence].
  unfold blocked. apply existsb_exists. exists w0.
  split; [apply list_elem_of_In; by eapply list_elem_of_lookup_2|].
  unfold blocks. rewrite Hf0, Hg. simpl. rewrite andb_true_r.
  apply Z.ltb_lt. apply lookup_lt_Some in Hw. lia.
Qed.

Lemma first_unfinished_step st i k :
  first_unfinished st k -> i <> Z.of_nat k + 1 -> first_unfinished (pool_step st i) k.
Proof.
  intros Hk0 Hne.
  destruct (pool_step_cases st i) as [->|(w1 & Hi & Hw1 & Hf1 & _ & Hws & _)]; [done|].
  destruct Hk0 as [(w & Hw & Hf) Hfirst].
  assert (Hk : Z.to_nat (i - 1) <> k) by lia.
  split.
  - exists w. rewrite Hws. by rewrite list_lookup_insert_ne.
  - intros k' w' Hlt. rewrite Hws.
    destruct (decide (k' = Z.to_nat (i - 1))) as [->|Hne'].
    + rewrite (Hfirst _ _ Hlt Hw1) in Hf1. done.
    + rewrite list_lookup_insert_ne by done. by apply Hfirst.
Qed.

(** A round in which the first worker that has not returned gets a turn
    brings the pool nearer to its end. *)
Lemma round_progress temp engine round : forall st k,
  wf_pool temp engine st -> gate_inv st -> first_unfinished st k ->
  Z.of_nat k + 1 ∈ round ->
  settled temp (pool_run st round) = true
  \/ (pool_steps_left (pool_run st round) < pool_steps_left st)%nat.
Proof.
  induction round as [|j round IH]; intros st k Hwf Hgate Hk Hin;
    [by apply elem_of_nil in Hin|].
  change (pool_run st (j :: round)) with (pool_run (pool_step st j) round).
  pose proof (pool_step_wf temp engine st j Hwf) as Hwf1.
  pose proof (gate_inv_step st j Hgate) as Hgate1.
  destruct (blocked temp st) eqn:Hnb.
  { left. apply (pool_run_settled temp engine); [done|].
    apply (pool_step_settled temp engine); [done|]. unfold settled. by rewrite Hnb, orb_true_r. }
  destruct (decide (j = Z.of_nat k + 1)) as [->|Hne].
  - right. pose proof Hk as [(w & Hw & Hf) Hfirst].
    eapply Nat.le_lt_trans; [by apply (pool_run_steps temp engine)|].
    apply (pool_step_steps temp engine st _ Hwf) with w; try done; try lia.
    + by replace (Z.to_nat (Z.of_nat k + 1 - 1)) with k by lia.
    + intros Hpc. by eapply first_gate_open.
  - apply elem_of_cons in Hin as [Hin|Hin]; [congruence|].
    destruct (IH (pool_step st j) k) as [?|Hlt];
      [done|done|by apply first_unfinished_step|done|by left|].
    right. eapply Nat.lt_le_trans; [exact Hlt|]. by apply (pool_step_steps temp engine).
Qed.

Lemma pool_run_length_eq st sched :
  length (p_workers (pool_run st sched)) = length (p_workers st).
Proof.
  induction sched as [|i sched IH] using rev_ind; [done|].
  by rewrite pool_run_snoc, pool_step_length.
Qed.

Lemma rounds_progress temp engine rounds : forall st,
  wf_pool temp engine st -> gate_inv st ->
  (forall round, round ∈ rounds ->
     forall i, 1 <= i <= Z.of_nat (length (p_workers st)) -> i ∈ round) ->
  settled temp (pool_run st (mjoin rounds)) = true
  \/ (pool_steps_left (pool_run st (mjoin rounds)) + length rounds
      <= pool_steps_left st)%nat.
Proof.
  induction rounds as [|round rounds IH]; intros st Hwf Hgate Hfair; [right; simpl; lia|].
  simpl. rewrite pool_run_app.
  assert (Hwf1 : wf_pool temp engine (pool_run st round)) by (by apply pool_run_wf).
  destruct (settled temp (pool_run st round)) eqn:Hs;
    [left; by apply (pool_run_settled temp engine)|].
  assert (Hlt : (pool_steps_left (pool_run st round) < pool_steps_left st)%nat).
  { destruct (pool_done_or_first st) as [Hd|[k Hk]].
    - assert (settled temp (pool_run st round) = true); [|congruence].
      apply (pool_run_settled temp engine); [done|]. unfold settled. by rewrite Hd.
    - destruct (round_progress temp engine round st k Hwf Hgate Hk) as [?|?];
        [|congruence|done].
      apply Hfair; [by left|]. destruct Hk as [(w & Hw & _) _].
      apply lookup_lt_Some in Hw. lia. }
  destruct (IH (pool_run st round)) as [?|Hle].
  - done.
  - clear -Hgate. induction round as [|i round IHr] using rev_ind; [done|].
    rewrite pool_run_snoc. by apply gate_inv_step.
  - intros r Hr i Hi. apply Hfair; [by right|]. by rewrite pool_run_length_eq in Hi.
  - by left.
  - right. lia.
Qed.

Lemma spawn_all_steps_left temp engine N fs :
  pool_steps_left (spawn_all temp engine N fs) = steps_bound engine N.
Proof.
  unfold pool_steps_left, steps_bound. simpl.
  induction (range 1 (N + 1)) as [|i l IH]; [done|].
  rewrite fmap_cons. cbn [sum_list_with]. rewrite IH.
  unfold steps_left, rank. simpl. lia.
Qed.

Lemma sum_list_with_0 {A} (f : A -> nat) (l : list A) x :
  sum_list_with f l = 0%nat -> x ∈ l -> f x = 0%nat.
Proof.
  induction l as [|a l IH]; intros Hs Hx; [by apply elem_of_nil in Hx|].
  simpl in Hs. apply elem_of_cons in Hx as [->|Hx]; [lia|]. apply IH; [lia|done].
Qed.

(** Under a schedule of rounds in each of which every worker gets a turn,
    the workers have all returned, or one of them blocks its successor,
    once there have been as many rounds as [steps_bound] says. *)
Lemma pool_settles temp engine N fs rounds :
  (forall round, round ∈ rounds -> forall i, 1 <= i <= N -> i ∈ round) ->
  (steps_bound engine N <= length rounds)%nat ->
  settled temp (pool_run (spawn_all temp engine N fs) (mjoin rounds)) = true.
Proof.
  intros Hfair Hlen.
  destruct (rounds_progress temp engine rounds (spawn_all temp engine N fs)) as [?|Hle].
  - apply spawn_all_wf.
  - intros k w Hw. simpl in Hw. rewrite list_lookup_fmap in Hw.
    destruct (range 1 (N + 1) !! k); [|done]. by injection Hw as <-.
  - intros r Hr i Hi. apply (Hfair r Hr). simpl in Hi.
    rewrite length_fmap, range_length in Hi. lia.
  - done.
  - rewrite spawn_all_steps_left in Hle. unfold settled.
    apply orb_true_iff. left. unfold pool_done. rewrite forallb_forall. intros w Hw.
    apply steps_left_finished.
    apply (sum_list_with_0 steps_left (p_workers (pool_run (spawn_all temp engine N fs)
                                                   (mjoin rounds)))).
    + unfold pool_steps_left in Hle. lia.
    + by apply list_elem_of_In.
Qed.

(** Only a worker that reports failure blocks its successor: one that
    succeeds has left its last record, which opens the gate. *)
Lemma blocked_failed temp engine N fs sched :
  fs !! temp = Some Dir -> (forall i, fs !! progress_file temp i <> Some Dir) ->
  let st := pool_run (spawn_all temp engine N fs) sched in
  blocked temp st = true ->
  exists c e, 1 <= c < N /\ (c, false, e) ∈ arrivals (p_log st)
              /\ gate_open (p_fs st) (progress_file temp c) = false.
Proof.
  intros Htemp Hpf st Hb.
  destruct (pool_inv_run temp engine _ sched (spawn_all_pool_inv temp engine N fs Htemp Hpf))
    as (Hwf & (Hlog & _ & Hrep) & (_ & _ & Hrec) & _).
  fold st in Hwf, Hlog, Hrep, Hrec.
  unfold blocked in Hb. apply existsb_exists in Hb as (w & Hin & Hb).
  apply list_elem_of_In, list_elem_of_lookup in Hin as [k Hw].
  apply andb_true_iff in Hb as [[Hf Hc%Z.ltb_lt]%andb_true_iff Hg%negb_true_iff].
  destruct (finished_return _ Hf) as [[[c s] e] Hpc].
  destruct (Hrep _ _ Hw _ _ _ Hpc) as [-> _].
  destruct (Hwf _ _ Hw) as (Hcw & _).
  unfold st in Hc. rewrite pool_run_length in Hc.
  exists (w_chunk w), e. split; [lia|]. split; [|done].
  destruct s.
  - exfalso. destruct (Hrec _ _ Hw) as [_ H2]. specialize (H2 _ _ Hpc).
    unfold finished in Hf. rewrite Hpc in Hf. destruct (w_pending w); [done|].
    unfold gate_open, exists_, json_load in Hg. rewrite H2 in Hg. done.
  - apply elem_of_arrivals, Hlog. eauto.
Qed.

Lemma finish_video_not_waiting t fs video N arrived :
  (finish_video t fs video N arrived).2 <> PVWaiting.
Proof.
  unfold finish_video. destruct (open_w fs _); [|done].
  destruct (combine_transcripts _ _ _) as [[written warnings] [e|]]; [done|].
  by destruct (cleanup_temp t _) as [[fs3 out3] [e|]].
Qed.

(** X9: on a well-formed filesystem, under a schedule of rounds in each of
    which every worker of the job gets a turn, [process_video] has come to
    its end once there have been as many rounds as [steps_bound] says,
    unless a worker that has a successor has reported a failure and left a
    progress record that does not open the gate of the successor: short of
    that, the gates of the staggered start hold no worker for ever. *)
Theorem job_ends_unless_a_worker_fails tl engine t fs video current total completion rounds :
  let N := num_chunk_threads t in
  let o := process_video tl engine t fs video current total completion (mjoin rounds) in
  well_formed fs ->
  (forall round, round ∈ rounds -> forall i, 1 <= i <= N -> i ∈ round) ->
  (steps_bound engine N <= length rounds)%nat ->
  pv_status_of o <> PVWaiting
  \/ exists c e, 1 <= c < N /\ (c, false, e) ∈ arrivals (pv_log o)
                 /\ gate_open (pv_fs o) (progress_file (temp_dir t) c) = false.
Proof.
  intros N o Hwf Hfair Hlen.
  destruct (process_video_cases tl engine t fs video current total completion (mjoin rounds))
    as [(_ & _ & _ & _ & H)|[(Hok & Hd & Hfs & Hlog & _)|(_ & _ & _ & _ & Hs)]].
  - by left.
  - right. fold o in Hlog, Hfs. rewrite Hlog, Hfs.
    apply (blocked_failed (temp_dir t) engine N).
    + by apply (split_ok_facts tl t fs video N completion).
    + intros i Hi.
      destruct (split_only_chunks tl t fs video N completion
                  (progress_file (temp_dir t) i) Dir Hwf Hok) as (j & c & _ & H & _).
      * apply below_temp.
      * intros H. apply (f_equal length) in H. rewrite progress_file_length in H. lia.
      * done.
      * by apply progress_file_not_chunk_file in H.
    + pose proof (pool_settles (temp_dir t) engine N
                    (split_fs (split_video_into_chunks tl t fs video N completion)) rounds
                    Hfair Hlen) as Hset.
      unfold settled in Hset. fold N in Hd. by rewrite Hd in Hset.
  - left. fold o in Hs. rewrite Hs. apply finish_video_not_waiting.
Qed.

Lemma job_ends_unless_a_worker_fails_witness :
  let o := process_video tools_ok (fun _ => whisper_ok) two_chunks demo_fs demo_video 1 1
             [2; 1] (mjoin (replicate 48 [1; 2])) in
  pv_status_of o <> PVWaiting
  \/ exists c e, 1 <= c < num_chunk_threads two_chunks
                 /\ (c, false, e) ∈ arrivals (pv_log o)
                 /\ gate_open (pv_fs o) (progress_file (temp_dir two_chunks) c) = false.
Proof.
  apply (job_ends_unless_a_worker_fails tools_ok (fun _ => whisper_ok) two_chunks demo_fs
           demo_video 1 1 [2; 1] (replicate 48 [1; 2])).
  - apply demo_fs_well_formed.
  - intros round [-> _]%elem_of_replicate i Hi.
    change (num_chunk_threads two_chunks) with 2 in Hi.
    assert (i = 1 \/ i = 2) as [-> | ->] by lia; [by left | right; by left].
  - vm_compute. lia.
Defined.

(** * The monitor and the workers *)




(** ** What a bar shows *)

Lemma monitor_read_displayed temp fs i m ad j :
  synced m -> 0 <= displayed m j ->
  displayed (monitor_read temp fs i m ad).1 j
  = if decide (i = j) then Z.max (displayed m j) (default 0 (percent_read temp fs i))
    else displayed m j.
Proof.
  intros Hs H0. unfold percent_read.
  destruct (monitor_read_cases temp fs i m ad)
    as [[Hm _]|(d & p & He & Hj & Hp & Hlt & Hm)].
  - rewrite Hm. destruct (decide (i = j)) as [->|]; [|done].
    unfold monitor_read in Hm. rewrite (Hs j) in H0 |- *.
    destruct (exists_ fs (progress_file temp j)); [|simpl; lia].
    destruct (json_load fs (progress_file temp j)) as [d|e]; [|simpl; lia].
    destruct (dict_get d "percent" (JInt 0)) as [p|s]; [|simpl; lia]. simpl in *.
    destruct (Z.ltb_spec (default 0 (last_percent m !! j)) p); [|lia].
    exfalso. apply (f_equal last_percent) in Hm. simpl in Hm.
    apply (f_equal (fun x => x !! j)) in Hm. rewrite lookup_insert_eq in Hm.
    rewrite <- Hm in H. simpl in H. lia.
  - rewrite Hm, He, Hj, Hp. unfold displayed at 1. simpl. rewrite displayed_insert.
    destruct (decide (i = j)) as [->|]; [|done]. rewrite (Hs j). lia.
Qed.

Lemma reads_displayed temp pl m ad l j :
  synced m -> 0 <= displayed m j -> NoDup l ->
  displayed (reads temp pl m ad l).1 j
  = if decide (j ∈ l)
    then Z.max (displayed m j) (default 0 (percent_read temp (snapshot pl j) j))
    else displayed m j.
Proof.
  intros Hs H0. induction l as [|i l IH] using rev_ind; intros Hnd.
  - destruct (decide (j ∈ [])) as [H|_]; [by apply elem_of_nil in H|done].
  - apply NoDup_app in Hnd as (Hnd & Hdisj & _).
    rewrite reads_snoc, monitor_read_displayed
      by (by apply reads_synced || (etrans; [exact H0|apply reads_mono])).
    rewrite IH by done.
    destruct (decide (i = j)) as [->|Hne].
    + rewrite decide_False by (intros ?; eapply Hdisj; [done|by left]).
      rewrite decide_True by (apply elem_of_app; right; by left). done.
    + destruct (decide (j ∈ l)) as [Hj|Hj].
      * rewrite decide_True by (apply elem_of_app; by left). done.
      * rewrite decide_False; [done|].
        intros [?|?%list_elem_of_singleton]%elem_of_app; done.
Qed.

Lemma monitor_iteration_displayed temp N m pl i :
  synced m -> 0 <= displayed m i -> 1 <= i <= N ->
  displayed (monitor_iteration temp N m pl).1 i
  = Z.max (displayed m i) (default 0 (percent_read temp (snapshot pl i) i)).
Proof.
  intros Hs H0 Hi. rewrite monitor_iteration_reads. simpl.
  rewrite reads_displayed by (done || apply NoDup_seqZ).
  rewrite decide_True; [done|]. apply elem_of_range. lia.
Qed.

Lemma monitor_loop_length temp N : forall polls m,
  (length (monitor_loop temp N m polls).1 <= length polls)%nat.
Proof.
  induction polls as [|pl polls IH]; intros m; [done|].
  simpl. destruct (monitor_iteration temp N m pl) as [m' exit].
  destruct exit; simpl; [lia|].
  specialize (IH m'). destruct (monitor_loop temp N m' polls). simpl in *. lia.
Qed.

Lemma displayed_init N i : displayed (monitor_init N) i = 0.
Proof.
  unfold displayed, monitor_init. simpl.
  destruct (list_to_map _ !! i) as [x|] eqn:E; [|done].
  apply elem_of_list_to_map_2, list_elem_of_fmap in E as (j & [= -> ->] & _). done.
Qed.

(** X11: the bar of a chunk shows, at every moment, the highest percent the
    monitor has found in the record of the chunk in its polls so far (0
    before it has found any). *)
Theorem bar_shows_highest_percent temp N polls i k m :
  1 <= i <= N ->
  monitor_trace temp N polls !! k = Some m ->
  displayed m i = highest_read temp i (take k polls).
Proof.
  intros Hi. revert m. induction k as [|k IH]; intros m Hk.
  - injection Hk as <-. rewrite take_0. apply displayed_init.
  - unfold monitor_trace, monitor_progress in *.
    assert (Hlen : (k < length polls)%nat).
    { apply lookup_lt_Some in Hk. simpl in Hk.
      pose proof (monitor_loop_length temp N polls (monitor_init N)). lia. }
    destruct (lookup_lt_is_Some_2 polls k Hlen) as [pl Hpl].
    destruct (lookup_lt_is_Some_2 (monitor_init N :: (monitor_loop temp N (monitor_init N)
                                                        polls).1) k) as [m1 Hm1].
    { apply lookup_lt_Some in Hk. lia. }
    rewrite (monitor_loop_next temp N polls _ k pl m1 m Hpl Hm1 Hk).
    rewrite monitor_iteration_displayed;
      [|by eapply monitor_loop_synced; [apply monitor_init_synced|]| |done].
    2:{ rewrite <- (displayed_init N i).
        apply (monitor_loop_mono temp N i polls (monitor_init N) 0 k (monitor_init N) m1);
          [lia|done|done]. }
    rewrite (IH m1 Hm1), (take_S_r _ _ _ Hpl). unfold highest_read. by rewrite foldl_app.
Qed.

Lemma bar_shows_highest_percent_witness :
  exists m,
    monitor_trace (temp_dir one_chunk) 1
      [poll_of (p_fs (pool_run ok_pool1 (replicate 11 1))) false;
       poll_of (p_fs (pool_run ok_pool1 (replicate 2 1))) false] !! 2%nat = Some m
    /\ displayed m 1 = 50.
Proof.
  eexists. split; [vm_compute; reflexivity|].
  rewrite (bar_shows_highest_percent (temp_dir one_chunk) 1
             [poll_of (p_fs (pool_run ok_pool1 (replicate 11 1))) false;
              poll_of (p_fs (pool_run ok_pool1 (replicate 2 1))) false] 1 2 _);
    [vm_compute; reflexivity | lia | vm_compute; reflexivity].
Defined.

(** * The jobs of a run *)

(** ** The videos found *)

Lemma elem_of_glob_mp4 fs dir p :
  p ∈ glob_mp4 fs dir
  <-> is_Some (fs !! p) /\ parent p = dir /\ p <> []
      /\ ends_with ".mp4" (path_name p) = true.
Proof.
  unfold glob_mp4. rewrite list_elem_of_filter, list_elem_of_fmap. split.
  - intros [(H1 & H2 & H3) ([q x] & -> & Hin)]. apply elem_of_map_to_list in Hin.
    simpl in *. split; [by exists x|done].
  - intros ([x Hx] & H1 & H2 & H3). split; [done|].
    exists (p, x). split; [done|]. by apply elem_of_map_to_list.
Qed.

Lemma glob_mp4_NoDup fs dir : NoDup (glob_mp4 fs dir).
Proof. unfold glob_mp4. apply NoDup_filter, NoDup_fst_map_to_list. Qed.

#[global] Instance name_le_total : Total name_le.
Proof. intros p q. unfold name_le. apply String.leb_total. Qed.

Lemma jobs_of_lookup video_files k :
  jobs_of video_files !! k
  = (fun v => {| j_video := v; j_current := Z.of_nat k + 1; j_phase := Queued |})
    <$> (video_files !! k).
Proof.
  unfold jobs_of. rewrite list_lookup_fmap, list_lookup_imap.
  by destruct (video_files !! k).
Qed.

Lemma jobs_of_videos video_files : j_video <$> jobs_of video_files = video_files.
Proof.
  apply list_eq. intros k. rewrite list_lookup_fmap, jobs_of_lookup.
  by destruct (video_files !! k).
Qed.

Lemma run_submit_jobs t fs st :
  run_submit t fs = Ok st ->
  r_fs st = fs /\ r_jobs st = jobs_of (sorted_paths (glob_mp4 fs (input_dir t)))
  /\ (r_jobs st <> [] -> 1 <= max_threads t).
Proof.
  unfold run_submit. destruct (sorted_paths _) as [|v l] eqn:E.
  - intros [= <-]. done.
  - destruct (Z.leb_spec (max_threads t) 0); [done|]. intros [= <-]. simpl.
    split; [done|]. split; [done|]. intros _. lia.
Qed.

Lemma input_dir_nonempty t : input_dir t <> [].
Proof. unfold input_dir, joinpath. by destruct (script_dir t). Qed.

(** X12: the jobs of a run are the entries of the input directory whose name
    ends in [.mp4], each once, in ascending order of their names and
    numbered from 1; they wait in the queue, and nothing has been touched
    yet. *)
Theorem run_queues_videos_by_name t fs st :
  run_submit t fs = Ok st ->
  r_fs st = fs
  /\ Sorted name_le (j_video <$> r_jobs st)
  /\ NoDup (j_video <$> r_jobs st)
  /\ (forall p, p ∈ (j_video <$> r_jobs st)
        <-> is_Some (fs !! p) /\ parent p = input_dir t
            /\ ends_with ".mp4" (path_name p) = true)
  /\ (forall k j, r_jobs st !! k = Some j ->
        j_current j = Z.of_nat k + 1 /\ j_phase j = Queued).
Proof.
  intros (Hfs & Hjobs & _)%run_submit_jobs. rewrite Hjobs, jobs_of_videos.
  unfold sorted_paths. split; [done|]. split; [apply Sorted_merge_sort, _|].
  split; [|split].
  - rewrite merge_sort_Permutation. apply glob_mp4_NoDup.
  - intros p. rewrite merge_sort_Permutation, elem_of_glob_mp4. split.
    + intros (? & ? & _ & ?). done.
    + intros (? & Hp & ?). split; [done|]. split; [done|]. split; [|done].
      intros ->. simpl in Hp. by apply (input_dir_nonempty t).
  - intros k j. rewrite jobs_of_lookup.
    destruct (merge_sort name_le _ !! k); [|done]. by intros [= <-].
Qed.

Lemma run_queues_videos_by_name_witness :
  exists st, run_submit two_chunks two_videos_fs = Ok st
             /\ Sorted name_le (j_video <$> r_jobs st).
Proof.
  eexists. split; [vm_compute; reflexivity|].
  eapply (run_queues_videos_by_name two_chunks two_videos_fs). vm_compute. reflexivity.
Defined.

(** ** The executor *)

Lemma in_flight_count_insert jobs k x y :
  jobs !! k = Some x ->
  (in_flight_count (<[k := y]> jobs) + (if in_flight x then 1 else 0)
   = in_flight_count jobs + (if in_flight y then 1 else 0))%nat.
Proof.
  unfold in_flight_count. revert k. induction jobs as [|a jobs IH]; intros [|k] H; try done.
  - simpl in H. injection H as ->. simpl. rewrite !filter_cons.
    destruct (decide (in_flight y = true)) as [->|Hy], (decide (in_flight x = true)) as [->|Hx];
      simpl; try lia.
    + apply not_true_is_false in Hx. rewrite Hx. lia.
    + apply not_true_is_false in Hy. rewrite Hy. lia.
    + apply not_true_is_false in Hx, Hy. rewrite Hx, Hy. lia.
  - simpl in H. specialize (IH k H). simpl. rewrite !filter_cons.
    destruct (decide (in_flight a = true)); simpl; lia.
Qed.

(** A step of the run leaves the state as it is, takes the job at the
    head of the queue when a thread is free, or moves a job that is in
    flight on. *)
Lemma run_step_cases tl engine t st it :
  run_step tl engine t st it = st
  \/ exists j jb ph fs' out,
       job_at st j = Some jb
       /\ run_step tl engine t st it = set_job st j (set_phase jb ph) fs' out
       /\ ((queued jb = true /\ ph = Splitting
            /\ (forall k jb', (k < Z.to_nat (j - 1))%nat -> r_jobs st !! k = Some jb' ->
                  queued jb' = false)
            /\ Z.of_nat (in_flight_count (r_jobs st)) < max_threads t)
           \/ (in_flight jb = true /\ ph <> Queued)).
Proof.
  destruct it as [j|j completion|j i]; simpl.
  - destruct (job_at st j) as [jb|] eqn:Hj; [|by left].
    destruct (queued jb) eqn:Hq; [|by left]. simpl.
    destruct (forallb _ _) eqn:Hall; [|by left]. simpl.
    destruct (Z.ltb_spec (Z.of_nat (length (filter (fun jb' => in_flight jb' = true)
                                                  (r_jobs st)))) (max_threads t));
      [|by left].
    right. exists j, jb, Splitting, (r_fs st), []. split; [done|]. split; [done|]. left.
    split; [done|]. split; [done|]. split; [|done].
    intros k jb' Hk Hjb'. rewrite forallb_forall in Hall.
    apply negb_true_iff, Hall, list_elem_of_In.
    apply (list_elem_of_lookup_2 _ k). rewrite lookup_take_lt by done. done.
  - destruct (job_at st j) as [jb|] eqn:Hj; [|by left].
    destruct (j_phase jb) as [| |workers log|s] eqn:Hph; [by left| | |by left].
    + destruct (begin_video _ _ _ _ _ _ _ _) as [fs' out status|p out]; right.
      * eexists j, jb, _, _, _. split; [done|]. split; [done|]. right.
        split; [|done]. unfold in_flight. by rewrite Hph.
      * eexists j, jb, _, _, _. split; [done|]. split; [done|]. right.
        split; [|done]. unfold in_flight. by rewrite Hph.
    + destruct (forallb finished workers); [|by left].
      destruct (finish_video _ _ _ _ _) as [[fs' out] status]. right.
      eexists j, jb, _, _, _. split; [done|]. split; [done|]. right.
      split; [|done]. unfold in_flight. by rewrite Hph.
  - destruct (job_at st j) as [jb|] eqn:Hj; [|by left].
    destruct (j_phase jb) as [| |workers log|s] eqn:Hph; try by left.
    right. eexists j, jb, _, _, _. split; [done|]. split; [done|]. right.
    split; [|done]. unfold in_flight. by rewrite Hph.
Qed.

Lemma job_at_lookup st j jb :
  job_at st j = Some jb -> 1 <= j /\ r_jobs st !! Z.to_nat (j - 1) = Some jb.
Proof. unfold job_at. destruct (Z.ltb_spec j 1) as [|Hj]; [done|]. intros Hjb. split; [lia|done]. Qed.

Lemma run_step_inv tl engine t videos st it :
  run_inv t videos st -> run_inv t videos (run_step tl engine t st it).
Proof.
  intros (Hcount & Hq & Hv).
  destruct (run_step_cases tl engine t st it)
    as [->|(j & jb & ph & fs' & out & Hj & -> & Hcase)]; [done|].
  apply job_at_lookup in Hj as [Hj1 Hj]. set (k0 := Z.to_nat (j - 1)) in *.
  pose proof (in_flight_count_insert (r_jobs st) k0 jb (set_phase jb ph) Hj) as Hins.
  assert (Hk0 : (k0 < length (r_jobs st))%nat) by (by eapply lookup_lt_Some).
  unfold set_job, run_inv. simpl. fold k0. split; [|split].
  - destruct Hcase as [(Hqd & -> & _ & Hlt)|(Hfl & Hph)].
    + unfold in_flight in Hins at 1 2. simpl in Hins.
      unfold queued in Hqd. destruct (j_phase jb); try done. lia.
    + rewrite Hfl in Hins. destruct (in_flight (set_phase jb ph)); lia.
  - intros k k' j1 j2 Hkk H1 H2 Hqd.
    destruct (decide (k = k0)) as [->|Hk];
      [rewrite list_lookup_insert_eq in H1 by done|rewrite list_lookup_insert_ne in H1 by done];
      (destruct (decide (k' = k0)) as [->|Hk'];
       [rewrite list_lookup_insert_eq in H2 by done
       |rewrite list_lookup_insert_ne in H2 by done]).
    + congruence.
    + injection H1 as <-. destruct Hcase as [(_ & -> & _)|(_ & Hph)]; [done|].
      unfold queued in Hqd. simpl in Hqd. by destruct ph.
    + injection H2 as <-. destruct Hcase as [(_ & -> & Hearlier & _)|(Hfl & _)].
      * rewrite (Hearlier k j1) in Hqd; [done|lia|done].
      * pose proof (Hq k k0 j1 jb Hkk H1 Hj Hqd) as Hqjb.
        unfold in_flight in Hfl. unfold queued in Hqjb. by destruct (j_phase jb).
    + by apply (Hq k k' j1 j2).
  - rewrite list_fmap_insert. simpl. rewrite <- Hv.
    apply list_eq. intros k. destruct (decide (k = k0)) as [->|Hk].
    + rewrite list_lookup_insert_eq by (by rewrite length_fmap).
      by rewrite list_lookup_fmap, Hj.
    + by rewrite list_lookup_insert_ne.
Qed.

Lemma jobs_of_queued videos k j : jobs_of videos !! k = Some j -> queued j = true.
Proof. rewrite jobs_of_lookup. destruct (videos !! k); [|done]. by intros [= <-]. Qed.

Lemma in_flight_count_jobs_of videos : in_flight_count (jobs_of videos) = 0%nat.
Proof.
  assert (H : Forall (fun j => in_flight j = false) (jobs_of videos)).
  { apply Forall_forall. intros j [k Hk]%list_elem_of_lookup.
    apply jobs_of_queued in Hk. unfold queued, in_flight in *. by destruct (j_phase j). }
  unfold in_flight_count. induction H as [|j l Hj _ IH]; [done|].
  rewrite filter_cons_False by congruence. done.
Qed.

(** X13: at every moment of a run, no more jobs are in [process_video] than the
    executor has threads, a job is taken only when the jobs before it have
    been taken, and the list of the videos stays as it was queued.  With
    one thread, one job at most uses the temporary directory. *)
Theorem run_executor_discipline tl engine t fs st0 sched :
  run_submit t fs = Ok st0 ->
  let st := run_from tl engine t st0 sched in
  Z.of_nat (length (filter (fun jb => in_flight jb = true) (r_jobs st)))
  <= Z.max 0 (max_threads t)
  /\ (forall k k' j j', (k <= k')%nat ->
        r_jobs st !! k = Some j -> r_jobs st !! k' = Some j' ->
        queued j = true -> queued j' = true)
  /\ j_video <$> r_jobs st = j_video <$> r_jobs st0.
Proof.
  intros (_ & Hjobs & _)%run_submit_jobs st.
  assert (H : run_inv t (j_video <$> r_jobs st0) st).
  { subst st. unfold run_from. induction sched as [|it sched IH] using rev_ind.
    - simpl. unfold run_inv. rewrite Hjobs. split; [|split; [|done]].
      + rewrite in_flight_count_jobs_of. lia.
      + intros k k' j j' _ _ H2 _. by apply jobs_of_queued in H2.
    - rewrite foldl_app. simpl. by apply run_step_inv. }
  exact H.
Qed.

Lemma run_executor_discipline_witness :
  exists st0, run_submit two_chunks two_videos_fs = Ok st0
    /\ Z.of_nat (length (filter (fun jb => in_flight jb = true)
                           (r_jobs (run_from tools_by_source (fun _ _ => whisper_ok)
                                      two_chunks st0 two_jobs_schedule))))
       <= Z.max 0 (max_threads two_chunks).
Proof.
  eexists. split; [vm_compute; reflexivity|].
  eapply (run_executor_discipline tools_by_source (fun _ _ => whisper_ok) two_chunks
            two_videos_fs). vm_compute. reflexivity.
Defined.

(** * The configuration dialogue *)

Lemma select_language_valid stdin lang rest :
  (select_language stdin).2 = Ok (lang, rest) -> lang ∈ ["en"; "hi"; "auto"].
Proof.
  induction stdin as [|line stdin IH]; simpl; [done|].
  destruct (String.eqb (strip line) ""); simpl; [intros [= <- _]; set_solver|].
  destruct (int_of_str (strip line)) as [idx|].
  - destruct (idx =? 1); simpl; [intros [= <- _]; set_solver|].
    destruct (idx =? 2); simpl; [intros [= <- _]; set_solver|].
    destruct (idx =? 3); simpl; [intros [= <- _]; set_solver|].
    by destruct (select_language stdin).
  - by destruct (select_language stdin).
Qed.

Lemma select_model_valid stdin model rest :
  (select_model stdin).2 = Ok (model, rest) -> model ∈ valid_models.
Proof.
  induction stdin as [|line stdin IH]; simpl; [done|].
  destruct (String.eqb (strip line) ""); simpl; [intros [= <- _]; set_solver|].
  destruct (int_of_str (strip line)) as [n|].
  - destruct (_ && _); simpl.
    + destruct (valid_models !! Z.to_nat (n - 1)) as [m|] eqn:E; simpl; [|done].
      intros [= <- _]. by eapply list_elem_of_lookup_2.
    + by destruct (select_model stdin).
  - by destruct (select_model stdin).
Qed.

Lemma select_threads_first stdin n rest :
  (select_threads stdin).2 = Ok (n, rest)
  <-> exists k line,
        stdin !! k = Some line /\ accepts_threads line = Some n /\ rest = drop (S k) stdin
        /\ forall k' line', (k' < k)%nat -> stdin !! k' = Some line' ->
             accepts_threads line' = None.
Proof.
  revert n rest. induction stdin as [|line stdin IH]; intros n rest.
  { simpl. split; [done|]. intros (k & l & H & _). done. }
  assert (Hrest : accepts_threads line = None ->
            ((select_threads (line :: stdin)).2 = Ok (n, rest)
             <-> (select_threads stdin).2 = Ok (n, rest))).
  { unfold accepts_threads. simpl. destruct (String.eqb (strip line) ""); [done|].
    destruct (int_of_str (strip line)) as [m|]; [destruct (m <? 1); [|done]|];
      intros _; by destruct (select_threads stdin). }
  destruct (accepts_threads line) as [m|] eqn:Hacc.
  - assert (Hnow : (select_threads (line :: stdin)).2 = Ok (m, stdin)).
    { unfold accepts_threads in Hacc. simpl. destruct (String.eqb (strip line) "").
      - by injection Hacc as <-.
      - destruct (int_of_str (strip line)) as [m'|]; [|done].
        destruct (m' <? 1); [done|]. by injection Hacc as <-. }
    rewrite Hnow. split.
    + intros [= <- <-]. exists 0%nat, line. split; [done|]. split; [done|]. split; [done|].
      intros k' l' Hlt. lia.
    + intros ([|k] & l & Hl & Hal & -> & Hbefore).
      * simpl in Hl. injection Hl as <-. rewrite Hacc in Hal. by injection Hal as ->.
      * rewrite (Hbefore 0%nat line) in Hacc; [done|lia|done].
  - rewrite (Hrest eq_refl), IH. split.
    + intros (k & l & Hl & Hal & -> & Hbefore). exists (S k), l.
      split; [done|]. split; [done|]. split; [done|].
      intros [|k'] l' Hlt Hl'; simpl in Hl'; [by injection Hl' as <-|].
      apply (Hbefore k'); [lia|done].
    + intros ([|k] & l & Hl & Hal & -> & Hbefore); simpl in Hl.
      * injection Hl as <-. congruence.
      * exists k, l. split; [done|]. split; [done|]. split; [done|].
        intros k' l' Hlt Hl'. apply (Hbefore (S k')); [lia|done].
Qed.

Lemma accepts_threads_valid line n : accepts_threads line = Some n -> 1 <= n.
Proof.
  unfold accepts_threads. destruct (String.eqb (strip line) ""); [intros [= <-]; lia|].
  destruct (int_of_str (strip line)) as [m|]; [|done].
  destruct (Z.ltb_spec m 1); [done|]. intros [= <-]. lia.
Qed.

(** What [main_config] returns when the defaults are not asked for. *)
Lemma main_config_interactive a stdin n model lang :
  arg_default a = false ->
  (main_config a stdin).2 = Ok (n, model, lang) ->
  exists stdin1 stdin2 rest,
    (select_language stdin).2 = Ok (lang, stdin1)
    /\ (select_threads stdin1).2 = Ok (n, stdin2)
    /\ (select_model stdin2).2 = Ok (model, rest).
Proof.
  intros Ha. unfold main_config. rewrite Ha.
  destruct (select_language stdin) as [out2 [[lang' stdin1]|e]]; [|done].
  destruct (select_threads stdin1) as [out3 [[n' stdin2]|e]] eqn:Ht; [|done].
  destruct (select_model stdin2) as [out5 [[model' rest]|e]] eqn:Hm; [|done].
  simpl. intros [= <- <- <-]. exists stdin1, stdin2, rest.
  rewrite Ht, Hm. done.
Qed.

Lemma main_config_ok a stdin n model lang :
  (main_config a stdin).2 = Ok (n, model, lang) ->
  1 <= n /\ model ∈ valid_models /\ lang ∈ ["en"; "hi"; "auto"]
  /\ (arg_default a = true -> n = 2 /\ model = "base" /\ lang = "en")
  /\ forall script_dir fs,
       exists st, run_submit (VideoTranscriber script_dir n model lang) fs = Ok st.
Proof.
  intros H.
  assert (H3 : 1 <= n /\ model ∈ valid_models /\ lang ∈ ["en"; "hi"; "auto"]
               /\ (arg_default a = true -> n = 2 /\ model = "base" /\ lang = "en")).
  { destruct (arg_default a) eqn:Ha.
    - unfold main_config in H. rewrite Ha in H. simpl in H. injection H as <- <- <-.
      split; [lia|]. split; [set_solver|]. split; [set_solver|done].
    - destruct (main_config_interactive a stdin n model lang Ha H)
        as (stdin1 & stdin2 & rest & H1 & H2 & H4).
      apply select_threads_first in H2 as (k & line & _ & Hacc & _).
      split; [by eapply accepts_threads_valid|].
      split; [by eapply select_model_valid|].
      split; [by eapply select_language_valid|done]. }
  destruct H3 as (Hn & Hm & Hl & Hdef). repeat split; try done; try (by apply Hdef).
  intros sd fs. unfold run_submit. destruct (sorted_paths _); [eauto|]. simpl.
  destruct (Z.leb_spec n 0); [lia|eauto].
Qed.

Lemma main_config_valid_run a stdin n model lang :
  (main_config a stdin).2 = Ok (n, model, lang) ->
  forall script_dir fs,
    exists st, run_submit (VideoTranscriber script_dir n model lang) fs = Ok st.
Proof. intros H. by apply (main_config_ok a stdin n model lang). Qed.

(** X14: whatever is typed, and whatever the command line says, a
    configuration that [main] arrives at has a thread count of at least 1,
    one of the five model sizes and one of the three language codes; with
    [--default] it is 2 threads, the model [base] and the language [en];
    with it, [run] does not fail for want of threads. *)
Theorem main_config_valid a stdin n model lang :
  (main_config a stdin).2 = Ok (n, model, lang) ->
  1 <= n /\ model ∈ valid_models /\ lang ∈ ["en"; "hi"; "auto"]
  /\ (arg_default a = true -> n = 2 /\ model = "base" /\ lang = "en")
  /\ forall script_dir fs,
       exists st, run_submit (VideoTranscriber script_dir n model lang) fs = Ok st.
Proof. apply main_config_ok. Qed.

Lemma main_config_valid_witness :
  (main_config eight_threads five_answers).2 = Ok (3, "base", "en") /\ 1 <= 3.
Proof.
  assert (H : (main_config eight_threads five_answers).2 = Ok (3, "base", "en"))
    by (vm_compute; reflexivity).
  split; [exact H|]. by destruct (main_config_valid _ _ _ _ _ H) as (? & _).
Defined.

(** X15: without [--default], the thread count comes from the dialogue alone,
    whatever [--threads] says: it is what the first acceptable answer to
    the thread prompt gives (1 for a blank answer, else the integer typed,
    which is at least 1), and every answer before it has been turned down. *)
Theorem threads_come_from_the_prompt a stdin n model lang :
  arg_default a = false ->
  (main_config a stdin).2 = Ok (n, model, lang) ->
  exists stdin1 k line,
    (select_language stdin).2 = Ok (lang, stdin1)
    /\ stdin1 !! k = Some line /\ accepts_threads line = Some n
    /\ forall k' line', (k' < k)%nat -> stdin1 !! k' = Some line' ->
         accepts_threads line' = None.
Proof.
  intros Ha H.
  destruct (main_config_interactive a stdin n model lang Ha H)
    as (stdin1 & stdin2 & rest & H1 & H2 & _).
  apply select_threads_first in H2 as (k & line & Hl & Hacc & _ & Hbefore).
  exists stdin1, k, line. done.
Qed.

Lemma threads_come_from_the_prompt_witness :
  exists stdin1 k line,
    (select_language five_answers).2 = Ok ("en", stdin1)
    /\ stdin1 !! k = Some line /\ accepts_threads line = Some 3
    /\ forall k' line', (k' < k)%nat -> stdin1 !! k' = Some line' ->
         accepts_threads line' = None.
Proof.
  apply (threads_come_from_the_prompt eight_threads five_answers 3 "base" "en").
  - reflexivity.
  - vm_compute. reflexivity.
Defined.

(** * The transcriber object *)

(** X16: when [VideoTranscriber(...)] returns, [load_model] has returned
    without raising, cleanup is enabled, the output directory is there,
    and [__init__] itself has changed nothing of what [load_model] left in
    the filesystem: all it adds is the output directory and its missing
    ancestors. *)
Theorem init_makes_output_dir (load : loader) (script_dir : Path) (n : Z)
    (model lang : string) (fs : filesystem) (t : transcriber) :
  let r := VideoTranscriber_init load script_dir n model lang fs in
  let loaded := (load model fs).1 in
  r.2 = Ok t ->
  (load model fs).2 = None
  /\ t = VideoTranscriber script_dir n model lang
  /\ cleanup t = true
  /\ r.1.2 !! output_dir t = Some Dir
  /\ forall q, r.1.2 !! q = loaded !! q
               \/ (loaded !! q = None /\ r.1.2 !! q = Some Dir
                   /\ q `prefix_of` output_dir t).
Proof.
  unfold VideoTranscriber_init. destruct (load model fs) as [fs1 [e|]]; [done|].
  destruct (mkdir_parents fs1 _) as [fs2|e] eqn:Hm; [|done]. simpl. intros [= <-].
  split; [done|]. split; [done|]. split; [done|]. split.
  - apply mkdir_parents_is_dir, is_dir_spec in Hm as [Hm|Hm]; [|done].
    by apply output_dir_nonempty in Hm.
  - intros q. by apply mkdir_parents_lookup.
Qed.

Lemma init_makes_output_dir_witness :
  let r := VideoTranscriber_init caching_loader demo_dir 2 "base" "en" ∅ in
  r.2 = Ok (VideoTranscriber demo_dir 2 "base" "en")
  /\ r.1.2 !! output_dir (VideoTranscriber demo_dir 2 "base" "en") = Some Dir
  /\ r.1.2 !! ["cache"; "whisper"; "base.pt"] = Some (File (Media None)).
Proof.
  assert (H : (VideoTranscriber_init caching_loader demo_dir 2 "base" "en" ∅).2
              = Ok (VideoTranscriber demo_dir 2 "base" "en")) by (vm_compute; reflexivity).
  destruct (init_makes_output_dir caching_loader demo_dir 2 "base" "en" ∅ _ H)
    as (_ & _ & _ & Hout & Hq).
  split; [exact H|]. split; [exact Hout|].
  destruct (Hq ["cache"; "whisper"; "base.pt"]) as [->|(_ & _ & Hp)].
  - vm_compute. reflexivity.
  - destruct Hp as [k Hk]. vm_compute in Hk. discriminate Hk.
Defined.

(** * The launcher *)

(** X17: the launcher starts the engine exactly when the virtual environment
    exists, with the interpreter of the environment in unbuffered mode and
    its own arguments after the script; it ends with the exit status of
    the engine when the engine returns one, and with 1 in every other
    case, so that it ends with 0 only if the engine did. *)
Theorem launcher_exit_status platform project_root fs argv run :
  let r := Launcher.main platform project_root fs argv run in
  (r.1.2 = None <-> exists_ fs (project_root /: ".venv") = false)
  /\ (forall cmd, r.1.2 = Some cmd ->
        cmd !! 1%nat = Some (AStr "-u")
        /\ cmd !! 2%nat = Some (APath (project_root /: "scripts" /: "transcribe_parallel.py"))
        /\ drop 3 cmd = AStr <$> tail argv
        /\ match run cmd with
           | Launcher.Returned returncode => r.2 = returncode
           | _ => r.2 = 1
           end)
  /\ (r.1.2 = None -> r.2 = 1)
  /\ (r.2 = 0 -> exists cmd, r.1.2 = Some cmd /\ run cmd = Launcher.Returned 0).
Proof.
  unfold Launcher.main. destruct (exists_ fs _); simpl.
  - set (cmd := _ :: _ :: _ :: _).
    destruct (run cmd) eqn:E; simpl; (split; [done|]);
      (split; [intros ? [= <-]; rewrite E; done|]); (split; [done|]); intros H; try done.
    subst. eauto.
  - split; [done|]. split; [done|]. split; [done|]. done.
Qed.

(** * The names of the transcripts *)

Lemma ends_with_rev_spec suffix name :
  ends_with_rev suffix name = true <-> exists pre, name = suffix ++ pre.
Proof.
  revert name. induction suffix as [|c suffix IH]; intros name; simpl.
  - split; [eauto|done].
  - destruct name as [|d name]; [split; [done|intros [pre H]; done]|].
    rewrite andb_true_iff, IH. split.
    + intros [Hc [pre ->]]. apply Ascii.eqb_eq in Hc as ->. eauto.
    + intros [pre [= -> ->]]. split; [apply Ascii.eqb_refl|eauto].
Qed.

(** A name ends in [.mp4] when it is some text followed by [.mp4]. *)
Lemma ends_with_mp4 name :
  ends_with ".mp4" name = true <-> exists s, name = s +:+ ".mp4".
Proof.
  unfold ends_with. rewrite ends_with_rev_spec. split.
  - intros [pre H]. exists (String.string_of_list_ascii (rev pre)).
    apply (f_equal (@rev _)) in H. rewrite rev_involutive, rev_app_distr in H.
    apply (f_equal String.string_of_list_ascii) in H.
    rewrite String.string_of_list_ascii_of_string in H. rewrite H.
    by rewrite rev_involutive, string_of_list_ascii_app,
      String.string_of_list_ascii_of_string.
  - intros [s ->]. exists (rev (String.list_ascii_of_string s)).
    by rewrite list_ascii_of_string_app, rev_app_distr.
Qed.

(** The stem of [s.mp4] is [s], unless [s] is empty: the stem of [.mp4]
    is [.mp4] itself. *)
Lemma name_stem_mp4 s : s <> "" -> name_stem (s +:+ ".mp4") = s.
Proof.
  intros Hs. unfold name_stem. rewrite list_ascii_of_string_app, rev_app_distr. simpl.
  destruct (rev (String.list_ascii_of_string s)) as [|c pre] eqn:E.
  - exfalso. apply Hs. apply (f_equal (@rev _)) in E. rewrite rev_involutive in E.
    apply (f_equal String.string_of_list_ascii) in E.
    by rewrite String.string_of_list_ascii_of_string in E.
  - rewrite <- E, rev_involutive. apply String.string_of_list_ascii_of_string.
Qed.

Lemma path_split (p : Path) : p <> [] -> p = parent p /: path_name p.
Proof.
  intros Hp. unfold parent, path_name, joinpath. by apply app_removelast_last.
Qed.

(** The transcript of a video [s.mp4], with [s] not empty, is [s.txt] in
    the output directory. *)
Lemma final_transcript_mp4 t p s :
  path_name p = s +:+ ".mp4" -> s <> "" ->
  final_transcript t p = output_dir t /: (s +:+ ".txt").
Proof.
  intros Hp Hs. unfold final_transcript, path_stem. by rewrite Hp, name_stem_mp4.
Qed.

(** X18: the transcript of a job is the file in the output directory that has
    the name of the video with [.txt] in the place of [.mp4]; two jobs of
    a run write to different transcripts.  (Only a video named [.mp4],
    whose stem is [.mp4], is set apart: its transcript is that of
    [.mp4.mp4].) *)
Theorem jobs_write_distinct_transcripts t fs st k k' j j' :
  run_submit t fs = Ok st ->
  r_jobs st !! k = Some j -> r_jobs st !! k' = Some j' -> k <> k' ->
  path_name (j_video j) <> ".mp4" -> path_name (j_video j') <> ".mp4" ->
  (exists s, path_name (j_video j) = s +:+ ".mp4"
             /\ final_transcript t (j_video j) = output_dir t /: (s +:+ ".txt"))
  /\ final_transcript t (j_video j) <> final_transcript t (j_video j').
Proof.
  intros Hrun Hj Hj' Hkk Hn Hn'.
  pose proof (run_submit_jobs t fs st Hrun) as (_ & Hjobs & _).
  assert (Hnd : NoDup (j_video <$> r_jobs st)).
  { rewrite Hjobs, jobs_of_videos. unfold sorted_paths.
    rewrite merge_sort_Permutation. apply glob_mp4_NoDup. }
  assert (Hglob : forall i x, r_jobs st !! i = Some x ->
            j_video x ∈ glob_mp4 fs (input_dir t)).
  { intros i x Hx. rewrite <- (merge_sort_Permutation name_le).
    fold (sorted_paths (glob_mp4 fs (input_dir t))).
    rewrite <- (jobs_of_videos (sorted_paths _)), <- Hjobs.
    apply list_elem_of_fmap. exists x. split; [done|]. by eapply list_elem_of_lookup_2. }
  destruct (proj1 (elem_of_glob_mp4 _ _ _) (Hglob _ _ Hj)) as (_ & Hp & Hne & He).
  destruct (proj1 (elem_of_glob_mp4 _ _ _) (Hglob _ _ Hj')) as (_ & Hp' & Hne' & He').
  apply ends_with_mp4 in He as [s Hs], He' as [s' Hs'].
  assert (Hs0 : s <> "") by (intros ->; by apply Hn).
  assert (Hs0' : s' <> "") by (intros ->; by apply Hn').
  rewrite (final_transcript_mp4 t _ s Hs Hs0), (final_transcript_mp4 t _ s' Hs' Hs0').
  split; [eauto|].
  intros [_ H]%joinpath_inj. apply string_app_inj_r in H. subst s'.
  apply Hkk. eapply NoDup_lookup; [exact Hnd| |];
    rewrite list_lookup_fmap; [rewrite Hj|rewrite Hj']; simpl; [done|].
  f_equal. rewrite (path_split _ Hne), (path_split _ Hne'). congruence.
Qed.

Lemma jobs_write_distinct_transcripts_witness :
  exists st j j',
    run_submit two_chunks two_videos_fs = Ok st
    /\ r_jobs st !! 0%nat = Some j /\ r_jobs st !! 1%nat = Some j'
    /\ final_transcript two_chunks (j_video j) <> final_transcript two_chunks (j_video j').
Proof.
  eexists _, _, _. split; [vm_compute; reflexivity|].
  split; [vm_compute; reflexivity|]. split; [vm_compute; reflexivity|].
  eapply (jobs_write_distinct_transcripts two_chunks two_videos_fs _ 0 1).
  - vm_compute. reflexivity.
  - vm_compute. reflexivity.
  - vm_compute. reflexivity.
  - done.
  - vm_compute. discriminate.
  - vm_compute. discriminate.
Defined.

(** The one clash: the hidden file [.mp4] and the file [.mp4.mp4] have
    the same transcript. *)
Example hidden_video_clash t dir :
  final_transcript t (dir /: ".mp4") = final_transcript t (dir /: ".mp4.mp4").
Proof.
  unfold final_transcript, path_stem, path_name, joinpath. by rewrite !List.last_last.
Qed.

(** * The lines of a fragment *)

(** Whitespace that is not ASCII is removed as well, and a segment of
    nothing else gives no line. *)
Example strip_unicode_spaces :
  strip (NBSP +:+ " two words" +:+ String CR (String LF "") +:+ IDEOGRAPHIC_SPACE)
  = "two words"
  /\ fragment_lines [" " +:+ NBSP; "a " +:+ NBSP +:+ " b"] = ["a " +:+ NBSP +:+ " b"].
Proof. vm_compute. split; reflexivity. Qed.

(** X19: the lines a worker writes to its fragment go with the segments,
    in their order: a segment whose text is whitespace only gives no
    line, and any other gives its text without the whitespace at its two
    ends.  So no line is empty, and none begins or ends with a whitespace
    character. *)
Theorem fragment_lines_clean segments :
  lines_of segments (fragment_lines segments)
  /\ forall line, line ∈ fragment_lines segments -> line <> "" /\ clean line.
Proof.
  split; [apply fragment_lines_spec|]. intros line. apply fragment_lines_clean_lines.
Qed.

(** * What [main] can raise *)

Lemma select_language_raises stdin e :
  (select_language stdin).2 = Raise e -> e = EOFError.
Proof.
  induction stdin as [|line stdin IH]; simpl; [by intros [= <-]|].
  destruct (String.eqb (strip line) ""); simpl; [done|].
  destruct (int_of_str (strip line)) as [idx|].
  - destruct (idx =? 1); simpl; [done|]. destruct (idx =? 2); simpl; [done|].
    destruct (idx =? 3); simpl; [done|]. by destruct (select_language stdin).
  - by destruct (select_language stdin).
Qed.

Lemma select_threads_raises stdin e :
  (select_threads stdin).2 = Raise e -> e = EOFError.
Proof.
  induction stdin as [|line stdin IH]; simpl; [by intros [= <-]|].
  destruct (String.eqb (strip line) ""); simpl; [done|].
  destruct (int_of_str (strip line)) as [n|].
  - destruct (n <? 1); simpl; [|done]. by destruct (select_threads stdin).
  - by destruct (select_threads stdin).
Qed.

Lemma select_model_raises stdin e :
  (select_model stdin).2 = Raise e -> e = EOFError.
Proof.
  induction stdin as [|line stdin IH]; simpl; [by intros [= <-]|].
  destruct (String.eqb (strip line) ""); simpl; [done|].
  destruct (int_of_str (strip line)) as [n|].
  - destruct (_ && _) eqn:Hb; simpl; [|by destruct (select_model stdin)].
    apply andb_true_iff in Hb as [H1%Z.leb_le H2%Z.ltb_lt].
    destruct (valid_models !! Z.to_nat (n - 1)) as [m|] eqn:E; simpl; [done|].
    apply lookup_ge_None in E. simpl in *. lia.
  - by destruct (select_model stdin).
Qed.

Lemma main_config_raises a stdin e :
  (main_config a stdin).2 = Raise e -> arg_default a = false /\ e = EOFError.
Proof.
  unfold main_config. destruct (arg_default a); [done|].
  destruct (select_language stdin) as [out2 [[lang stdin1]|e1]] eqn:H1; simpl.
  - destruct (select_threads stdin1) as [out3 [[n stdin2]|e2]] eqn:H2; simpl.
    + destruct (select_model stdin2) as [out5 [[model rest]|e3]] eqn:H3; simpl; [done|].
      intros [= <-]. split; [done|]. apply (select_model_raises stdin2). by rewrite H3.
    + intros [= <-]. split; [done|]. apply (select_threads_raises stdin1). by rewrite H2.
  - intros [= <-]. split; [done|]. apply (select_language_raises stdin). by rewrite H1.
Qed.

(** X20: up to the point where the jobs are queued, [main] raises in three
    cases only: the input ends before the dialogue does ([EOFError]), the
    model cannot be loaded, the output directory cannot be made.  No
    answer typed at a prompt makes it raise, and with [--default] nothing
    is read. *)
Theorem main_raises_only (a : args) (stdin : list string) (load : loader)
    (script_dir : Path) (fs : filesystem) (e : exn) :
  (main a stdin load script_dir fs).2 = Raise e ->
  (arg_default a = false /\ e = EOFError /\ (main_config a stdin).2 = Raise EOFError)
  \/ (exists n model lang,
        (main_config a stdin).2 = Ok (n, model, lang) /\ (load model fs).2 = Some e)
  \/ exists n model lang,
       (main_config a stdin).2 = Ok (n, model, lang)
       /\ (load model fs).2 = None
       /\ mkdir_parents (load model fs).1
            (output_dir (VideoTranscriber script_dir n model lang)) = Raise e.
Proof.
  unfold main. destruct (main_config a stdin) as [out1 [[[n model] lang]|e1]] eqn:Hc; simpl.
  - pose proof (main_config_valid_run a stdin n model lang) as Hrun.
    rewrite Hc in Hrun. specialize (Hrun eq_refl).
    unfold VideoTranscriber_init. destruct (load model fs) as [fs1 [e0|]] eqn:Hl; simpl.
    { intros [= <-]. right; left. exists n, model, lang. by rewrite Hl. }
    destruct (mkdir_parents fs1 _) as [fs'|e0] eqn:Hm; simpl.
    + destruct (Hrun script_dir fs') as [st ->]. done.
    + intros [= <-]. right; right. exists n, model, lang. by rewrite Hl.
  - intros [= <-]. left.
    pose proof (main_config_raises a stdin e1) as H. rewrite Hc in H.
    destruct (H eq_refl) as [Ha ->]. done.
Qed.

Lemma main_raises_only_witness :
  (main eight_threads ["7"; "x"] caching_loader demo_dir ∅).2 = Raise EOFError
  /\ (main_config eight_threads ["7"; "x"]).2 = Raise EOFError.
Proof.
  assert (H : (main eight_threads ["7"; "x"] caching_loader demo_dir ∅).2 = Raise EOFError)
    by (vm_compute; reflexivity).
  split; [exact H|].
  destruct (main_raises_only _ _ _ _ _ _ H)
    as [(_ & _ & ?)|[(n & model & lang & Hc & _)|(n & model & lang & Hc & _)]].
  - done.
  - vm_compute in Hc. discriminate Hc.
  - vm_compute in Hc. discriminate Hc.
Defined.

(** * What [process_video] returns *)





(** * What a progress file holds while the workers run *)

Lemma write_progress_own temp w fs c t s next :
  w_temp_dir w = Some temp ->
  (write_progress w fs c t s next).1 !! progress_file temp (w_chunk w)
  = fs !! progress_file temp (w_chunk w)
  \/ (write_progress w fs c t s next).1 !! progress_file temp (w_chunk w)
     = Some (File (Text "")).
Proof.
  intros Ht. unfold write_progress, w_progress_file. rewrite Ht. simpl.
  destruct (percent_of c t); [|by left]. destruct (open_w fs _) eqn:Ho; [|by left].
  right. simpl. by eapply open_w_at.
Qed.

Lemma tqdm_write_progress_own temp w fs n t next :
  w_temp_dir w = Some temp ->
  (tqdm_write_progress w fs n t next).1 !! progress_file temp (w_chunk w)
  = fs !! progress_file temp (w_chunk w)
  \/ (tqdm_write_progress w fs n t next).1 !! progress_file temp (w_chunk w)
     = Some (File (Text "")).
Proof.
  intros Ht. unfold tqdm_write_progress. destruct (t =? 0); [by left|].
  by apply write_progress_own.
Qed.

Lemma progress_file_not_below temp i j name :
  progress_file temp i <> chunk_output_dir temp j /: name.
Proof.
  intros H. apply (f_equal length) in H.
  rewrite joinpath_length, progress_file_length, chunk_output_dir_length in H. lia.
Qed.

(** What a step of a worker does to the progress file of its chunk: it
    leaves it, truncates it, or dumps the record that was on its way. *)
Lemma worker_step_own temp fs w :
  w_temp_dir w = Some temp -> w_output_dir w = chunk_output_dir temp (w_chunk w) ->
  (worker_step fs w).1.1 !! progress_file temp (w_chunk w)
  = fs !! progress_file temp (w_chunk w)
  \/ (worker_step fs w).1.1 !! progress_file temp (w_chunk w) = Some (File (Text ""))
  \/ exists d, w_pending w = Some d
       /\ (worker_step fs w).1.1 !! progress_file temp (w_chunk w) = Some (File (Json d)).
Proof.
  intros Ht Ho. unfold worker_step. destruct (w_pending w) as [d|] eqn:Hp.
  { simpl. unfold w_progress_file. rewrite Ht. simpl.
    destruct (flush_at_cases fs (progress_file temp (w_chunk w)) (Json d)) as [H|H];
      [by left | right; right; eauto]. }
  assert (Hwp : forall c t s next,
    (write_progress w fs c t s next).1 !! progress_file temp (w_chunk w)
    = fs !! progress_file temp (w_chunk w)
    \/ (write_progress w fs c t s next).1 !! progress_file temp (w_chunk w)
       = Some (File (Text ""))
    \/ exists d, None = Some d
         /\ (write_progress w fs c t s next).1 !! progress_file temp (w_chunk w)
            = Some (File (Json d))).
  { intros c t s next. destruct (write_progress_own temp w fs c t s next Ht); auto. }
  assert (Htq : forall n t next,
    (tqdm_write_progress w fs n t next).1 !! progress_file temp (w_chunk w)
    = fs !! progress_file temp (w_chunk w)
    \/ (tqdm_write_progress w fs n t next).1 !! progress_file temp (w_chunk w)
       = Some (File (Text ""))
    \/ exists d, None = Some d
         /\ (tqdm_write_progress w fs n t next).1 !! progress_file temp (w_chunk w)
            = Some (File (Json d))).
  { intros n t next. destruct (tqdm_write_progress_own temp w fs n t next Ht); auto. }
  destruct (w_pc w) as [| | | | |bar calls|segs|segs|segs|segs| |r]; simpl;
    try apply Hwp; try (by left).
  - rewrite Ht. destruct (gate_open _ _); by left.
  - destruct calls as [|[t|k|] calls]; simpl; [by left|apply Htq| |];
      (destruct bar as [[n t]|]; [apply Htq|by left]).
  - destruct (mkdir_parents _ _) eqn:E; [|by left]. simpl. left.
    destruct (mkdir_parents_lookup _ _ _ (progress_file temp (w_chunk w)) E)
      as [?|(_ & _ & Hpre)]; [done|].
    rewrite Ho in Hpre. apply prefix_same_length in Hpre.
    + by apply progress_file_not_output_dir in Hpre.
    + by rewrite progress_file_length, chunk_output_dir_length.
  - destruct (open_w _ _) eqn:E; [|by left]. simpl. left.
    eapply open_w_lookup; [done|]. rewrite Ho. apply progress_file_not_below.
  - left. destruct (write_budget _); [destruct (_ <? _)%nat|]; simpl;
      apply flush_lookup; rewrite Ho; apply progress_file_not_below.
Qed.

Lemma write_progress_record w fs c t s next d :
  w_pending w = None ->
  w_pending (write_progress w fs c t s next).2 = Some d ->
  exists p, percent_of c t = Ok p /\ d = progress_data (w_chunk w) c t p s.
Proof.
  intros Hp. unfold write_progress. destruct (w_progress_file w); simpl; [|by rewrite Hp].
  destruct (percent_of c t) as [p|]; simpl; [|by rewrite Hp].
  destruct (open_w fs _); simpl; [|by rewrite Hp]. intros [= <-]. eauto.
Qed.

Lemma tqdm_write_progress_record w fs n t next d :
  w_pending w = None -> (0 < t -> n <= t) ->
  w_pending (tqdm_write_progress w fs n t next).2 = Some d ->
  record_of (w_chunk w) d.
Proof.
  intros Hp Hn. unfold tqdm_write_progress. destruct (Z.eqb_spec t 0); simpl; [by rewrite Hp|].
  intros (p & Hpc & ->)%write_progress_record; [|done].
  exists n, t, p, "transcribing". split; [done|]. split; [done|]. right. left. done.
Qed.

Lemma early_record w fs s next d :
  s ∈ ["starting"; "loading_model"; "model_loaded"] ->
  w_pending w = None ->
  w_pending (write_progress w fs 0 1 s next).2 = Some d -> record_of (w_chunk w) d.
Proof.
  intros Hs Hp (p & Hpc & ->)%write_progress_record; [|done].
  rewrite percent_of_0_1 in Hpc. injection Hpc as <-.
  exists 0, 1, 0, s. split; [done|]. split; [apply percent_of_0_1|]. by left.
Qed.

Lemma late_record w fs s next d :
  s ∈ ["transcribed"; "complete"] ->
  w_pending w = None ->
  w_pending (write_progress w fs 1 1 s next).2 = Some d -> record_of (w_chunk w) d.
Proof.
  intros Hs Hp (p & Hpc & ->)%write_progress_record; [|done].
  rewrite percent_of_1_1 in Hpc. injection Hpc as <-.
  exists 1, 1, 100, s. split; [done|]. split; [apply percent_of_1_1|]. right. by right.
Qed.

(** A record on its way after a step is one of the records of the chunk. *)
Lemma worker_step_pending_ok fs w :
  bar_ok w -> pending_ok (worker_step fs w).1.2.
Proof.
  intros Hbar d. destruct (worker_step_static fs w) as (-> & _).
  unfold worker_step. destruct (w_pending w) eqn:Hp; [done|].
  destruct (w_pc w) as [| | | | |bar calls|segs|segs|segs|segs| |r] eqn:Hpc; simpl.
  - apply early_record; [set_solver|done].
  - destruct (w_temp_dir w); [destruct (gate_open _ _)|]; simpl; by rewrite Hp.
  - apply early_record; [set_solver|done].
  - destruct (load_raises _); simpl; by rewrite Hp.
  - apply early_record; [set_solver|done].
  - destruct calls as [|[t|k|] calls]; simpl.
    + destruct (transcribe_result _); simpl; by rewrite Hp.
    + apply tqdm_write_progress_record; [done|lia].
    + destruct bar as [[n t]|]; simpl; [|by rewrite Hp].
      apply tqdm_write_progress_record; [done|].
      intros Ht. destruct (Z.eqb_spec t 0); lia.
    + destruct bar as [[n t]|]; simpl; [|by rewrite Hp].
      apply tqdm_write_progress_record; [done|]. by eapply Hbar.
  - apply late_record; [set_solver|done].
  - destruct (mkdir_parents _ _); simpl; by rewrite Hp.
  - destruct (open_w _ _); simpl; by rewrite Hp.
  - destruct (write_budget _); [destruct (_ <? _)%nat|]; simpl; by rewrite Hp.
  - apply late_record; [set_solver|done].
  - by rewrite Hp.
Qed.

Lemma tqdm_write_progress_pc w fs n t next :
  w_pc (tqdm_write_progress w fs n t next).2 = next
  \/ exists r, w_pc (tqdm_write_progress w fs n t next).2 = WReturn r.
Proof.
  unfold tqdm_write_progress. destruct (t =? 0); [by left|].
  destruct (write_progress_pc w fs n t "transcribing" next) as [?|(e & _ & ?)]; eauto.
Qed.

Lemma worker_step_bar_ok fs w : bar_ok w -> bar_ok (worker_step fs w).1.2.
Proof.
  intros Hbar n total calls'. unfold worker_step.
  destruct (w_pending w) eqn:Hp; [simpl; apply Hbar|].
  assert (Hwp : forall c t s next,
    (forall n' t' cs, next = WTranscribe (Some (n', t')) cs -> 0 < t' -> n' <= t') ->
    w_pc (write_progress w fs c t s next).2 = WTranscribe (Some (n, total)) calls' ->
    0 < total -> n <= total).
  { intros c t s next Hnext H.
    destruct (write_progress_pc w fs c t s next) as [E|(e & _ & E)]; rewrite E in H; [|done].
    by eapply Hnext. }
  assert (Htq : forall n0 t next,
    (forall n' t' cs, next = WTranscribe (Some (n', t')) cs -> 0 < t' -> n' <= t') ->
    w_pc (tqdm_write_progress w fs n0 t next).2 = WTranscribe (Some (n, total)) calls' ->
    0 < total -> n <= total).
  { intros n0 t next Hnext H.
    destruct (tqdm_write_progress_pc w fs n0 t next) as [E|[r E]]; rewrite E in H; [|done].
    by eapply Hnext. }
  destruct (w_pc w) as [| | | | |bar calls|segs|segs|segs|segs| |r] eqn:Hpc; simpl;
    try (apply Hwp; by intros).
  - apply Hwp. intros n' t' cs. by destruct (_ && _).
  - destruct (w_temp_dir w); [destruct (gate_open _ _)|]; simpl; try done.
    by rewrite Hpc.
  - destruct (load_raises _); done.
  - destruct calls as [|[t|k|] calls]; simpl.
    + destruct (transcribe_result _); done.
    + apply Htq. intros n' t' cs [= <- <- _]. lia.
    + destruct bar as [[n0 t]|]; simpl; [|done].
      apply Htq. intros n' t' cs [= <- <- _] Ht. destruct (Z.eqb_spec t 0); lia.
    + destruct bar as [[n0 t]|]; simpl; [|done].
      apply Htq. intros n' t' cs [= <- <- _]. by eapply Hbar.
  - destruct (mkdir_parents _ _); done.
  - destruct (open_w _ _); done.
  - destruct (write_budget _); [destruct (_ <? _)%nat|]; done.
  - by rewrite Hpc.
Qed.

Lemma records_inv_step temp engine fs0 st i :
  wf_pool temp engine st -> records_inv temp fs0 st -> records_inv temp fs0 (pool_step st i).
Proof.
  intros Hwf [Hfiles Hws]. split.
  - intros j. destruct (pool_step_cases st i) as [->|(w & Hi & Hw & Hf & Hfs & _)]; [done|].
    destruct (Hwf _ _ Hw) as (_ & Ht & Ho & _).
    unfold file_ok. rewrite Hfs.
    destruct (decide (w_chunk w = j)) as [<-|Hne].
    + destruct (worker_step_own temp (p_fs st) w Ht Ho) as [->|[->|(d & Hd & ->)]].
      * apply Hfiles.
      * right. by left.
      * right. right. exists d. split; [done|]. by apply (Hws _ _ Hw).
    + rewrite worker_step_frame; [apply Hfiles|]. by eapply spawned_not_touches.
  - intros k w' Hw'.
    destruct (pool_step_worker st i k w' Hw') as [H|(w & _ & _ & Hw & _ & -> & _)];
      [by eapply Hws|].
    destruct (Hws _ _ Hw) as [Hbar _].
    split; [by apply worker_step_bar_ok | by apply worker_step_pending_ok].
Qed.

Lemma pool_run_records_inv temp engine N fs sched :
  records_inv temp fs (pool_run (spawn_all temp engine N fs) sched).
Proof.
  induction sched as [|i sched IH] using rev_ind.
  - split; [by left|]. intros k w Hw. simpl in Hw. rewrite list_lookup_fmap in Hw.
    destruct (range 1 (N + 1) !! k); [|done]. injection Hw as <-. by split.
  - rewrite pool_run_snoc. apply (records_inv_step temp engine); [|done].
    apply pool_run_wf, spawn_all_wf.
Qed.

(** X22: at every moment of every schedule of the workers of a job, the
    progress file of a chunk holds what it held before they started,
    or nothing (it has been opened and the record is not yet dumped), or a
    record of this chunk: the [chunk] field is the number in the name of
    the file, [percent] is computed from the [current] and [total] of the
    same record, and the [status] goes with them. *)
Theorem progress_files_hold_records temp engine N fs sched i :
  let fs' := p_fs (pool_run (spawn_all temp engine N fs) sched) in
  fs' !! progress_file temp i = fs !! progress_file temp i
  \/ fs' !! progress_file temp i = Some (File (Text ""))
  \/ exists d, fs' !! progress_file temp i = Some (File (Json d)) /\ record_of i d.
Proof.
  intros fs'. destruct (pool_run_records_inv temp engine N fs sched) as [H _]. apply H.
Qed.

(** * The report of the chunks that failed *)

Lemma dict_set_fresh {V} (d : list (Z * V)) k v :
  k ∉ d.*1 -> dict_set d k v = d ++ [(k, v)].
Proof.
  induction d as [|[k' v'] d IH]; [done|]. intros Hk. simpl.
  apply not_elem_of_cons in Hk as [Hne Hk]. simpl in Hne.
  destruct (Z.eqb_spec k' k); [congruence|]. by rewrite IH.
Qed.

Lemma collect_results_snoc l r :
  collect_results (l ++ [r]) = dict_set (collect_results l) r.1.1 (r.1.2, r.2).
Proof. unfold collect_results. rewrite foldl_app. by destruct r as [[c s] e]. Qed.

(** When no two results are of the same chunk, no entry of [results] is
    overwritten. *)
Lemma collect_results_NoDup (l : list (Z * bool * option string)) :
  NoDup l.*1.*1 -> collect_results l = result_item <$> l.
Proof.
  induction l as [|r l IH] using rev_ind; [done|].
  rewrite !fmap_app. intros [Hl [Hr _]]%NoDup_app.
  rewrite collect_results_snoc, IH by done. apply dict_set_fresh.
  rewrite <- list_fmap_compose. intros Hin. apply (Hr r.1.1); [|simpl; by left].
  rewrite <- list_fmap_compose. exact Hin.
Qed.

Lemma filter_failed_items (l : list (Z * bool * option string)) :
  filter (fun '(n, (s, e)) => s = false) (result_item <$> l)
  = result_item <$> filter (fun r : Z * bool * option string => r.1.2 = false) l.
Proof.
  induction l as [|[[c s] e] l IH]; [done|].
  rewrite fmap_cons. unfold result_item at 1. simpl.
  rewrite !filter_cons. simpl. rewrite IH. by destruct (decide (s = false)).
Qed.

Lemma report_failed_items (l : list (Z * bool * option string)) :
  report_failed (result_item <$> l)
  = match filter (fun r : Z * bool * option string => r.1.2 = false) l with
    | [] => []
    | _ => [Msg ""; Msg "⚠️  Some chunks failed:"]
           ++ (failure_line <$> filter (fun r : Z * bool * option string => r.1.2 = false) l)
           ++ [Msg ""]
    end.
Proof.
  unfold report_failed. rewrite filter_failed_items.
  destruct (filter _ l) as [|r rest]; [done|].
  rewrite <- list_fmap_compose. reflexivity.
Qed.

(** X23: whatever the schedule of the workers, what [process_video] prints
    about failed chunks is read off the results in the order they arrive:
    nothing when no result reports failure, and otherwise the heading and
    one line for each result that reports failure, in the order of
    arrival, with the chunk of the worker and the text of its exception.
    No worker overwrites the result of another in [results], and no line
    ends in [None]. *)
Theorem failed_chunks_listed temp engine N fs sched :
  let arrived := arrivals (p_log (pool_run (spawn_all temp engine N fs) sched)) in
  let failures := filter (fun r : Z * bool * option string => r.1.2 = false) arrived in
  report_failed (collect_results arrived)
  = match failures with
    | [] => []
    | _ => [Msg ""; Msg "⚠️  Some chunks failed:"] ++ (failure_line <$> failures)
           ++ [Msg ""]
    end
  /\ forall r, r ∈ failures -> 1 <= r.1.1 <= N /\ exists e, r.2 = Some e.
Proof.
  intros arrived failures.
  destruct (pool_run_results temp engine N fs sched) as (Hnd & Hres & _).
  split.
  - unfold arrived. rewrite collect_results_NoDup by done. apply report_failed_items.
  - intros [[c s] e] [Hs Hin]%list_elem_of_filter. simpl in Hs. subst s.
    destruct (Hres _ _ _ Hin) as [Hc He]. simpl. split; [done|].
    destruct e as [e|]; [eauto|]. by destruct He as [_ ?%(fun f => f eq_refl)].
Qed.

(** * A job that is interrupted *)






(** The temporary directory itself can be there again: the only worker
    is about to make its output directory when the interrupt comes; it
    goes on, and leaves the directory with its fragment. *)
Example interrupted_worker_recreates_temp_dir :
  let o := process_video_interrupted tools_ok (fun _ => whisper_ok) one_chunk demo_fs
             demo_video 1 1 [1] (replicate 17 1) [] (replicate 8 1) in
  pv_status_of o = PVReturned false
  /\ Msg "✓ Cleanup complete" ∈ pv_out o
  /\ pv_fs o !! temp_dir one_chunk = Some Dir
  /\ pv_fs o !! chunk_transcript (temp_dir one_chunk) 1
     = Some (File (Text ("hello" +:+ newline +:+ "world" +:+ newline)))
  /\ pv_fs o !! chunk_file (temp_dir one_chunk) 1 = None.
Proof.
  vm_compute. repeat split; try reflexivity. apply list_elem_of_In. simpl. tauto.
Qed.
